(** * lextpf/sage -- the OCR consensus pipeline of [internal/tess/ocr.py]

    A shallow embedding of the pure parts of the pipeline (geometry,
    scoring, bounded edit distance, alignment and voting, ROI ranking,
    the gamma lookup-table cache and the result emission of the frame
    driver) together with the properties stated for them.

    Modelling conventions.
    - A Python [str] is a [list ascii]; a character is its code point
      (Latin-1 range), and [str.isdigit], [str.isalnum], [str.isalpha]
      and the whitespace set of [str.strip] are the Python tables
      restricted to that range.
    - A Python [int] that is a length, an index or an edit distance is a
      [nat]; pixel coordinates are [Z].
    - A Python [float] is an exact rational [Q]: decimal literals stand
      for the rationals they denote and arithmetic is exact. Where a
      property depends on the rounding, the rounding is written out
      and is a parameter of the definition: the float32 array of
      [order_quad_points], and [candidate_confidence_fl].
    - [max(xs, key=f)] keeps the first maximal element, [sorted] is
      stable, a [dict] whose iteration order is observed is an
      insertion-ordered association list, and the gamma cache (a dict
      that is only looked up) is a [gmap]. *)

From Stdlib Require Import List Arith ZArith QArith Qcanon Qabs Qround Lia Lqa.
From Stdlib Require Import Ascii String Permutation Bool Sorted Qpower Qfield.
From stdpp Require Import base list gmap strings.

(** ** Characters and strings *)

Definition str := list ascii.

Definition lit (s : string) : str := list_ascii_of_string s.

#[global] Instance ascii_inhabited : Inhabited ascii := populate "000"%char.

Definition code (c : ascii) : nat := nat_of_ascii c.

Definition in_range (lo hi n : nat) : bool := (lo <=? n) && (n <=? hi).

(** [ch.isdigit()] *)
Definition isdigit (c : ascii) : bool :=
  let n := code c in
  in_range 48 57 n || (n =? 178) || (n =? 179) || (n =? 185).

(** ["A" <= ch <= "Z"] and ["a" <= ch <= "z"] *)
Definition is_upper_AZ (c : ascii) : bool := in_range 65 90 (code c).
Definition is_lower_az (c : ascii) : bool := in_range 97 122 (code c).

(** [ch.isalpha()] *)
Definition isalpha (c : ascii) : bool :=
  let n := code c in
  in_range 65 90 n || in_range 97 122 n || (n =? 170) || (n =? 181) || (n =? 186)
  || in_range 192 214 n || in_range 216 246 n || in_range 248 255 n.

(** [ch.isalnum()] *)
Definition isalnum (c : ascii) : bool :=
  isalpha c || isdigit c || in_range 188 190 (code c).

(** [ch.isspace()], the characters removed by [str.strip()] *)
Definition isspace (c : ascii) : bool :=
  let n := code c in
  in_range 9 13 n || in_range 28 32 n || (n =? 133) || (n =? 160).

Fixpoint lstrip (s : str) : str :=
  match s with
  | c :: s' => if isspace c then lstrip s' else s
  | [] => []
  end.

(** [text.strip()] *)
Definition strip (s : str) : str := rev (lstrip (rev (lstrip s))).

(** [ch in text] *)
Definition contains_char (c : ascii) (s : str) : bool := existsb (Ascii.eqb c) s.

(** [text.index(c)]: the first position of [c] *)
Fixpoint index_of (c : ascii) (s : str) : option nat :=
  match s with
  | [] => None
  | x :: s' => if Ascii.eqb x c then Some 0 else option_map S (index_of c s')
  end.

(** [text.rindex(c)]: the last position of [c] *)
Fixpoint rindex_of (c : ascii) (s : str) : option nat :=
  match s with
  | [] => None
  | x :: s' =>
      match rindex_of c s' with
      | Some k => Some (S k)
      | None => if Ascii.eqb x c then Some 0 else None
      end
  end.

(** [sum(1 for ch in text if p(ch))] *)
Definition count_if (p : ascii -> bool) (s : str) : nat := length (List.filter p s).

(** [text[i:j]] for [0 <= i <= j] *)
Definition slice (s : str) (i j : nat) : str := take (j - i) (drop i s).

(** ** Numbers *)

Definition Qnat (n : nat) : Q := inject_Z (Z.of_nat n).

Definition Qleb (x y : Q) : bool := Qle_bool x y.
Definition Qltb (x y : Q) : bool := negb (Qle_bool y x).

(** [max(x, y)] and [min(x, y)] on floats: the first argument wins ties. *)
Definition Qmax2 (x y : Q) : Q := if Qltb x y then y else x.
Definition Qmin2 (x y : Q) : Q := if Qltb y x then y else x.

Definition abs_diff (x y : nat) : nat := (x - y) + (y - x).

(** [max(xs, key=key)]: the scan keeps the first element whose key no
    later one exceeds. [max_from] is the scan started at a first element;
    in [py_max_by] [None] stands for the [ValueError] on an empty
    sequence. *)
Definition max_from {A K : Type} (ltb : K -> K -> bool) (key : A -> K)
    (x : A) (xs : list A) : A :=
  fold_left (fun best y => if ltb (key best) (key y) then y else best) xs x.

Definition py_max_by {A K : Type} (ltb : K -> K -> bool) (key : A -> K)
    (xs : list A) : option A :=
  match xs with
  | [] => None
  | x :: xs' => Some (max_from ltb key x xs')
  end.

(** [sorted(xs, key=key, reverse=True)]: stable, descending. *)
Fixpoint insert_desc {A : Type} (key : A -> Q) (x : A) (l : list A) : list A :=
  match l with
  | [] => [x]
  | y :: l' => if Qltb (key x) (key y) then y :: insert_desc key x l' else x :: l
  end.

Fixpoint sorted_desc {A : Type} (key : A -> Q) (l : list A) : list A :=
  match l with
  | [] => []
  | x :: l' => insert_desc key x (sorted_desc key l')
  end.

(** [d[k] = d.get(k, 0.0) + w] on an insertion-ordered dict. *)
Fixpoint dict_add {K : Type} (eqb : K -> K -> bool) (k : K) (w : Q)
    (d : list (K * Q)) : list (K * Q) :=
  match d with
  | [] => [(k, (0 + w)%Q)]
  | (k', v) :: d' =>
      if eqb k' k then (k', (v + w)%Q) :: d' else (k', v) :: dict_add eqb k w d'
  end.

(** ** Geometry: [order_quad_points] *)

Definition point := (Q * Q)%type.

(** [np.argmin] and [np.argmax]: the index of the first extremal entry. *)
Fixpoint arg_scan (better : Q -> Q -> bool) (best_i : nat) (best_v : Q)
    (i : nat) (l : list Q) : nat :=
  match l with
  | [] => best_i
  | v :: l' =>
      if better v best_v then arg_scan better i v (S i) l'
      else arg_scan better best_i best_v (S i) l'
  end.

Definition argmin (l : list Q) : nat :=
  match l with
  | [] => 0
  | v :: l' => arg_scan Qltb 0 v 1 l'
  end.

Definition argmax (l : list Q) : nat :=
  match l with
  | [] => 0
  | v :: l' => arg_scan (fun x y => Qltb y x) 0 v 1 l'
  end.

Definition pt_sum (p : point) : Q := (fst p + snd p)%Q.
Definition pt_diff (p : point) : Q := (snd p - fst p)%Q.

Definition origin : point := (0%Q, 0%Q).

Section Float32.
(** The array is made with [dtype=np.float32]: its entries, and the sums
    and differences taken of them, are single-precision floats. [f32]
    is the rounding of a real number to float32; the conversion of a
    coordinate and the result of one float32 operation are [f32] of the
    exact value. *)
Variable f32 : Q -> Q.

(** A row of [np.array(pts, dtype=np.float32)]. *)
Definition to_float32 (p : point) : point := (f32 (fst p), f32 (snd p)).

(** An entry of [pts.sum(axis=1)] and of [np.diff(pts, axis=1)]. *)
Definition sum32 (p : point) : Q := f32 (pt_sum p).
Definition diff32 (p : point) : Q := f32 (pt_diff p).

(** [reshape(4, 2)] raises unless there are exactly four points: [None]. *)
Definition order_quad_points (pts : list point) : option (list point) :=
  if length pts =? 4 then
    let pts := map to_float32 pts in
    let s := map sum32 pts in
    let d := map diff32 pts in
    let tl := nth (argmin s) pts origin in
    let br := nth (argmax s) pts origin in
    let tr := nth (argmin d) pts origin in
    let bl := nth (argmax d) pts origin in
    Some [tl; tr; br; bl]
  else None.
End Float32.

(** ** Detections and candidates *)

(** One item returned by the recognition engine: [(bbox, text, conf)]. *)
Definition detection := (list point * str * Q)%type.

(** One recognition attempt: [(results, combined)]. *)
Definition candidate := (list detection * str)%type.

Definition has_strong_result (results : list detection) : bool :=
  existsb (fun '(_, text, conf) => Qleb 0.50 conf && (2 <=? length (strip text))) results.

Definition candidate_confidence (results : list detection) : Q :=
  let '(weighted, total_w) :=
    fold_left
      (fun '(weighted, total_w) '(_, text, conf) =>
         let t := strip text in
         match t with
         | [] => (weighted, total_w)
         | _ =>
             let w := Qnat (Nat.max 1 (length t)) in
             ((weighted + conf * w)%Q, (total_w + w)%Q)
         end)
      results (0%Q, 0%Q) in
  if Qleb total_w 0 then 0%Q else (weighted / total_w)%Q.

Definition is_good_candidate (results : list detection) (combined : str) : bool :=
  match combined with
  | [] => false
  | _ =>
      let conf := candidate_confidence results in
      if Qleb 0.65 conf && (14 <=? length combined) then true
      else if has_strong_result results && (14 <=? length combined) then true
      else false
  end.

Definition Qsum (l : list Q) : Q := fold_left Qplus l 0%Q.

(** The length of the run of digits at the start of [s]; on the reversed
    text it is the loop over [reversed(combined)] that stops at the first
    character that is no digit. *)
Fixpoint leading_digits (s : str) : nat :=
  match s with
  | c :: s' => if isdigit c then S (leading_digits s') else 0
  | [] => 0
  end.

Definition score_result (results : list detection) (combined : str) : Q :=
  match combined with
  | [] => 0%Q
  | _ =>
      let n := length combined in
      let avg_conf :=
        (Qsum (map (fun '(_, _, conf) => conf) results)
         / Qnat (Nat.max 1 (length results)))%Q in
      let symbol_count := count_if (fun ch => negb (isalnum ch)) combined in
      let symbol_bonus := Qmin2 2.6 (Qnat symbol_count * 0.45) in
      let symbol_bonus :=
        if 18 <? n then (symbol_bonus - Qnat (n - 18) * 2.1)%Q else symbol_bonus in
      let penalty :=
        fold_left
          (fun penalty i =>
             if negb (isalnum (combined !!! (i - 1))) && isdigit (combined !!! i)
                && negb (isalnum (combined !!! (i + 1)))
             then (penalty + 1.6)%Q else penalty)
          (seq 1 (n - 1 - 1)) 0%Q in
      let tail_digits := leading_digits (rev combined) in
      let penalty :=
        if 2 <=? tail_digits then (penalty + Qnat (tail_digits - 1) * 1.35)%Q
        else penalty in
      (Qnat n * 1.6 + avg_conf * 4.0 + symbol_bonus - penalty)%Q
  end.

(** ** Text clean-up: [sanitize_text] and [normalize_ocr_text] *)

(** The module-level default. [main] replaces the global by the value
    of [TESS_OCR_ALLOWLIST] when that is set and not empty; what is
    proved of the clean-up uses no fact about which characters the list
    holds, unless the statement says so. *)
Definition ALLOWLIST : str :=
  lit "ABCDEFGHIJKLMNOPQRSTUVWXYZabcdefghijklmnopqrstuvwxyz0123456789!@#$%&*+-=._?".

Definition allowed (ch : ascii) : bool := contains_char ch ALLOWLIST.

Definition sanitize_text (text : str) : str :=
  match text with
  | [] => []
  | _ => List.filter allowed text
  end.

(** [text.replace("__", "_")]: left to right, occurrences do not overlap. *)
Fixpoint replace_double_underscore (s : str) : str :=
  match s with
  | c1 :: s1 =>
      match s1 with
      | c2 :: s2 =>
          if Ascii.eqb c1 "_" && Ascii.eqb c2 "_"
          then "_"%char :: replace_double_underscore s2
          else c1 :: replace_double_underscore s1
      | [] => [c1]
      end
  | [] => []
  end.

(** ["__" in text] *)
Fixpoint has_double_underscore (s : str) : bool :=
  match s with
  | c1 :: s1 =>
      match s1 with
      | c2 :: _ => (Ascii.eqb c1 "_" && Ascii.eqb c2 "_") || has_double_underscore s1
      | [] => false
      end
  | [] => false
  end.

(** [while "__" in text: text = text.replace("__", "_")]; every turn of
    the loop shortens the text, so [length text] turns are enough. *)
Fixpoint collapse_underscores (fuel : nat) (text : str) : str :=
  match fuel with
  | 0 => text
  | S fuel' =>
      if has_double_underscore text
      then collapse_underscores fuel' (replace_double_underscore text)
      else text
  end.

Definition normalize_ocr_text (text : str) : str :=
  let text := sanitize_text text in
  match text with
  | [] => text
  | _ => collapse_underscores (length text) text
  end.

(** ** Consensus engine: [bounded_levenshtein] *)

Definition subst_cost (x y : ascii) : nat := if Ascii.eqb x y then 0 else 1.

Definition min3 (x y z : nat) : nat := Nat.min (Nat.min x y) z.

(** The body of the loop over [j]: the state is the row [cur] being
    filled and the running [row_min]. *)
Definition lev_inner (ca : ascii) (b : str) (prev : list nat)
    (st : list nat * nat) (j : nat) : list nat * nat :=
  let '(cur, row_min) := st in
  let cost := subst_cost ca (b !!! (j - 1)) in
  let v := min3 (prev !!! j + 1) (cur !!! (j - 1) + 1) (prev !!! (j - 1) + cost) in
  let cur := <[j := v]> cur in
  (cur, if v <? row_min then v else row_min).

(** The loop over [i], by recursion on the rows that are left; the two
    row buffers are swapped at the end of each turn. *)
Fixpoint lev_rows (a b : str) (max_dist : nat) (rows : list nat)
    (prev cur : list nat) : nat :=
  match rows with
  | [] => prev !!! (length b)
  | i :: rows' =>
      let cur := <[0 := i]> cur in
      let row_min := cur !!! 0 in
      let ca := a !!! (i - 1) in
      let '(cur, row_min) :=
        fold_left (lev_inner ca b prev) (seq 1 (length b)) (cur, row_min) in
      if max_dist <? row_min then max_dist + 1
      else lev_rows a b max_dist rows' cur prev
  end.

Definition bounded_levenshtein (a b : str) (max_dist : nat) : nat :=
  let la := length a in
  let lb := length b in
  if max_dist <? abs_diff la lb then max_dist + 1
  else lev_rows a b max_dist (seq 1 la) (seq 0 (lb + 1)) (replicate (lb + 1) 0).

(** The reference: the edit scripts that turn [a] into [b], with their
    number of insertions, deletions and substitutions ... *)
Inductive edit : str -> str -> nat -> Prop :=
  | edit_nil : edit [] [] 0
  | edit_del x a b n : edit a b n -> edit (x :: a) b (S n)
  | edit_ins y a b n : edit a b n -> edit a (y :: b) (S n)
  | edit_sub x y a b n : edit a b n -> edit (x :: a) (y :: b) (n + subst_cost x y).

(** ... and the Levenshtein distance, the cost of a cheapest script
    ([lev_edit] and [lev_least] below), by the usual recurrence. *)
Fixpoint lev (a : str) : str -> nat :=
  match a with
  | [] => fun b => length b
  | x :: a' =>
      fix lev_row (b : str) : nat :=
        match b with
        | [] => S (length a')
        | y :: b' => min3 (lev a' b + 1) (lev_row b' + 1) (lev a' b' + subst_cost x y)
        end
  end.

(** ** Consensus engine: [align_to_reference] and [position_vote] *)

Definition table := list (list nat).

Definition get2 (t : table) (i j : nat) : nat := (t !!! i) !!! j.
Definition set2 (t : table) (i j v : nat) : table := <[i := <[j := v]> (t !!! i)]> t.

(** The body of the two nested loops that fill [dp] and [back]. *)
Definition align_cell (reference text : str) (i : nat) (st : table * table) (j : nat)
    : table * table :=
  let '(dp, back) := st in
  let rch := reference !!! (i - 1) in
  let tch := text !!! (j - 1) in
  let sub_cost := if Ascii.eqb rch tch then 0 else 1 in
  let sub := get2 dp (i - 1) (j - 1) + sub_cost in
  let delete := get2 dp (i - 1) j + 1 in
  let insert := get2 dp i (j - 1) + 1 in
  let best := sub in
  let op := 0 in
  let '(best, op) := if delete <? best then (delete, 1) else (best, op) in
  let '(best, op) := if insert <? best then (insert, 2) else (best, op) in
  (set2 dp i j best, set2 back i j op).

(** The [while i > 0 or j > 0] loop that walks the back pointers; every
    turn lowers [i + j], so [m + n] turns are enough. *)
Fixpoint align_walk (fuel : nat) (text : str) (back : table)
    (aligned : list (option ascii)) (i j : nat) : list (option ascii) :=
  match fuel with
  | 0 => aligned
  | S fuel' =>
      if (0 <? i) || (0 <? j) then
        if i =? 0 then align_walk fuel' text back aligned i (j - 1)
        else if j =? 0 then align_walk fuel' text back aligned (i - 1) j
        else
          let op := get2 back i j in
          if op =? 0 then
            align_walk fuel' text back
              (<[i - 1 := Some (text !!! (j - 1))]> aligned) (i - 1) (j - 1)
          else if op =? 1 then align_walk fuel' text back aligned (i - 1) j
          else align_walk fuel' text back aligned i (j - 1)
      else aligned
  end.

Definition align_to_reference (reference text : str) : list (option ascii) :=
  let m := length reference in
  let n := length text in
  if m =? 0 then []
  else if n =? 0 then replicate m None
  else
    let dp := replicate (m + 1) (replicate (n + 1) 0) in
    let back := replicate (m + 1) (replicate (n + 1) 0) in
    let '(dp, back) :=
      fold_left (fun '(dp, back) i => (set2 dp i 0 i, set2 back i 0 1))
        (seq 1 m) (dp, back) in
    let '(dp, back) :=
      fold_left (fun '(dp, back) j => (set2 dp 0 j j, set2 back 0 j 2))
        (seq 1 n) (dp, back) in
    let '(dp, back) :=
      fold_left
        (fun st i => fold_left (align_cell reference text i) (seq 1 n) st)
        (seq 1 m) (dp, back) in
    align_walk (m + n) text back (replicate m None) m n.

(** The key [(-abs(len(v[0]) - target_len), max(0.01, float(v[1])))] of
    the choice of the reference, compared as Python compares tuples; the
    first component is kept as the distance it negates. *)
Definition ref_key_ltb (k1 k2 : nat * Q) : bool :=
  (fst k2 <? fst k1) || ((fst k1 =? fst k2) && Qltb (snd k1) (snd k2)).

Definition Qkey_ltb {K : Type} (kv1 kv2 : K * Q) : bool := Qltb (snd kv1) (snd kv2).

(** The votes of all variants for position [i] of the reference. *)
Definition position_votes (variants : list (str * Q)) (reference : str)
    (target_len i : nat) : list (ascii * Q) :=
  fold_left
    (fun votes '(t, w) =>
       match t with
       | [] => votes
       | _ =>
           let weight :=
             (Qmax2 0.01 w / (1.0 + Qnat (abs_diff (length t) target_len) * 0.35))%Q in
           let aligned := align_to_reference reference t in
           match aligned !! i with
           | None => votes
           | Some None => votes
           | Some (Some ch) => dict_add Ascii.eqb ch weight votes
           end
       end)
    variants [].

Definition position_vote (variants : list (str * Q)) : str :=
  match variants with
  | [] => []
  | [v] => fst v
  | v0 :: _ =>
      let len_weight :=
        fold_left
          (fun len_weight '(text, weight) =>
             dict_add Nat.eqb (length text) (Qmax2 0.01 weight) len_weight)
          variants [] in
      let target_len := default 0 (fst <$> py_max_by Qkey_ltb id len_weight) in
      let reference :=
        default [] (fst <$>
          py_max_by ref_key_ltb
            (fun v => (abs_diff (length (fst v)) target_len, Qmax2 0.01 (snd v)))
            variants) in
      let reference := match reference with [] => fst v0 | _ => reference end in
      map
        (fun i =>
           let votes := position_votes variants reference target_len i in
           match py_max_by Qkey_ltb id votes with
           | Some kv => fst kv
           | None => reference !!! i
           end)
        (seq 0 (length reference))
  end.

(** ** Scorer: [pattern_score] and [best_text_window] *)

Definition at_before_underscore (text : str) : bool :=
  match index_of "@" text, rindex_of "_" text with
  | Some i, Some j => i <? j
  | _, _ => false
  end.

Definition pattern_score (text : str) : Q :=
  match text with
  | [] => (-999.0)%Q
  | _ =>
      let l := length text in
      let upp := count_if is_upper_AZ text in
      let low := count_if is_lower_az text in
      let dig := count_if isdigit text in
      let sym := count_if (fun ch => negb (isalnum ch)) text in
      let score := 0.0%Q in
      let score := if 3 <=? upp + low then (score + 1.6)%Q else score in
      let score := if 2 <=? dig then (score + 1.2)%Q else score in
      let score := if 2 <=? sym then (score + 1.5)%Q else score in
      let score := if contains_char "@" text then (score + 0.8)%Q else score in
      let score := if contains_char "_" text then (score + 0.7)%Q else score in
      let score :=
        if contains_char "@" text && contains_char "_" text && at_before_underscore text
        then (score + 2.1)%Q else score in
      let score := if contains_char "?" text then (score + 0.5)%Q else score in
      if (12 <=? l) && (l <=? 18) then (score + 2.8)%Q
      else if 18 <? l then (score - Qnat (l - 18) * 1.9)%Q
      else if l <? 8 then (score - Qnat (8 - l) * 1.5)%Q
      else score
  end.

Definition length_prior (l : nat) : Q :=
  if (14 <=? l) && (l <=? 18) then 1.8%Q
  else if 18 <? l then (1.8 - Qnat (l - 18) * 1.2)%Q
  else (1.8 - Qnat (14 - l) * 0.5)%Q.

(** [len(sub) >= 2 and sub[-1].isdigit() and not sub[-2].isdigit()] *)
Definition trailing_lone_digit (sub : str) : bool :=
  let n := length sub in
  (2 <=? n) && isdigit (sub !!! (n - 1)) && negb (isdigit (sub !!! (n - 2))).

(** The score of the window [sub], taken with the length [win_len] the
    loop asked for. *)
Definition window_score (sub : str) (win_len : nat) : Q :=
  let score := (pattern_score sub + Qnat win_len * 0.22 + length_prior win_len)%Q in
  if trailing_lone_digit sub then (score - 0.3)%Q else score.

(** The body of the loop over the start [i] of a window of [win_len]. *)
Definition window_step (text : str) (win_len : nat) (st : str * Q) (i : nat) : str * Q :=
  let '(best, best_score) := st in
  let sub := slice text i (i + win_len) in
  let score := window_score sub win_len in
  if Qltb (best_score + 1e-6)%Q score then (sub, score) else (best, best_score).

Definition best_text_window (text : str) : str :=
  let text := sanitize_text text in
  match text with
  | [] => []
  | _ =>
      let n := length text in
      let best := text in
      let best_score := window_score text n in
      let min_len := if 12 <=? n then 12 else n in
      let max_len := Nat.min 18 n in
      fst (fold_left
             (fun st win_len =>
                fold_left (window_step text win_len) (seq 0 (n - win_len + 1)) st)
             (seq min_len (max_len + 1 - min_len))
             (best, best_score))
  end.

(** ** Consensus engine: [select_consensus_candidate] *)

(** An entry [(text, conf, base)]. *)
Definition entry := (str * Q * Q)%type.

Record cluster := {
  seed : str;
  best_base : Q;
  variants : list entry
}.

(** The loop [for cluster in clusters] that looks for the first cluster
    close enough to [text]; [None] when the entry was not placed. *)
Fixpoint place_entry (e : entry) (max_dist : nat) (clusters : list cluster)
    : option (list cluster) :=
  let '(text, conf, base) := e in
  match clusters with
  | [] => None
  | c :: clusters' =>
      if max_dist <? abs_diff (length (seed c)) (length text)
      then cons c <$> place_entry e max_dist clusters'
      else
        let dist := bounded_levenshtein (seed c) text max_dist in
        if dist <=? max_dist then
          let vs := variants c ++ [e] in
          Some ((if Qltb (best_base c) base
                 then {| seed := text; best_base := base; variants := vs |}
                 else {| seed := seed c; best_base := best_base c; variants := vs |})
                :: clusters')
        else cons c <$> place_entry e max_dist clusters'
  end.

Definition add_to_clusters (clusters : list cluster) (e : entry) : list cluster :=
  let '(text, conf, base) := e in
  let max_dist := if length text <=? 18 then 2 else 3 in
  match place_entry e max_dist clusters with
  | Some clusters' => clusters'
  | None => clusters ++ [{| seed := text; best_base := base; variants := [e] |}]
  end.

(** The body of the loop that scores the clusters; the state is
    [(best_text, best_conf, best_score)]. *)
Definition score_cluster (target_len : nat) (st : str * Q * Q) (c : cluster)
    : str * Q * Q :=
  let '(best_text, best_conf, best_score) := st in
  let vs := variants c in
  let voted :=
    position_vote
      (map (fun '(t, c, _) => (t, (Qmax2 0.05 c * Qmax2 1.0 (Qnat (length t)))%Q)) vs) in
  let voted := normalize_ocr_text (best_text_window voted) in
  match voted with
  | [] => st
  | _ =>
      let sum_base := Qsum (map (fun v => snd v) vs) in
      let avg_base := (sum_base / Qnat (Nat.max 1 (length vs)))%Q in
      let max_conf := default 0%Q (py_max_by Qltb id (map (fun v => snd (fst v)) vs)) in
      let hits := length vs in
      let len_bonus :=
        Qmax2 0.0 (4.6 - Qnat (abs_diff (length voted) target_len) * 1.45) in
      let score :=
        (avg_base * 0.95 + pattern_score voted * 1.35 + max_conf * 2.4
         + Qnat (Nat.min 3 hits) * 1.1 + len_bonus * 0.35)%Q in
      if Qltb best_score score then (voted, max_conf, score) else st
  end.

Definition entry_base (e : entry) : Q := snd e.

Definition select_consensus_candidate (candidates : list candidate) : str * Q :=
  let entries :=
    fold_left
      (fun entries '(results, combined) =>
         let text := normalize_ocr_text (best_text_window combined) in
         match text with
         | [] => entries
         | _ =>
             let conf := candidate_confidence results in
             let base := score_result results text in
             entries ++ [(text, conf, base)]
         end)
      candidates [] in
  match entries with
  | [] => ([], 0.0%Q)
  | e0 :: _ =>
      let len_weights :=
        fold_left
          (fun len_weights '(text, conf, base) =>
             dict_add Nat.eqb (length text)
               (Qmax2 0.2 (conf * 2.0) + Qmax2 0.0 (base * 0.05))%Q len_weights)
          entries [] in
      let target_len := default 0 (fst <$> py_max_by Qkey_ltb id len_weights) in
      let clusters := fold_left add_to_clusters (sorted_desc entry_base entries) [] in
      let '(best_text, best_conf, best_score) :=
        fold_left (score_cluster target_len) clusters ([], 0.0%Q, (-1e9)%Q) in
      match best_text with
      | [] =>
          let '(text, conf, _) := default e0 (py_max_by Qltb entry_base entries) in
          (text, conf)
      | _ => (best_text, best_conf)
      end
  end.

(** ** ROI ranking: [roi_priority_score] and [prioritize_rois] *)

(** An ROI [(x0, y0, x1, y1)]. *)
Definition roi := (Z * Z * Z * Z)%type.

Definition roi_width (r : roi) : Z := let '(x0, _, x1, _) := r in (x1 - x0)%Z.

Definition roi_eqb (r1 r2 : roi) : bool :=
  let '(a0, b0, a1, b1) := r1 in
  let '(c0, d0, c1, d1) := r2 in
  (a0 =? c0)%Z && (b0 =? d0)%Z && (a1 =? c1)%Z && (b1 =? d1)%Z.

(** [img_shape[:2]] is [(h, w)]. *)
Definition roi_priority_score (r : roi) (img_shape : Z * Z) : Q :=
  let '(x0, y0, x1, y1) := r in
  let '(h, w) := img_shape in
  let rw := Z.max 1 (x1 - x0) in
  let rh := Z.max 1 (y1 - y0) in
  let area_ratio := (inject_Z (rw * rh) / inject_Z (Z.max 1 (w * h)))%Q in
  let width_ratio := (inject_Z rw / inject_Z (Z.max 1 w))%Q in
  let height_ratio := (inject_Z rh / inject_Z (Z.max 1 h))%Q in
  let aspect := (inject_Z rw / inject_Z rh)%Q in
  let cx := (inject_Z (x0 + x1) * 0.5)%Q in
  let cy := (inject_Z (y0 + y1) * 0.5)%Q in
  let dx := (Qabs (cx - inject_Z w * 0.5) / Qmax2 1.0 (inject_Z w * 0.5))%Q in
  let dy := (Qabs (cy - inject_Z h * 0.62) / Qmax2 1.0 (inject_Z h * 0.62))%Q in
  let center_bonus := Qmax2 0.0 (1.0 - 0.95 * dx - 0.70 * dy) in
  let score := 0.0%Q in
  let score := (score + width_ratio * 11.0)%Q in
  let score := (score + Qmin2 4.5 (area_ratio * 95.0))%Q in
  let score := (score + Qmin2 2.0 (Qmax2 0.0 (aspect - 1.2) * 0.18))%Q in
  let score := (score + center_bonus * 2.0)%Q in
  let score :=
    if Qltb width_ratio 0.20 then (score - (0.20 - width_ratio) * 22.0)%Q else score in
  let score :=
    if Qltb area_ratio 0.012 then (score - (0.012 - area_ratio) * 120.0)%Q else score in
  let score := if Qltb height_ratio 0.025 then (score - 0.9)%Q else score in
  score.

Definition Zkey_ltb (x y : Z) : bool := (x <? y)%Z.

Definition prioritize_rois (rois : list roi) (img_shape : Z * Z) : list roi :=
  match rois with
  | [] => []
  | _ =>
      let ordered := sorted_desc (fun r => roi_priority_score r img_shape) rois in
      match ordered with
      | [] => []
      | first :: rest =>
          let widest := max_from Zkey_ltb roi_width first rest in
          if negb (roi_eqb first widest)
          then [first; widest] ++ List.filter (fun r => negb (roi_eqb r widest)) rest
          else ordered
      end
  end.

(** ** Image conditioner: the gamma lookup-table cache *)

(** [int(x)] on a float: truncation towards zero. *)
Definition py_int (x : Q) : Z := if Qltb x 0 then Qceiling x else Qfloor x.

Section Gamma.
(** The image type and the numeric library calls are external: the
    mean luminance of a crop ([float(np.mean(cv2.cvtColor(crop,
    cv2.COLOR_BGR2GRAY)))]), the float power [x ** y] and [cv2.LUT]. *)
Variable image : Type.
Variable mean_luminance : image -> Q.
Variable float_pow : Q -> Q -> Q.
Variable cv_LUT : image -> list Z -> image.

Definition gamma_lut (gamma : Q) : list Z :=
  let inv := (1.0 / gamma)%Q in
  map (fun i => Z.min 255 (py_int (float_pow (Qnat i / 255.0) inv * 255.0)%Q))
    (seq 0 256).

(** The branch on [mean_lum]; [None] is the [else: return bgr_crop]. *)
Definition choose_gamma (mean_lum : Q) : option Q :=
  if Qltb mean_lum 80 then Some 0.75%Q
  else if Qltb mean_lum 120 then Some 0.85%Q
  else if Qltb 200 mean_lum then Some 1.3%Q
  else if Qltb 160 mean_lum then Some 1.15%Q
  else None.

(** The module-level [_gamma_lut_cache] is threaded through the call:
    the function takes the cache and returns the cache it leaves. *)
Definition apply_gamma_correction (cache : gmap Qc (list Z)) (bgr_crop : image)
    : gmap Qc (list Z) * image :=
  let mean_lum := mean_luminance bgr_crop in
  match choose_gamma mean_lum with
  | None => (cache, bgr_crop)
  | Some gamma =>
      let cache :=
        match cache !! Q2Qc gamma with
        | None => <[Q2Qc gamma := gamma_lut gamma]> cache
        | Some _ => cache
        end in
      (cache, cv_LUT bgr_crop (cache !!! Q2Qc gamma))
  end.

(** A sequence of calls, from the cache [cache] on. *)
Definition gamma_calls (crops : list image) (cache : gmap Qc (list Z))
    : gmap Qc (list Z) :=
  fold_left (fun cache crop => fst (apply_gamma_correction cache crop)) crops cache.
End Gamma.

Definition gamma_keys : gset Qc :=
  {[ Q2Qc 0.75; Q2Qc 0.85; Q2Qc 1.15; Q2Qc 1.3 ]}.

(** ** Frame driver: the emission of one unit's result *)

Definition TAB : ascii := "009"%char.
Definition NL : ascii := "010"%char.

Section FrameDriver.
(** [f"{conf:.4f}"], the formatting of a float to four decimals. *)
Variable format_conf : Q -> str.

(** [sys.stdout.buffer.write(chunk)]: the output is the list of the
    chunks written so far. *)
Definition write (out : list str) (chunk : str) : list str := out ++ [chunk].

Definition candidate_score (c : candidate) : Q := score_result (fst c) (snd c).

(** The value of [combined] after
    [if combined: combined = normalize_ocr_text(best_text_window(combined))]. *)
Definition final_token (candidates : list candidate) : option str :=
  match py_max_by Qltb candidate_score candidates with
  | None => None
  | Some (results, combined) =>
      let '(consensus_text, consensus_conf) := select_consensus_candidate candidates in
      let combined := match consensus_text with [] => combined | _ => consensus_text end in
      Some (match combined with
            | [] => combined
            | _ => normalize_ocr_text (best_text_window combined)
            end)
  end.

(** [conf = consensus_conf if consensus_text else candidate_confidence(results)] *)
Definition final_confidence (candidates : list candidate) : option Q :=
  match py_max_by Qltb candidate_score candidates with
  | None => None
  | Some (results, combined) =>
      let '(consensus_text, consensus_conf) := select_consensus_candidate candidates in
      Some (match consensus_text with
            | [] => candidate_confidence results
            | _ => consensus_conf
            end)
  end.

Definition final_line (conf : Q) (combined : str) : str :=
  lit "FINAL" ++ [TAB] ++ format_conf conf ++ [TAB] ++ combined ++ [NL].

(** The end of the loop body of [main], from the choice of the
    strongest candidate to the blank line; [None] is the [ValueError]
    of [max] on an empty candidate list. *)
Definition emit_result (candidates : list candidate) (roi_clipped : bool)
    (out : list str) : option (list str) :=
  match final_token candidates, final_confidence candidates with
  | Some combined, Some conf =>
      let out :=
        match combined with
        | [] => out
        | _ =>
            let conf := if roi_clipped then (conf * 0.70)%Q else conf in
            write out (final_line conf combined)
        end in
      Some (write out [NL])
  | _, _ => None
  end.

(** One unit of the frame stream: [None] when [cv2.imdecode] returned
    [None], else the candidates the passes gathered and the clipped
    flag of the text ROI. *)
Definition frame_unit (decoded : option (list candidate * bool)) (out : list str)
    : option (list str) :=
  match decoded with
  | None => Some (write out [NL])
  | Some (candidates, roi_clipped) => emit_result candidates roi_clipped out
  end.
End FrameDriver.

(** * More of the pipeline *)

(** ** Configuration: the environment helpers *)

(** [ch.lower()] on the Latin-1 range. *)
Definition lower_char (c : ascii) : ascii :=
  let n := code c in
  if in_range 65 90 n || in_range 192 214 n || in_range 216 222 n
  then ascii_of_nat (n + 32) else c.

(** [text.lower()] *)
Definition lower (s : str) : str := map lower_char s.

Definition str_eqb (s t : str) : bool := bool_decide (s = t).

(** [raw.strip().lower() in ("1", "true", "yes", "on")] *)
Definition truthy (raw : str) : bool :=
  existsb (str_eqb (lower (strip raw))) [lit "1"; lit "true"; lit "yes"; lit "on"].

(** The process environment: [os.getenv(key)] is the lookup. *)
Definition env_flag_enabled (env : gmap string str) (key : string) : bool :=
  match env !! key with
  | None => false
  | Some raw => truthy raw
  end.

Definition env_flag_default_on (env : gmap string str) (key : string) : bool :=
  match env !! key with
  | None => true
  | Some raw => truthy raw
  end.

Section EnvInt.
(** [int(text)] is the builtin parser; [None] is its [ValueError]. *)
Variable parse_int : str -> option Z.

Definition env_int_or_default (env : gmap string str) (key : string)
    (default min_val max_val : Z) : Z :=
  match env !! key with
  | None => default
  | Some raw =>
      match parse_int (strip raw) with
      | None => default
      | Some value =>
          let value := if (value <? min_val)%Z then min_val else value in
          let value := if (max_val <? value)%Z then max_val else value in
          value
      end
  end.
End EnvInt.

(** [torch.cuda.is_available()] is the parameter [cuda_available]. *)
Definition choose_gpu_mode (env : gmap string str) (cuda_available : bool) : bool * str :=
  if env_flag_enabled env "TESS_OCR_FORCE_GPU" then (true, lit "gpu (forced)")
  else
    let mode := lower (strip (default (lit "cpu") (env !! "TESS_OCR_BACKEND"%string))) in
    if existsb (str_eqb mode) [lit "gpu"; lit "cuda"] then (true, lit "gpu")
    else if str_eqb mode (lit "auto") then (cuda_available, lit "auto")
    else (false, lit "cpu").

(** ** Geometry: [scale_quad] and [quad_to_bbox] *)

(** [np.clip(x, lo, hi)] *)
Definition Qclip (x lo hi : Q) : Q := Qmin2 (Qmax2 x lo) hi.

(** [np.min] and [np.max] of a non-empty array. *)
Definition Qlist_min (x : Q) (xs : list Q) : Q := fold_left Qmin2 xs x.
Definition Qlist_max (x : Q) (xs : list Q) : Q := fold_left Qmax2 xs x.

(** [None] is the error of [reshape(4, 2)] on anything but four points. *)
Definition scale_quad (quad : list point) (scale : Q) (img_w img_h : Z)
    : option (list point) :=
  if length quad =? 4 then
    if Qltb (Qabs (scale - 1.0)) 1e-6 then Some quad
    else
      let cx := (Qsum (map fst quad) / 4)%Q in
      let cy := (Qsum (map snd quad) / 4)%Q in
      Some (map
              (fun '(x, y) =>
                 (Qclip ((x - cx) * scale + cx) 0 (inject_Z (Z.max 0 (img_w - 1))),
                  Qclip ((y - cy) * scale + cy) 0 (inject_Z (Z.max 0 (img_h - 1)))))
              quad)
  else None.

(** [None] is the error of [np.min] on an empty array. *)
Definition quad_to_bbox (quad : list point) (img_w img_h : Z) : option roi :=
  match map fst quad, map snd quad with
  | x :: xs, y :: ys =>
      let x0 := Z.max 0 (Qfloor (Qlist_min x xs)) in
      let y0 := Z.max 0 (Qfloor (Qlist_min y ys)) in
      let x1 := Z.min img_w (Qceiling (Qlist_max x xs) + 1) in
      let y1 := Z.min img_h (Qceiling (Qlist_max y ys) + 1) in
      Some (x0, y0, x1, y1)
  | _, _ => None
  end.

(** ** ROI proposals: [expand_roi], [roi_iou] and [dedupe_rois] *)

Definition expand_roi (r : roi) (shape : Z * Z) (scale_x scale_y : Q) : roi :=
  let '(x0, y0, x1, y1) := r in
  let '(h, w) := shape in
  let cx := (inject_Z (x0 + x1) * 0.5)%Q in
  let cy := (inject_Z (y0 + y1) * 0.5)%Q in
  let rw := (inject_Z (x1 - x0) * scale_x)%Q in
  let rh := (inject_Z (y1 - y0) * scale_y)%Q in
  let nx0 := Z.max 0 (py_int (cx - rw * 0.5)) in
  let ny0 := Z.max 0 (py_int (cy - rh * 0.5)) in
  let nx1 := Z.min w (py_int (cx + rw * 0.5)) in
  let ny1 := Z.min h (py_int (cy + rh * 0.5)) in
  (nx0, ny0, nx1, ny1).

Definition roi_iou (a b : roi) : Q :=
  let '(ax0, ay0, ax1, ay1) := a in
  let '(bx0, by0, bx1, by1) := b in
  let ix0 := Z.max ax0 bx0 in
  let iy0 := Z.max ay0 by0 in
  let ix1 := Z.min ax1 bx1 in
  let iy1 := Z.min ay1 by1 in
  let inter := (Z.max 0 (ix1 - ix0) * Z.max 0 (iy1 - iy0))%Z in
  if (inter <=? 0)%Z then 0.0%Q
  else
    let aa := Z.max 1 ((ax1 - ax0) * (ay1 - ay0)) in
    let ab := Z.max 1 ((bx1 - bx0) * (by1 - by0)) in
    (inject_Z inter / inject_Z (Z.max 1 (aa + ab - inter)))%Q.

(** The loop of [dedupe_rois], with the list [kept] built so far. *)
Fixpoint dedupe_loop (iou_threshold : Q) (max_rois : Z) (kept rois : list roi)
    : list roi :=
  match rois with
  | [] => kept
  | r :: rest =>
      let '(x0, y0, x1, y1) := r in
      if (x1 - x0 <? 8)%Z || (y1 - y0 <? 8)%Z
      then dedupe_loop iou_threshold max_rois kept rest
      else if existsb (fun k => Qleb iou_threshold (roi_iou r k)) kept
      then dedupe_loop iou_threshold max_rois kept rest
      else
        let kept := kept ++ [r] in
        if (max_rois <=? Z.of_nat (length kept))%Z then kept
        else dedupe_loop iou_threshold max_rois kept rest
  end.

Definition dedupe_rois (rois : list roi) (iou_threshold : Q) (max_rois : Z) : list roi :=
  dedupe_loop iou_threshold max_rois [] rois.

(** ** Recognition: [combine_tokens] *)

(** [sorted(xs, key=key)] and [xs.sort(key=key)]: stable, ascending. *)
Fixpoint insert_asc {A : Type} (key : A -> Q) (x : A) (l : list A) : list A :=
  match l with
  | [] => [x]
  | y :: l' => if Qltb (key y) (key x) then y :: insert_asc key x l' else x :: l
  end.

Fixpoint sorted_asc {A : Type} (key : A -> Q) (l : list A) : list A :=
  match l with
  | [] => []
  | x :: l' => insert_asc key x (sorted_asc key l')
  end.

(** [np.median] of a non-empty list: the middle of the sorted values, or
    the mean of the two middle ones. *)
Definition median (xs : list Q) : Q :=
  let s := sorted_asc id xs in
  let n := length s in
  if Nat.even n then ((nth (n / 2 - 1) s 0 + nth (n / 2) s 0) / 2)%Q
  else nth (n / 2) s 0%Q.

(** A token [(cy, x0, t, conf, h)]. *)
Definition text_token := (Q * Q * str * Q * Q)%type.

Definition tok_cy (t : text_token) : Q := let '(cy, _, _, _, _) := t in cy.
Definition tok_x0 (t : text_token) : Q := let '(_, x0, _, _, _) := t in x0.
Definition tok_text (t : text_token) : str := let '(_, _, s, _, _) := t in s.
Definition tok_conf (t : text_token) : Q := let '(_, _, _, c, _) := t in c.
Definition tok_h (t : text_token) : Q := let '(_, _, _, _, h) := t in h.

(** The body of the first loop: [None] is the [ValueError] of [min] on
    an empty box, [Some None] the [continue]. *)
Definition token_of (d : detection) : option (option text_token) :=
  let '(bbox, text, conf) := d in
  let t := strip text in
  match t with
  | [] => Some None
  | _ =>
      if Qltb conf 0.2 then Some None
      else
        match map fst bbox, map snd bbox with
        | x :: xs, y :: ys =>
            let x0 := Qlist_min x xs in
            let y0 := Qlist_min y ys in
            let x1 := Qlist_max x xs in
            let y1 := Qlist_max y ys in
            let cy := ((y0 + y1) * 0.5)%Q in
            let h := Qmax2 1.0 (y1 - y0) in
            Some (Some (cy, x0, t, conf, h))
        | _, _ => None
        end
  end.

Fixpoint collect_tokens (results : list detection) : option (list text_token) :=
  match results with
  | [] => Some []
  | d :: results' =>
      match token_of d with
      | None => None
      | Some None => collect_tokens results'
      | Some (Some tok) => cons tok <$> collect_tokens results'
      end
  end.

(** The body of the loop that groups the sorted tokens into rows. *)
Definition add_to_rows (row_tol : Q) (rows : list (list text_token)) (tok : text_token)
    : list (list text_token) :=
  match rev rows with
  | [] => [[tok]]
  | last_row :: before =>
      match last last_row with
      | Some last_tok =>
          if Qleb (Qabs (tok_cy tok - tok_cy last_tok)) row_tol
          then rev before ++ [last_row ++ [tok]]
          else rows ++ [[tok]]
      | None => rows ++ [[tok]]
      end
  end.

(** The key [(sum(len(t[2]) ...), sum(t[3] ...))] of a row, compared as
    Python compares tuples. *)
Definition row_key (row : list text_token) : nat * Q :=
  (list_sum (map (fun t => length (tok_text t)) row), Qsum (map tok_conf row)).

Definition row_key_ltb (k1 k2 : nat * Q) : bool :=
  (fst k1 <? fst k2) || ((fst k1 =? fst k2) && Qltb (snd k1) (snd k2)).

Definition combine_tokens (results : list detection) : option str :=
  match collect_tokens results with
  | None => None
  | Some [] => Some []
  | Some (tok0 :: toks0) =>
      let tokens := sorted_asc tok_cy (tok0 :: toks0) in
      let row_tol := Qmax2 16.0 (median (map tok_h tokens) * 0.85) in
      let rows := fold_left (add_to_rows row_tol) tokens [] in
      let best_row := default [] (py_max_by row_key_ltb row_key rows) in
      let best_row := sorted_asc tok_x0 best_row in
      Some (concat (map tok_text best_row))
  end.

(** ** Scoring: [candidate_confidence] in float arithmetic *)

Section FloatConfidence.
(** [fl] is the rounding of a real number to a double: the result of one
    float operation, and of [float(x)], is [fl] of the exact value. *)
Variable fl : Q -> Q.

(** [candidate_confidence] with the rounding of every float operation
    written out; with the identity for [fl] it is
    [candidate_confidence]. *)
Definition candidate_confidence_fl (results : list detection) : Q :=
  let '(weighted, total_w) :=
    fold_left
      (fun '(weighted, total_w) '(_, text, conf) =>
         let t := strip text in
         match t with
         | [] => (weighted, total_w)
         | _ =>
             let w := fl (Qnat (Nat.max 1 (length t))) in
             (fl (weighted + fl (fl conf * w)), fl (total_w + w))
         end)
      results (0%Q, 0%Q) in
  if Qleb total_w 0 then 0%Q else fl (weighted / total_w).
End FloatConfidence.

(** * Vocabulary of the statements *)

(** The distance between the first [i] characters of [a] and the first
    [j] of [b]: the entry [j] of row [i] of the table. *)
Definition lev_prefix (a b : str) (i j : nat) : nat := lev (take i a) (take j b).

(** A candidate that is one detection of [text] with confidence 0.8. *)
Definition reading (bbox : list point) (text : str) : candidate :=
  ([(bbox, text, 0.8%Q)], text).

(** The canonical example token. *)
Definition token : str := lit "T3*1-B?+AcJ3@_9L".

(** The character-class mix of the token, as a predicate on a string:
    mixed-case letters, at least 3 of them, at least 2 digits, at least
    2 symbols, with ['@'], ['_'] and ['?'] among them and the ['@']
    before the last ['_']. *)
Definition same_class_mix (u : str) : bool :=
  (1 <=? count_if is_upper_AZ u) && (1 <=? count_if is_lower_az u)
  && (3 <=? count_if is_upper_AZ u + count_if is_lower_az u)
  && (2 <=? count_if isdigit u)
  && (2 <=? count_if (fun ch => negb (isalnum ch)) u)
  && contains_char "@" u && contains_char "_" u && contains_char "?" u
  && at_before_underscore u.

(** [m] is the one point of [pts] at which the key [f] is extremal for
    the strict comparison [better]. *)
Definition strict_extreme (better : Q -> Q -> bool) (f : point -> Q)
    (m : point) (pts : list point) : Prop :=
  In m pts /\ forall x, In x pts -> x = m \/ better (f m) (f x) = true.

(** Each of the four extremes the rule looks for is reached at one point
    of the float32 array, for the sums and differences as they are
    computed in float32. *)
Definition unique_extremes (f32 : Q -> Q) (pts : list point) : Prop :=
  (exists tl, strict_extreme Qltb (sum32 f32) tl (map (to_float32 f32) pts))
  /\ (exists br,
        strict_extreme (fun x y => Qltb y x) (sum32 f32) br (map (to_float32 f32) pts))
  /\ (exists tr, strict_extreme Qltb (diff32 f32) tr (map (to_float32 f32) pts))
  /\ (exists bl,
        strict_extreme (fun x y => Qltb y x) (diff32 f32) bl (map (to_float32 f32) pts)).

(** The scan keeps a pair (window, score) and replaces it when a later
    window beats it by more than [1e-6]. *)
Definition keep_better (st w : str * Q) : str * Q :=
  if Qltb (snd st + 1e-6)%Q (snd w) then w else st.

Definition window_at (text : str) (p : nat * nat) : str * Q :=
  let sub := take (fst p) (drop (snd p) text) in (sub, window_score sub (fst p)).

(** The pairs (length, start) in the order the two loops visit them. *)
Definition window_pairs (n : nat) : list (nat * nat) :=
  let min_len := if 12 <=? n then 12 else n in
  let max_len := Nat.min 18 n in
  flat_map (fun win_len => map (pair win_len) (seq 0 (n - win_len + 1)))
    (seq min_len (max_len + 1 - min_len)).

(** The scan of an already sanitized, non-empty text. *)
Definition scan_windows (text : str) : str * Q :=
  fold_left keep_better (map (window_at text) (window_pairs (length text)))
    (text, window_score text (length text)).

(** [f"{x:.4f}"] for a rational: rounded half-to-even to four decimals. *)
Definition round_half_even (x : Q) : Z :=
  let f := Qfloor x in
  let r := (x - inject_Z f)%Q in
  if Qltb r 0.5 then f
  else if Qltb 0.5 r then (f + 1)%Z
  else if Z.even f then f else (f + 1)%Z.

(** The exponent of a rational [x <> 0]: the [e] with
    [2^e <= |x| < 2^(e+1)]. *)
Definition Qlog2 (x : Q) : Z :=
  let e := (Z.log2 (Z.abs (Qnum x)) - Z.log2 (Zpos (Qden x)))%Z in
  if Qltb (Qabs x) (Qpower 2 e) then (e - 1)%Z else e.

(** The exponent of the float nearest to [x]: that of [x], and the
    least exponent [emin] for the subnormal numbers. *)
Definition float_exp (emin : Z) (x : Q) : Z := Z.max emin (Qlog2 x).

(** The unit in the last place of the float nearest to [x]. *)
Definition float_ulp (prec emin : Z) (x : Q) : Q :=
  Qpower 2 (float_exp emin x - (prec - 1)).

(** Rounding to the nearest binary float of precision [prec] and least
    exponent [emin], ties to even, subnormal numbers included; the
    value is given in lowest terms. Overflow is not modelled: the
    numbers rounded here are far below the largest float. *)
Definition round_binary (prec emin : Z) (x : Q) : Q :=
  if Qeq_bool x 0 then 0%Q
  else
    let ulp := float_ulp prec emin x in
    Qred (inject_Z (round_half_even (x / ulp)) * ulp).

(** The rounding to [np.float32] and to a double. *)
Definition round_f32 : Q -> Q := round_binary 24 (-126).
Definition round_f64 : Q -> Q := round_binary 53 (-1022).

Definition digit (d : Z) : ascii := ascii_of_nat (48 + Z.to_nat d).

Fixpoint digits (fuel : nat) (n : Z) (acc : str) : str :=
  match fuel with
  | 0 => acc
  | S fuel' =>
      let acc := digit (n mod 10) :: acc in
      if (n / 10 =? 0)%Z then acc else digits fuel' (n / 10) acc
  end.

Definition format_4f (x : Q) : str :=
  let n := round_half_even (x * 10000) in
  let a := Z.abs n in
  (if (n <? 0)%Z then ["-"%char] else [])
  ++ digits (S (Z.to_nat (Z.log2 (a / 10000)))) (a / 10000) []
  ++ ["."%char; digit (a / 1000 mod 10); digit (a / 100 mod 10);
      digit (a / 10 mod 10); digit (a mod 10)].

(** ** Vocabulary for the rest of the pipeline *)

(** The height [y1 - y0] of an ROI. *)
Definition roi_height (r : roi) : Z := let '(_, y0, _, y1) := r in (y1 - y0)%Z.

(** A box that passes the size test of the loop. *)
Definition roi_big_enough (r : roi) : Prop :=
  let '(x0, y0, x1, y1) := r in (8 <= x1 - x0)%Z /\ (8 <= y1 - y0)%Z.

(** Every box is big enough and overlaps every earlier one by less than
    the threshold. *)
Definition spread_out (thr : Q) (K : list roi) : Prop :=
  Forall roi_big_enough K
  /\ forall i j ri rj, i < j -> K !! i = Some ri -> K !! j = Some rj ->
       (roi_iou rj ri < thr)%Q.

(** A point inside the image of width [img_w] and height [img_h], as
    [np.clip] leaves it. *)
Definition in_image (img_w img_h : Z) (p : point) : Prop :=
  (0 <= fst p)%Q /\ (fst p <= inject_Z (Z.max 0 (img_w - 1)))%Q
  /\ (0 <= snd p)%Q /\ (snd p <= inject_Z (Z.max 0 (img_h - 1)))%Q.

(** The confidence of a detection. *)
Definition det_conf (d : detection) : Q := snd d.

(** Every table of the cache is the table of the gamma it is filed under. *)
Definition tables_sound (float_pow : Q -> Q -> Q) (cache : gmap Qc (list Z)) : Prop :=
  forall mean_lum gamma t,
    choose_gamma mean_lum = Some gamma -> cache !! Q2Qc gamma = Some t ->
    t = gamma_lut float_pow gamma.

(** A detection the first loop skips: blank text, or a confidence
    below 0.2. *)
Definition skipped (d : detection) : Prop :=
  let '(_, text, conf) := d in strip text = [] \/ (conf < 0.2)%Q.

(** A detection with at least one point in its box. *)
Definition boxed (d : detection) : Prop := fst (fst d) <> [].

(** Rows that are not empty and hold tokens with a text. *)
Definition rows_full (rows : list (list text_token)) : Prop :=
  Forall (fun row => row <> [] /\ Forall (fun tok => tok_text tok <> []) row) rows.

(** A table of the size [(m + 1) x (n + 1)]. *)
Definition table_sized (m n : nat) (t : list (list nat)) : Prop :=
  length t = m + 1 /\ forall i, i <= m -> length (t !!! i) = n + 1.

(** The diagonal cell [d] of the two tables of an alignment of a string
    with itself: distance 0, reached by a match. *)
Definition diag_ok (d : nat) (st : table * table) : Prop :=
  get2 (fst st) d d = 0 /\ (1 <= d -> get2 (snd st) d d = 0).

(** What the two loops that fill the first column and the first row
    keep: the sizes, and the corner cell. *)
Definition init_ok (m n : nat) (st : table * table) : Prop :=
  table_sized m n (fst st) /\ table_sized m n (snd st) /\ diag_ok 0 st.

(** The text a candidate is reduced to by the first loop. *)
Definition cleaned (c : candidate) : str :=
  normalize_ocr_text (best_text_window (snd c)).

(** A text and a confidence that come from the candidates: a normalized,
    non-empty text with the confidence of one of the candidates. *)
Definition from_candidates (candidates : list candidate) (text : str) (conf : Q) : Prop :=
  text <> [] /\ normalize_ocr_text text = text
  /\ exists c, In c candidates /\ conf = candidate_confidence (fst c).

(** An entry that comes from the candidates. *)
Definition entry_ok (candidates : list candidate) (e : entry) : Prop :=
  from_candidates candidates (fst (fst e)) (snd (fst e)).

(** The clusters hold entries only, and at least one each. *)
Definition cluster_ok (candidates : list candidate) (c : cluster) : Prop :=
  variants c <> [] /\ Forall (entry_ok candidates) (variants c).

(** The state of the scoring loop: no text yet, or a text and a
    confidence that come from the candidates. *)
Definition best_ok (candidates : list candidate) (st : str * Q * Q) : Prop :=
  fst (fst st) = [] \/ from_candidates candidates (fst (fst st)) (snd (fst st)).

(** The clusters the second loop builds from the entries [es]. *)
Definition clusters_of (es : list entry) : list cluster :=
  fold_left add_to_clusters es [].

(** A cluster whose seed and best base are those of its first variant. *)
Definition seeded_by_first (c : cluster) : Prop :=
  exists text conf base rest,
    variants c = (text, conf, base) :: rest /\ seed c = text /\ best_base c = base.

(** The clusters while the entries come in descending order of base: no
    entry still to come has a base above the best base of a cluster. *)
Definition cluster_leads (bound : Q -> Prop) (c : cluster) : Prop :=
  seeded_by_first c /\ bound (best_base c).

(** * Properties *)

(** ** Comparisons on [Q] *)

Lemma Qleb_true (x y : Q) : Qleb x y = true <-> (x <= y)%Q.
Proof. apply Qle_bool_iff. Qed.

Lemma Qleb_false (x y : Q) : Qleb x y = false <-> (y < x)%Q.
Proof.
  unfold Qleb. split; intros H.
  - apply Qnot_le_lt. intros Hle. apply Qle_bool_iff in Hle. congruence.
  - destruct (Qle_bool x y) eqn:E; [|done].
    apply Qle_bool_iff in E. exfalso. by apply (Qlt_not_le y x).
Qed.

Lemma Qltb_true (x y : Q) : Qltb x y = true <-> (x < y)%Q.
Proof. unfold Qltb. rewrite negb_true_iff. apply Qleb_false. Qed.

Lemma Qltb_false (x y : Q) : Qltb x y = false <-> (y <= x)%Q.
Proof. unfold Qltb. rewrite negb_false_iff. apply Qleb_true. Qed.

(** ** [bounded_levenshtein] (C1) *)

Lemma lev_nil_l b : lev [] b = length b.
Proof. reflexivity. Qed.

Lemma lev_nil_r a : lev a [] = length a.
Proof. destruct a; reflexivity. Qed.

Lemma lev_cons_cons x y a b :
  lev (x :: a) (y :: b) =
  min3 (lev a (y :: b) + 1) (lev (x :: a) b + 1) (lev a b + subst_cost x y).
Proof. reflexivity. Qed.

#[global] Opaque lev.

Lemma lev_edit a b : edit a b (lev a b).
Proof.
  revert b. induction a as [|x a IHa]; intros b.
  - rewrite lev_nil_l. induction b as [|y b IHb]; simpl; [constructor|].
    by apply edit_ins.
  - induction b as [|y b IHb].
    + rewrite lev_nil_r. specialize (IHa []). rewrite lev_nil_r in IHa.
      simpl. by apply edit_del.
    + rewrite lev_cons_cons. unfold min3.
      destruct (Nat.min_spec (lev a (y :: b) + 1) (lev (x :: a) b + 1)) as [[_ ->]|[_ ->]];
      match goal with |- context [Nat.min ?u ?v] =>
        destruct (Nat.min_spec u v) as [[_ ->]|[_ ->]] end.
      * rewrite Nat.add_1_r. apply edit_del, IHa.
      * apply edit_sub, IHa.
      * rewrite Nat.add_1_r. by apply edit_ins.
      * apply edit_sub, IHa.
Qed.

Lemma lev_del_le x a b : lev (x :: a) b <= S (lev a b).
Proof.
  destruct b as [|y b].
  - rewrite !lev_nil_r. simpl. lia.
  - rewrite lev_cons_cons. unfold min3. lia.
Qed.

Lemma lev_ins_le y a b : lev a (y :: b) <= S (lev a b).
Proof.
  destruct a as [|x a].
  - rewrite !lev_nil_l. simpl. lia.
  - rewrite lev_cons_cons. unfold min3. lia.
Qed.

Lemma lev_least a b n : edit a b n -> lev a b <= n.
Proof.
  induction 1 as [|x a b n _ IH|y a b n _ IH|x y a b n _ IH].
  - rewrite lev_nil_l. simpl. lia.
  - pose proof (lev_del_le x a b). lia.
  - pose proof (lev_ins_le y a b). lia.
  - rewrite lev_cons_cons. unfold min3. lia.
Qed.

Lemma edit_app a1 b1 n1 a2 b2 n2 :
  edit a1 b1 n1 -> edit a2 b2 n2 -> edit (a1 ++ a2) (b1 ++ b2) (n1 + n2).
Proof.
  intros H1 H2. induction H1 as [|x a b n _ IH|y a b n _ IH|x y a b n _ IH]; simpl.
  - done.
  - by apply edit_del.
  - by apply edit_ins.
  - replace (n + subst_cost x y + n2) with (n + n2 + subst_cost x y) by lia.
    by apply edit_sub.
Qed.

Lemma edit_rev a b n : edit a b n -> edit (rev a) (rev b) n.
Proof.
  induction 1 as [|x a b n _ IH|y a b n _ IH|x y a b n _ IH]; simpl.
  - constructor.
  - replace (S n) with (n + 1) by lia.
    rewrite <- (app_nil_r (rev b)).
    apply edit_app; [done|]. apply edit_del, edit_nil.
  - replace (S n) with (n + 1) by lia.
    rewrite <- (app_nil_r (rev a)).
    apply edit_app; [done|]. apply edit_ins, edit_nil.
  - apply edit_app; [done|]. apply (edit_sub x y [] [] 0), edit_nil.
Qed.

Lemma lev_rev a b : lev (rev a) (rev b) = lev a b.
Proof.
  apply Nat.le_antisymm.
  - apply lev_least, edit_rev, lev_edit.
  - rewrite <- (rev_involutive a), <- (rev_involutive b) at 1.
    apply lev_least, edit_rev, lev_edit.
Qed.

Lemma lev_snoc_snoc x y a b :
  lev (a ++ [x]) (b ++ [y]) =
  min3 (lev a (b ++ [y]) + 1) (lev (a ++ [x]) b + 1) (lev a b + subst_cost x y).
Proof.
  rewrite <- (lev_rev (a ++ [x]) (b ++ [y])), <- (lev_rev a (b ++ [y])),
    <- (lev_rev (a ++ [x]) b), <- (lev_rev a b).
  rewrite !rev_app_distr. simpl. apply lev_cons_cons.
Qed.

Lemma edit_length a b n : edit a b n -> abs_diff (length a) (length b) <= n.
Proof.
  unfold abs_diff.
  induction 1; simpl; lia.
Qed.

Lemma lev_abs_diff a b : abs_diff (length a) (length b) <= lev a b.
Proof. apply edit_length, lev_edit. Qed.

Section rows.
Variables a b : str.

Abbreviation D := (lev_prefix a b).

Lemma D_0_j j : j <= length b -> D 0 j = j.
Proof. intros. unfold lev_prefix. rewrite take_0, lev_nil_l, length_take. lia. Qed.

Lemma D_i_0 i : i <= length a -> D i 0 = i.
Proof. intros. unfold lev_prefix. rewrite take_0, lev_nil_r, length_take. lia. Qed.

Lemma take_S_total (l : str) i : i < length l -> take (S i) l = take i l ++ [l !!! i].
Proof.
  intros Hi. destruct (lookup_lt_is_Some_2 l i Hi) as [x Hx].
  rewrite (take_S_r _ _ _ Hx). by rewrite (list_lookup_total_correct _ _ _ Hx).
Qed.

Lemma D_S_S i j :
  i < length a -> j < length b ->
  D (S i) (S j) =
  min3 (D i (S j) + 1) (D (S i) j + 1) (D i j + subst_cost (a !!! i) (b !!! j)).
Proof.
  intros Hi Hj. unfold lev_prefix.
  rewrite (take_S_total a i Hi), (take_S_total b j Hj). apply lev_snoc_snoc.
Qed.

Lemma D_full : D (length a) (length b) = lev a b.
Proof. unfold lev_prefix. by rewrite !firstn_all. Qed.

(** A lower bound of one row is a lower bound of the next. *)
Lemma row_bound_step m i :
  i < length a ->
  (forall t, t <= length b -> m <= D i t) ->
  forall t, t <= length b -> m <= D (S i) t.
Proof.
  intros Hi Hrow t. induction t as [|t IH]; intros Ht.
  - rewrite D_i_0 by lia. specialize (Hrow 0 ltac:(lia)).
    rewrite D_i_0 in Hrow by lia. lia.
  - rewrite D_S_S by lia. unfold min3.
    pose proof (Hrow (S t) Ht). pose proof (Hrow t ltac:(lia)).
    specialize (IH ltac:(lia)). lia.
Qed.

Lemma row_bound_last m i k :
  i + k = length a ->
  (forall t, t <= length b -> m <= D i t) ->
  m <= lev a b.
Proof.
  revert i. induction k as [|k IH]; intros i Hik Hrow.
  - rewrite <- D_full. replace (length a) with i by lia. by apply Hrow.
  - apply (IH (S i)); [lia|]. apply row_bound_step; [lia|done].
Qed.

(** The loop over [j] fills row [S i] and keeps a lower bound of it. *)
Lemma lev_inner_spec i prev k :
  i < length a -> k <= length b ->
  length prev = length b + 1 ->
  (forall t, t <= length b -> prev !!! t = D i t) ->
  forall cur0, length cur0 = length b + 1 ->
  exists cur rm,
    fold_left (lev_inner (a !!! i) b prev) (seq 1 k) (<[0 := S i]> cur0, S i) = (cur, rm)
    /\ length cur = length b + 1
    /\ (forall t, t <= k -> cur !!! t = D (S i) t)
    /\ (forall t, t <= k -> rm <= D (S i) t).
Proof.
  intros Hi Hk Hlen Hprev cur0 Hlen0. induction k as [|k IH].
  - simpl. eexists _, _. split; [reflexivity|].
    split; [by rewrite length_insert|].
    split; intros t Ht; replace t with 0 by lia; rewrite D_i_0 by lia.
    + apply list_lookup_total_insert_eq. lia.
    + lia.
  - destruct (IH ltac:(lia)) as (cur & rm & Hfold & Hlc & Hcur & Hrm).
    rewrite seq_S, fold_left_app, Hfold. simpl.
    replace (k - 0) with k by lia.
    set (v := min3 _ _ _).
    assert (Hv : v = D (S i) (S k)).
    { subst v. rewrite D_S_S by lia.
      rewrite (Hprev (S k)) by lia. rewrite (Hprev k) by lia.
      rewrite (Hcur k) by lia. done. }
    eexists _, _. split; [reflexivity|].
    split; [by rewrite length_insert|].
    split; intros t Ht.
    + destruct (decide (t = S k)) as [->|Hne].
      * rewrite list_lookup_total_insert_eq by lia. done.
      * rewrite list_lookup_total_insert_ne by done. apply Hcur. lia.
    + destruct (decide (t = S k)) as [->|Hne].
      * rewrite <- Hv. destruct (Nat.ltb_spec v rm); lia.
      * specialize (Hrm t ltac:(lia)). destruct (Nat.ltb_spec v rm); lia.
Qed.

Lemma lev_rows_spec d k : forall i prev cur,
  i + k = length a ->
  length prev = length b + 1 -> length cur = length b + 1 ->
  (forall t, t <= length b -> prev !!! t = D i t) ->
  let r := lev_rows a b d (seq (S i) k) prev cur in
  r = lev a b \/ (r = d + 1 /\ d < lev a b).
Proof.
  induction k as [|k IH]; intros i prev cur Hik Hlp Hlc Hprev; simpl.
  - left. rewrite Hprev by lia. rewrite <- D_full. f_equal. lia.
  - replace (i - 0) with i by lia.
    destruct (lev_inner_spec i prev (length b) ltac:(lia) ltac:(lia) Hlp Hprev cur Hlc)
      as (cur' & rm & Hfold & Hlc' & Hcur & Hrm).
    rewrite list_lookup_total_insert_eq by lia.
    rewrite Hfold.
    destruct (Nat.ltb_spec d rm) as [Hex|Hex].
    + right. split; [done|].
      assert (S d <= lev a b); [|lia].
      apply (row_bound_last (S d) (S i) k); [lia|].
      intros t Ht. specialize (Hrm t Ht). lia.
    + apply (IH (S i)); [lia|done..].
Qed.
End rows.

(** C1 (as amended). For all strings [a], [b] and every bound
    [max_dist]: when the Levenshtein distance of [a] and [b] is at most
    [max_dist], [bounded_levenshtein] returns it; when it exceeds
    [max_dist], the result is strictly greater than [max_dist], and is
    either the sentinel [max_dist + 1] or the distance itself; and when
    the lengths differ by more than [max_dist] the result is the
    sentinel [max_dist + 1]. *)
Theorem bounded_levenshtein_spec (a b : str) (max_dist : nat) :
  (lev a b <= max_dist -> bounded_levenshtein a b max_dist = lev a b)
  /\ (max_dist < lev a b ->
      max_dist < bounded_levenshtein a b max_dist
      /\ (bounded_levenshtein a b max_dist = max_dist + 1
          \/ bounded_levenshtein a b max_dist = lev a b))
  /\ (max_dist < abs_diff (length a) (length b) ->
      bounded_levenshtein a b max_dist = max_dist + 1).
Proof.
  pose proof (lev_abs_diff a b) as Hab.
  unfold bounded_levenshtein.
  destruct (Nat.ltb_spec max_dist (abs_diff (length a) (length b))) as [Hsc|Hsc].
  - repeat split; intros; lia.
  - pose proof (lev_rows_spec a b max_dist (length a) 0
                  (seq 0 (length b + 1)) (replicate (length b + 1) 0)) as H.
    simpl in H. specialize (H eq_refl).
    rewrite length_seq, length_replicate in H.
    specialize (H eq_refl eq_refl).
    assert (Hrow0 : forall t, t <= length b -> seq 0 (length b + 1) !!! t = lev_prefix a b 0 t).
    { intros t Ht. rewrite D_0_j by done.
      apply list_lookup_total_correct. rewrite lookup_seq. split; lia. }
    specialize (H Hrow0).
    repeat split; intros; lia.
Qed.

(** The three parts on ["kitten"] and ["sitting"] (distance 3) and on two
    strings whose lengths differ by 3. *)
Lemma bounded_levenshtein_spec_witness :
  bounded_levenshtein (lit "kitten") (lit "sitting") 3
  = lev (lit "kitten") (lit "sitting")
  /\ 2 < bounded_levenshtein (lit "kitten") (lit "sitting") 2
  /\ bounded_levenshtein (lit "a") (lit "abcd") 2 = 2 + 1.
Proof.
  split; [|split].
  - apply (proj1 (bounded_levenshtein_spec (lit "kitten") (lit "sitting") 3)).
    vm_compute. lia.
  - apply (proj1 (proj2 (bounded_levenshtein_spec (lit "kitten") (lit "sitting") 2))).
    vm_compute. lia.
  - apply (proj2 (proj2 (bounded_levenshtein_spec (lit "a") (lit "abcd") 2))).
    vm_compute. lia.
Defined.

(** The specification names the value returned beyond the bound as
    the sentinel [max_dist + 1]. On ["xxab"] and ["abyy"] with bound 2
    no row minimum exceeds 2, the loop runs to its end and the distance
    4 is returned. *)
Lemma bounded_levenshtein_beyond_sentinel :
  2 < lev (lit "xxab") (lit "abyy")
  /\ bounded_levenshtein (lit "xxab") (lit "abyy") 2 = 4
  /\ bounded_levenshtein (lit "xxab") (lit "abyy") 2 <> 2 + 1.
Proof.
  split; [vm_compute; lia|].
  split; [vm_compute; reflexivity|].
  vm_compute. discriminate.
Qed.

(** ** [is_good_candidate] (C4) *)

Lemma has_strong_result_true (results : list detection) :
  has_strong_result results = true <->
  exists bbox text conf,
    In (bbox, text, conf) results /\ (0.50 <= conf)%Q /\ 2 <= length (strip text).
Proof.
  unfold has_strong_result. rewrite existsb_exists. split.
  - intros ([[bbox text] conf] & Hin & H).
    apply andb_true_iff in H as [Hc Hl].
    exists bbox, text, conf. split; [done|].
    split; [by apply Qleb_true | by apply Nat.leb_le].
  - intros (bbox & text & conf & Hin & Hc & Hl).
    exists (bbox, text, conf). split; [done|].
    apply andb_true_iff. split; [by apply Qleb_true | by apply Nat.leb_le].
Qed.

(** C4. [is_good_candidate results combined] holds exactly when
    [combined] is not empty, has at least 14 characters, and either the
    length-weighted mean confidence is at least 0.65 or one detection
    has confidence at least 0.50 and a stripped text of at least 2
    characters. In particular it holds for a weighted confidence of 0.70
    and length 16, fails for 0.70 and length 10, and fails for 0.40 and
    length 16 when no detection has confidence at least 0.50. *)
Theorem is_good_candidate_spec (results : list detection) (combined : str) :
  (is_good_candidate results combined = true <->
   combined <> [] /\ 14 <= length combined
   /\ ((0.65 <= candidate_confidence results)%Q
       \/ exists bbox text conf,
            In (bbox, text, conf) results /\ (0.50 <= conf)%Q
            /\ 2 <= length (strip text)))
  /\ ((candidate_confidence results == 0.70)%Q -> length combined = 16 ->
      is_good_candidate results combined = true)
  /\ ((candidate_confidence results == 0.70)%Q -> length combined = 10 ->
      is_good_candidate results combined = false)
  /\ ((candidate_confidence results == 0.40)%Q -> length combined = 16 ->
      (forall bbox text conf, In (bbox, text, conf) results -> (conf < 0.50)%Q) ->
      is_good_candidate results combined = false).
Proof.
  assert (Hiff : is_good_candidate results combined = true <->
    combined <> [] /\ 14 <= length combined
    /\ ((0.65 <= candidate_confidence results)%Q
        \/ exists bbox text conf,
             In (bbox, text, conf) results /\ (0.50 <= conf)%Q
             /\ 2 <= length (strip text))).
  { rewrite <- has_strong_result_true, <- Qleb_true, <- Nat.leb_le.
    unfold is_good_candidate.
    destruct combined as [|c s]; [intuition congruence|].
    destruct (Qleb 0.65 (candidate_confidence results)),
      (has_strong_result results), (14 <=? length (c :: s)); simpl;
      intuition congruence. }
  split; [exact Hiff|].
  split; [|split].
  - intros Hc Hl. apply Hiff. split; [by destruct combined|].
    split; [lia|]. left. rewrite Hc. lra.
  - intros _ Hl. apply not_true_is_false. intros E.
    apply Hiff in E. lia.
  - intros Hc Hl Hweak. apply not_true_is_false. intros E.
    apply Hiff in E as (_ & _ & [Hconf|(bbox & text & conf & Hin & Hge & _)]).
    + rewrite Hc in Hconf. lra.
    + specialize (Hweak _ _ _ Hin). lra.
Qed.

(** The three sample points of C4 on concrete detections. *)
Lemma is_good_candidate_samples :
  is_good_candidate [([], lit "T3*1-B?+AcJ3@_9L", 0.70%Q)] (lit "T3*1-B?+AcJ3@_9L") = true
  /\ is_good_candidate [([], lit "T3*1-B?+Ac", 0.70%Q)] (lit "T3*1-B?+Ac") = false
  /\ is_good_candidate [([], lit "T3*1-B?+AcJ3@_9L", 0.40%Q)] (lit "T3*1-B?+AcJ3@_9L") = false.
Proof.
  split; [|split].
  - apply (proj1 (proj2 (is_good_candidate_spec
             [([], lit "T3*1-B?+AcJ3@_9L", 0.70%Q)] (lit "T3*1-B?+AcJ3@_9L"))));
      reflexivity.
  - apply (proj1 (proj2 (proj2 (is_good_candidate_spec
             [([], lit "T3*1-B?+Ac", 0.70%Q)] (lit "T3*1-B?+Ac")))));
      reflexivity.
  - apply (proj2 (proj2 (proj2 (is_good_candidate_spec
             [([], lit "T3*1-B?+AcJ3@_9L", 0.40%Q)] (lit "T3*1-B?+AcJ3@_9L")))));
      [reflexivity | reflexivity |].
    intros bbox text conf [Heq|[]]. inversion Heq; subst. reflexivity.
Defined.

(** ** [select_consensus_candidate] on the three readings (C2) *)


(** The three readings fall into one cluster, and it is the vote by
    position that restores the two characters the third one got wrong. *)
Lemma position_vote_three_readings :
  position_vote
    [(lit "T3*1-B?+AcJ3@_9L", 12.8%Q); (lit "T3*1-B?+AcJ3@_9L", 12.8%Q);
     (lit "T31-B7+AcJ3@_9L", 12%Q)]
  = lit "T3*1-B?+AcJ3@_9L".
Proof. vm_compute. reflexivity. Qed.

(** ** [sanitize_text] and [normalize_ocr_text] (C6) *)

Lemma sanitize_text_filter (s : str) : sanitize_text s = List.filter allowed s.
Proof. by destruct s. Qed.

Lemma sanitize_text_allowed (s : str) : forallb allowed (sanitize_text s) = true.
Proof.
  rewrite sanitize_text_filter. apply forallb_forall.
  intros c Hc. by apply filter_In in Hc as [_ Hc].
Qed.

Lemma sanitize_text_fixed (s : str) : forallb allowed s = true -> sanitize_text s = s.
Proof.
  rewrite sanitize_text_filter. induction s as [|c s IH]; simpl; [done|].
  intros [Hc Hs]%andb_true_iff. rewrite Hc. f_equal. by apply IH.
Qed.

Lemma sanitize_text_idempotent (s : str) : sanitize_text (sanitize_text s) = sanitize_text s.
Proof. apply sanitize_text_fixed, sanitize_text_allowed. Qed.

(** Induction that follows the two-character look-ahead of the replacement. *)
Lemma str_pair_ind (P : str -> Prop) :
  P [] -> (forall c, P [c]) ->
  (forall c1 c2 s, P s -> P (c2 :: s) -> P (c1 :: c2 :: s)) ->
  forall s, P s.
Proof.
  intros Hnil Hone Hstep s.
  assert (H : P s /\ forall c, P (c :: s)); [|apply H].
  induction s as [|c s [IH1 IH2]]; [by split|].
  split; [apply IH2|]. intros c'. apply Hstep; [done|apply IH2].
Qed.

Lemma replace_double_underscore_cons2 (c1 c2 : ascii) (s : str) :
  replace_double_underscore (c1 :: c2 :: s) =
  if Ascii.eqb c1 "_" && Ascii.eqb c2 "_"
  then "_"%char :: replace_double_underscore s
  else c1 :: replace_double_underscore (c2 :: s).
Proof. reflexivity. Qed.

Lemma has_double_underscore_cons2 (c1 c2 : ascii) (s : str) :
  has_double_underscore (c1 :: c2 :: s) =
  (Ascii.eqb c1 "_" && Ascii.eqb c2 "_") || has_double_underscore (c2 :: s).
Proof. reflexivity. Qed.

Lemma replace_double_underscore_allowed (s : str) :
  forallb allowed s = true -> forallb allowed (replace_double_underscore s) = true.
Proof.
  induction s as [|c|c1 c2 s IH1 IH2] using str_pair_ind; [done..|].
  intros H. rewrite replace_double_underscore_cons2.
  cbn [forallb] in H. apply andb_true_iff in H as [H1 H2].
  pose proof H2 as [H3 H4]%andb_true_iff.
  destruct (Ascii.eqb c1 "_" && Ascii.eqb c2 "_"); cbn [forallb].
  - rewrite (IH1 H4). reflexivity.
  - rewrite H1. apply IH2. cbn [forallb]. by rewrite H3, H4.
Qed.

Lemma replace_double_underscore_length (s : str) :
  length (replace_double_underscore s) <= length s
  /\ (has_double_underscore s = true ->
      length (replace_double_underscore s) < length s).
Proof.
  induction s as [|c|c1 c2 s IH1 IH2] using str_pair_ind;
    [simpl; split; [lia|done]..|].
  rewrite replace_double_underscore_cons2, has_double_underscore_cons2.
  destruct IH1 as [IH1 _], IH2 as [IH2 IH2'].
  destruct (Ascii.eqb c1 "_" && Ascii.eqb c2 "_"); cbn [length orb] in *; split;
    try lia.
  intros H. specialize (IH2' H). lia.
Qed.

Lemma collapse_underscores_allowed (fuel : nat) (s : str) :
  forallb allowed s = true -> forallb allowed (collapse_underscores fuel s) = true.
Proof.
  revert s. induction fuel as [|fuel IH]; intros s Hs; simpl; [done|].
  destruct (has_double_underscore s); [|done].
  by apply IH, replace_double_underscore_allowed.
Qed.

(** The loop is left: with [length text] turns the text that comes out
    holds no ["__"]. *)
Lemma collapse_underscores_done (fuel : nat) (s : str) :
  length s <= fuel -> has_double_underscore (collapse_underscores fuel s) = false.
Proof.
  revert s. induction fuel as [|fuel IH]; intros s Hs; simpl.
  - destruct s; [done|simpl in Hs; lia].
  - destruct (has_double_underscore s) eqn:E; [|done].
    apply IH. pose proof (proj2 (replace_double_underscore_length s) E). lia.
Qed.

Lemma collapse_underscores_fixed (fuel : nat) (s : str) :
  has_double_underscore s = false -> collapse_underscores fuel s = s.
Proof. intros H. destruct fuel; simpl; [done|]. by rewrite H. Qed.

Lemma normalize_ocr_text_allowed (s : str) : forallb allowed (normalize_ocr_text s) = true.
Proof.
  unfold normalize_ocr_text. pose proof (sanitize_text_allowed s) as H.
  destruct (sanitize_text s); [done|]. by apply collapse_underscores_allowed.
Qed.

Lemma normalize_ocr_text_no_double (s : str) :
  has_double_underscore (normalize_ocr_text s) = false.
Proof.
  unfold normalize_ocr_text. destruct (sanitize_text s) eqn:E; [done|].
  by apply collapse_underscores_done.
Qed.

(** C6. [normalize_ocr_text] is idempotent: for every string [s],
    [normalize_ocr_text (normalize_ocr_text s) = normalize_ocr_text s]. *)
Theorem normalize_ocr_text_idempotent (s : str) :
  normalize_ocr_text (normalize_ocr_text s) = normalize_ocr_text s.
Proof.
  pose proof (normalize_ocr_text_allowed s) as Hall.
  pose proof (normalize_ocr_text_no_double s) as Hdu.
  set (t := normalize_ocr_text s) in *.
  unfold normalize_ocr_text at 1.
  rewrite (sanitize_text_fixed t Hall).
  destruct t eqn:E; [done|]. rewrite <- E in *.
  by apply collapse_underscores_fixed.
Qed.

(** ** [pattern_score] (C7) *)

Lemma pattern_score_token : (pattern_score token == 11.2)%Q.
Proof. vm_compute. reflexivity. Qed.

Lemma count_if_none (p : ascii -> bool) (s : str) :
  (forall c, In c s -> p c = false) -> count_if p s = 0.
Proof.
  unfold count_if. induction s as [|c s IH]; simpl; [done|]. intros H.
  rewrite (H c) by auto. apply IH. auto.
Qed.

Lemma contains_char_false (c : ascii) (s : str) :
  (forall x, In x s -> Ascii.eqb c x = false) -> contains_char c s = false.
Proof.
  unfold contains_char. induction s as [|x s IH]; simpl; [done|]. intros H.
  rewrite (H x) by auto. apply IH. auto.
Qed.

Lemma isalpha_classes (c : ascii) :
  isalpha c = true ->
  isdigit c = false /\ negb (isalnum c) = false
  /\ Ascii.eqb "@" c = false /\ Ascii.eqb "_" c = false /\ Ascii.eqb "?" c = false.
Proof.
  destruct c as [[] [] [] [] [] [] [] []]; vm_compute; intros H;
    first [discriminate H | repeat split].
Qed.

(** A string of letters scores at most 1.6 + 2.8 when its length is 16. *)
Lemma pattern_score_letters (t : str) :
  length t = 16 -> forallb isalpha t = true -> (pattern_score t <= 4.4)%Q.
Proof.
  intros Hlen Hal.
  assert (Hc : forall c, In c t -> isalpha c = true) by (by apply forallb_forall).
  unfold pattern_score. destruct t as [|c0 t0]; [done|]. cbv beta iota zeta.
  set (t := c0 :: t0) in *. rewrite Hlen.
  rewrite (count_if_none isdigit t) by (intros c Hin; apply isalpha_classes; auto).
  rewrite (count_if_none (fun ch => negb (isalnum ch)) t)
    by (intros c Hin; apply isalpha_classes; auto).
  rewrite !contains_char_false by (intros c Hin; apply isalpha_classes; auto).
  cbn [Nat.leb Nat.ltb andb].
  repeat match goal with |- context [if ?b then _ else _] => destruct b end;
    vm_compute; discriminate.
Qed.

(** An 8-character string earns no length bonus: it scores at most the
    sum of the seven class bonuses. *)
Lemma pattern_score_length8 (u : str) : length u = 8 -> (pattern_score u <= 8.4)%Q.
Proof.
  intros Hlen. unfold pattern_score.
  destruct u as [|c0 u0]; [done|]. cbv beta iota zeta.
  set (u := c0 :: u0) in *. rewrite Hlen.
  cbn [Nat.leb Nat.ltb andb].
  repeat match goal with |- context [if ?b then _ else _] => destruct b end;
    vm_compute; discriminate.
Qed.

(** C7. The score of ["T3*1-B?+AcJ3@_9L"] is strictly greater than the
    score of every 16-character string of letters, and strictly greater
    than the score of every 8-character string with the token's
    character-class mix. *)
Theorem pattern_score_token_dominates (t u : str) :
  length t = 16 -> forallb isalpha t = true ->
  length u = 8 -> same_class_mix u = true ->
  (pattern_score t < pattern_score token)%Q
  /\ (pattern_score u < pattern_score token)%Q.
Proof.
  intros Ht Hal Hu _.
  pose proof (pattern_score_letters t Ht Hal).
  pose proof (pattern_score_length8 u Hu).
  rewrite pattern_score_token. split; lra.
Qed.

Lemma pattern_score_token_dominates_witness :
  (pattern_score (lit "abcdefghijklmnop") < pattern_score token)%Q
  /\ (pattern_score (lit "aB3c4@_?") < pattern_score token)%Q.
Proof.
  apply (pattern_score_token_dominates (lit "abcdefghijklmnop") (lit "aB3c4@_?"));
    reflexivity.
Defined.

(** ** [order_quad_points] (C8) *)

Lemma strict_extreme_perm better f m pts pts' :
  Permutation pts pts' -> strict_extreme better f m pts ->
  strict_extreme better f m pts'.
Proof.
  intros Hp [Hin Hall]. split.
  - by apply (Permutation_in _ Hp).
  - intros x Hx. apply Hall. apply (Permutation_in _ (Permutation_sym Hp) Hx).
Qed.

Section arg_scan.
Variable better : Q -> Q -> bool.
Hypothesis better_asym : forall u v, better u v = true -> better v u = false.
Variable f : point -> Q.

Lemma arg_scan_extreme (m : point) (rest : list point) :
  forall (pre : list point) (bi : nat) (b : point),
    nth bi (pre ++ rest) origin = b ->
    (b = m \/ In m rest) ->
    (b = m \/ better (f m) (f b) = true) ->
    (forall x, In x rest -> x = m \/ better (f m) (f x) = true) ->
    nth (arg_scan better bi (f b) (length pre) (map f rest)) (pre ++ rest) origin = m.
Proof.
  induction rest as [|x rest IH]; intros pre bi b Hb Hm Hbm Hall; simpl.
  - destruct Hm as [->|[]]. done.
  - replace (pre ++ x :: rest) with ((pre ++ [x]) ++ rest) in *
      by (by rewrite <- app_assoc).
    replace (S (length pre)) with (length (pre ++ [x]))
      by (rewrite length_app; simpl; lia).
    assert (Hx : nth (length pre) ((pre ++ [x]) ++ rest) origin = x).
    { rewrite <- app_assoc. simpl. apply nth_middle. }
    destruct (better (f x) (f b)) eqn:E.
    + apply IH.
      * done.
      * destruct Hm as [->|[->|Hin]]; [|by left|by right].
        destruct (Hall x (or_introl eq_refl)) as [->|Hlt]; [by left|].
        apply better_asym in Hlt. congruence.
      * apply Hall. by left.
      * intros y Hy. apply Hall. by right.
    + apply IH.
      * done.
      * destruct Hm as [->|[->|Hin]]; [by left| |by right].
        destruct Hbm as [->|Hlt]; [by left|congruence].
      * done.
      * intros y Hy. apply Hall. by right.
Qed.

Lemma arg_scan_pick (m : point) (p : point) (pts : list point) :
  strict_extreme better f m (p :: pts) ->
  nth (arg_scan better 0 (f p) 1 (map f pts)) (p :: pts) origin = m.
Proof.
  intros [Hin Hall].
  apply (arg_scan_extreme m pts [p] 0 p).
  - done.
  - destruct Hin as [->|Hin]; [by left|by right].
  - apply Hall. by left.
  - intros x Hx. apply Hall. by right.
Qed.
End arg_scan.

Lemma Qltb_asym (u v : Q) : Qltb u v = true -> Qltb v u = false.
Proof. rewrite Qltb_true, Qltb_false. apply Qlt_le_weak. Qed.

Lemma argmin_pick (f : point -> Q) (m : point) (pts : list point) :
  strict_extreme Qltb f m pts -> nth (argmin (map f pts)) pts origin = m.
Proof.
  destruct pts as [|p pts]; [by intros [[] _]|].
  apply (arg_scan_pick Qltb Qltb_asym).
Qed.

Lemma argmax_pick (f : point -> Q) (m : point) (pts : list point) :
  strict_extreme (fun x y => Qltb y x) f m pts -> nth (argmax (map f pts)) pts origin = m.
Proof.
  destruct pts as [|p pts]; [by intros [[] _]|].
  apply (arg_scan_pick (fun x y => Qltb y x) (fun u v => Qltb_asym v u)).
Qed.

Lemma order_quad_points_extremes (f32 : Q -> Q) (pts : list point)
    (tl br tr bl : point) :
  length pts = 4 ->
  strict_extreme Qltb (sum32 f32) tl (map (to_float32 f32) pts) ->
  strict_extreme (fun x y => Qltb y x) (sum32 f32) br (map (to_float32 f32) pts) ->
  strict_extreme Qltb (diff32 f32) tr (map (to_float32 f32) pts) ->
  strict_extreme (fun x y => Qltb y x) (diff32 f32) bl (map (to_float32 f32) pts) ->
  order_quad_points f32 pts = Some [tl; tr; br; bl].
Proof.
  intros Hlen Htl Hbr Htr Hbl. unfold order_quad_points. rewrite Hlen.
  change (4 =? 4) with true. cbv beta iota zeta.
  by rewrite (argmin_pick (sum32 f32) tl), (argmax_pick (sum32 f32) br),
    (argmin_pick (diff32 f32) tr), (argmax_pick (diff32 f32) bl).
Qed.

(** C8 (as amended). Whatever the rounding to float32 is: for every
    list [pts] of 4 points in which the least and the greatest sum
    [x + y] and the least and the greatest difference [y - x], as the
    code computes them in float32, are each reached at one point of the
    float32 array only, and every permutation [pts'] of it,
    [order_quad_points pts'] is [order_quad_points pts]. *)
Theorem order_quad_points_permutation (f32 : Q -> Q) (pts pts' : list point) :
  length pts = 4 -> unique_extremes f32 pts -> Permutation pts pts' ->
  order_quad_points f32 pts' = order_quad_points f32 pts.
Proof.
  intros Hlen ([tl Htl] & [br Hbr] & [tr Htr] & [bl Hbl]) Hp.
  assert (Hp32 : Permutation (map (to_float32 f32) pts) (map (to_float32 f32) pts'))
    by (by apply Permutation_map).
  rewrite (order_quad_points_extremes f32 pts tl br tr bl) by done.
  apply order_quad_points_extremes;
    [by rewrite <- (Permutation_length Hp)
    |by apply (strict_extreme_perm _ _ _ _ _ Hp32)..].
Qed.

(** The theorem for the rounding to float32 itself, on a square. *)
Lemma order_quad_points_permutation_witness :
  order_quad_points round_f32 [(3, 4); (0, 3); (1, 0); (4, 1)]%Q
  = order_quad_points round_f32 [(1, 0); (4, 1); (3, 4); (0, 3)]%Q.
Proof.
  apply (order_quad_points_permutation round_f32
           [(1, 0); (4, 1); (3, 4); (0, 3)]%Q [(3, 4); (0, 3); (1, 0); (4, 1)]%Q).
  - reflexivity.
  - split; [exists (1, 0)%Q | split; [exists (3, 4)%Q | split;
      [exists (4, 1)%Q | exists (0, 3)%Q]]];
      (split; [vm_compute; tauto |
        intros x Hx; vm_compute in Hx;
        destruct Hx as [<-|[<-|[<-|[<-|[]]]]];
        first [by left | right; vm_compute; reflexivity]]).
  - apply (Permutation_app_comm [(1, 0); (4, 1)]%Q [(3, 4); (0, 3)]%Q).
Defined.

(** Without unique extremes the invariance fails: ties. The diamond with corners
    (0,1), (1,0), (2,1), (1,2) has two points of least sum and two of
    least difference; [np.argmin] keeps the first of them, so listing
    (1,0) before (0,1) changes the corner reported as top-left. All
    the numbers are small integers, which float32 holds exactly. *)
Lemma order_quad_points_order_dependent :
  Permutation [(0, 1); (1, 0); (2, 1); (1, 2)]%Q [(1, 0); (0, 1); (2, 1); (1, 2)]%Q
  /\ order_quad_points round_f32 [(0, 1); (1, 0); (2, 1); (1, 2)]%Q
     = Some [(0, 1); (1, 0); (2, 1); (0, 1)]%Q
  /\ order_quad_points round_f32 [(1, 0); (0, 1); (2, 1); (1, 2)]%Q
     = Some [(1, 0); (1, 0); (2, 1); (0, 1)]%Q
  /\ order_quad_points round_f32 [(1, 0); (0, 1); (2, 1); (1, 2)]%Q
     <> order_quad_points round_f32 [(0, 1); (1, 0); (2, 1); (1, 2)]%Q.
Proof.
  split; [apply perm_swap|].
  split; [vm_compute; reflexivity|]. split; [vm_compute; reflexivity|].
  vm_compute. discriminate.
Qed.

(** The ties that count are those of the float32 values: the points
    (1000, 24) and (1000, 24 + 2^-19) are float32 numbers with different
    exact sums and differences, but in float32 both sums are 1024 and
    both differences -976, and the corners change with the order. *)
Lemma order_quad_points_float32_ties :
  (pt_sum (1000, 24) < pt_sum (1000, 12582913 # 524288))%Q
  /\ sum32 round_f32 (1000, 24)%Q = sum32 round_f32 (1000, 12582913 # 524288)%Q
  /\ diff32 round_f32 (1000, 24)%Q = diff32 round_f32 (1000, 12582913 # 524288)%Q
  /\ order_quad_points round_f32
       [(0, 0); (1000, 24); (1000, 12582913 # 524288); (0, 500)]%Q
     = Some [(0, 0); (1000, 24); (1000, 24); (0, 500)]%Q
  /\ order_quad_points round_f32
       [(0, 0); (1000, 12582913 # 524288); (1000, 24); (0, 500)]%Q
     = Some [(0, 0); (1000, 12582913 # 524288); (1000, 12582913 # 524288);
             (0, 500)]%Q.
Proof. repeat split; vm_compute; reflexivity. Qed.

(** ** [prioritize_rois] (C9) *)

Lemma insert_desc_perm {A : Type} (key : A -> Q) (x : A) (l : list A) :
  Permutation (insert_desc key x l) (x :: l).
Proof.
  induction l as [|y l IH]; simpl; [done|].
  destruct (Qltb (key x) (key y)); [|done].
  rewrite IH. apply perm_swap.
Qed.

Lemma sorted_desc_perm {A : Type} (key : A -> Q) (l : list A) :
  Permutation (sorted_desc key l) l.
Proof.
  induction l as [|x l IH]; simpl; [done|].
  rewrite insert_desc_perm. by constructor.
Qed.

Lemma max_from_Z {A : Type} (key : A -> Z) (xs : list A) : forall x,
  In (max_from Zkey_ltb key x xs) (x :: xs)
  /\ forall y, In y (x :: xs) -> (key y <= key (max_from Zkey_ltb key x xs))%Z.
Proof.
  induction xs as [|z xs IH]; intros x.
  - simpl. split; [by left|]. intros y [->|[]]. lia.
  - change (max_from Zkey_ltb key x (z :: xs)) with
      (max_from Zkey_ltb key (if Zkey_ltb (key x) (key z) then z else x) xs).
    change (Zkey_ltb (key x) (key z)) with (key x <? key z)%Z.
    destruct (Z.ltb_spec (key x) (key z)) as [Hlt|Hge].
    + destruct (IH z) as [Hin Hmax]. split.
      * right. exact Hin.
      * intros y [->|Hy].
        -- specialize (Hmax z (or_introl eq_refl)). lia.
        -- by apply Hmax.
    + destruct (IH x) as [Hin Hmax]. split.
      * destruct Hin as [Hin|Hin]; [by left|by right; right].
      * intros y [->|[->|Hy]].
        -- apply Hmax. by left.
        -- specialize (Hmax x (or_introl eq_refl)). lia.
        -- apply Hmax. by right.
Qed.

Lemma roi_eqb_eq (r1 r2 : roi) : roi_eqb r1 r2 = true <-> r1 = r2.
Proof.
  destruct r1 as [[[a0 b0] a1] b1], r2 as [[[c0 d0] c1] d1]. unfold roi_eqb.
  rewrite !andb_true_iff, !Z.eqb_eq. split.
  - intros [[[-> ->] ->] ->]. done.
  - intros [= -> -> -> ->]. done.
Qed.

(** C9. For every non-empty list of ROIs and every image shape, an ROI
    of greatest width [x1 - x0] among the input is at index 0 or at
    index 1 of the list [prioritize_rois] returns. *)
Theorem prioritize_rois_widest_in_front (rois : list roi) (img_shape : Z * Z) :
  rois <> [] ->
  exists r,
    In r rois
    /\ (forall r', In r' rois -> (roi_width r' <= roi_width r)%Z)
    /\ (prioritize_rois rois img_shape !! 0 = Some r
        \/ prioritize_rois rois img_shape !! 1 = Some r).
Proof.
  intros Hne. unfold prioritize_rois.
  destruct rois as [|r0 rois0] eqn:Er; [done|]. rewrite <- Er in *. clear Hne.
  pose proof (sorted_desc_perm (fun r => roi_priority_score r img_shape) rois) as Hp.
  destruct (sorted_desc _ rois) as [|first rest] eqn:Es.
  { apply Permutation_length in Hp. rewrite Er in Hp. done. }
  destruct (max_from_Z roi_width rest first) as [Hin Hmax].
  set (widest := max_from Zkey_ltb roi_width first rest) in *.
  exists widest. split; [by apply (Permutation_in _ Hp)|].
  split.
  - intros r' Hr'. apply Hmax. by apply (Permutation_in _ (Permutation_sym Hp)).
  - destruct (roi_eqb first widest) eqn:E; simpl.
    + left. apply roi_eqb_eq in E. by rewrite E.
    + by right.
Qed.

Lemma prioritize_rois_widest_in_front_witness :
  exists r,
    In r [(0, 0, 10, 10); (0, 0, 100, 5); (5, 5, 50, 50)]%Z
    /\ (forall r', In r' [(0, 0, 10, 10); (0, 0, 100, 5); (5, 5, 50, 50)]%Z ->
        (roi_width r' <= roi_width r)%Z)
    /\ (prioritize_rois [(0, 0, 10, 10); (0, 0, 100, 5); (5, 5, 50, 50)]%Z (100, 100)%Z
          !! 0 = Some r
        \/ prioritize_rois [(0, 0, 10, 10); (0, 0, 100, 5); (5, 5, 50, 50)]%Z (100, 100)%Z
             !! 1 = Some r).
Proof.
  apply (prioritize_rois_widest_in_front
           [(0, 0, 10, 10); (0, 0, 100, 5); (5, 5, 50, 50)]%Z (100, 100)%Z).
  discriminate.
Defined.

(** ** The gamma lookup-table cache (C10) *)

Lemma gset_size_union_le (X Y : gset Qc) : size (X ∪ Y) <= size X + size Y.
Proof.
  rewrite size_union_alt.
  assert (size (Y ∖ X) <= size Y); [|lia].
  apply subseteq_size. intros x. rewrite elem_of_difference. tauto.
Qed.

Lemma gamma_keys_size : size gamma_keys <= 4.
Proof.
  unfold gamma_keys.
  pose proof (gset_size_union_le {[Q2Qc 0.75; Q2Qc 0.85; Q2Qc 1.15]} {[Q2Qc 1.3]}) as H1.
  pose proof (gset_size_union_le {[Q2Qc 0.75; Q2Qc 0.85]} {[Q2Qc 1.15]}) as H2.
  pose proof (gset_size_union_le {[Q2Qc 0.75]} {[Q2Qc 0.85]}) as H3.
  rewrite !size_singleton in *. lia.
Qed.

Section GammaCache.
Variable image : Type.
Variable mean_luminance : image -> Q.
Variable float_pow : Q -> Q -> Q.
Variable cv_LUT : image -> list Z -> image.

Abbreviation apply_gamma := (apply_gamma_correction image mean_luminance float_pow cv_LUT).
Abbreviation calls := (gamma_calls image mean_luminance float_pow cv_LUT).

Lemma choose_gamma_key (mean_lum gamma : Q) :
  choose_gamma mean_lum = Some gamma -> Q2Qc gamma ∈ gamma_keys.
Proof.
  unfold choose_gamma, gamma_keys.
  repeat match goal with |- context [if ?b then _ else _] => destruct b end;
    intros [= <-]; set_solver.
Qed.

Lemma choose_gamma_mid (mean_lum : Q) :
  (120 <= mean_lum)%Q -> (mean_lum <= 160)%Q -> choose_gamma mean_lum = None.
Proof.
  intros Hlo Hhi. unfold choose_gamma.
  assert (H1 : Qltb mean_lum 80 = false) by (apply Qltb_false; lra).
  assert (H2 : Qltb mean_lum 120 = false) by (by apply Qltb_false).
  assert (H3 : Qltb 200 mean_lum = false) by (apply Qltb_false; lra).
  assert (H4 : Qltb 160 mean_lum = false) by (by apply Qltb_false).
  by rewrite H1, H2, H3, H4.
Qed.

(** One call only ever adds a key of [gamma_keys]. *)
Lemma apply_gamma_correction_dom (cache : gmap Qc (list Z)) (crop : image) :
  dom (apply_gamma cache crop).1 ⊆ dom cache ∪ gamma_keys.
Proof.
  unfold apply_gamma_correction.
  destruct (choose_gamma (mean_luminance crop)) as [gamma|] eqn:E; cbn [fst];
    [|apply union_subseteq_l].
  apply choose_gamma_key in E.
  destruct (cache !! Q2Qc gamma); cbn [fst]; [apply union_subseteq_l|].
  rewrite dom_insert_L. intros k.
  rewrite !elem_of_union, elem_of_singleton. intros [->|Hk]; auto.
Qed.

Lemma gamma_calls_dom (crops : list image) : forall cache : gmap Qc (list Z),
  dom cache ⊆ gamma_keys -> dom (calls crops cache) ⊆ gamma_keys.
Proof.
  induction crops as [|crop crops IH]; intros cache Hc; simpl; [done|].
  apply IH. intros k Hk.
  apply (apply_gamma_correction_dom cache crop), elem_of_union in Hk as [Hk|Hk]; auto.
Qed.

(** C10. Starting from the empty cache, after any sequence of calls
    of [apply_gamma_correction] every key of the cache is one of 0.75,
    0.85, 1.15 and 1.3, so the cache holds at most 4 entries; and a
    call on a crop whose mean luminance lies in [120, 160] returns the
    crop unchanged and leaves the cache as it was. *)
Theorem gamma_cache_keys (crops : list image) :
  dom (calls crops ∅) ⊆ gamma_keys
  /\ size (calls crops ∅) <= 4
  /\ forall (cache : gmap Qc (list Z)) (crop : image),
       (120 <= mean_luminance crop)%Q -> (mean_luminance crop <= 160)%Q ->
       apply_gamma cache crop = (cache, crop).
Proof.
  assert (Hdom : dom (calls crops ∅) ⊆ gamma_keys).
  { apply gamma_calls_dom. rewrite dom_empty_L. apply empty_subseteq. }
  split; [done|]. split.
  - rewrite <- size_dom. etrans; [by apply subseteq_size|]. apply gamma_keys_size.
  - intros cache crop Hlo Hhi. unfold apply_gamma_correction.
    by rewrite choose_gamma_mid.
Qed.
End GammaCache.

(** The theorem on crops that are their own mean luminance: five calls
    that walk through all four gamma buckets and the middle one. *)
Lemma gamma_cache_keys_witness :
  dom (gamma_calls Q id (fun x _ => x) (fun crop _ => crop)
         [50; 100; 140; 180; 220; 50]%Q ∅) ⊆ gamma_keys
  /\ size (gamma_calls Q id (fun x _ => x) (fun crop _ => crop)
             [50; 100; 140; 180; 220; 50]%Q ∅) <= 4
  /\ apply_gamma_correction Q id (fun x _ => x) (fun crop _ => crop) ∅ 140%Q
     = (∅, 140%Q).
Proof.
  destruct (gamma_cache_keys Q id (fun x _ => x) (fun crop _ => crop)
              [50; 100; 140; 180; 220; 50]%Q) as (Hdom & Hsize & Hmid).
  split; [exact Hdom|]. split; [exact Hsize|].
  apply Hmid; unfold id; lra.
Defined.

(** ** [best_text_window] (C5) *)

Lemma slice_take_drop (text : str) (i win_len : nat) :
  slice text i (i + win_len) = take win_len (drop i text).
Proof. unfold slice. f_equal. lia. Qed.

Lemma window_step_keep_better (text : str) (win_len : nat) (st : str * Q) (i : nat) :
  window_step text win_len st i = keep_better st (window_at text (win_len, i)).
Proof.
  unfold window_step, keep_better, window_at. destruct st as [best best_score].
  rewrite slice_take_drop. reflexivity.
Qed.

Lemma best_text_window_scan (s : str) :
  best_text_window s =
  match sanitize_text s with
  | [] => []
  | _ => fst (scan_windows (sanitize_text s))
  end.
Proof.
  unfold best_text_window. destruct (sanitize_text s) as [|c t] eqn:E; [done|].
  rewrite <- E. f_equal. unfold scan_windows, window_pairs.
  set (n := length (sanitize_text s)).
  generalize (sanitize_text s, window_score (sanitize_text s) n) as st.
  generalize (seq (if 12 <=? n then 12 else n)
                (Nat.min 18 n + 1 - (if 12 <=? n then 12 else n))) as lens.
  induction lens as [|wl lens IH]; intros st; simpl; [done|].
  rewrite map_app, fold_left_app, <- IH. f_equal.
  generalize (seq 0 (n - wl + 1)) as starts. intros starts. revert st.
  induction starts as [|i starts IHs]; intros st; simpl; [done|].
  rewrite window_step_keep_better. apply IHs.
Qed.

Lemma eps_pos : (0 < 1e-6)%Q.
Proof. reflexivity. Qed.

Lemma keep_better_mono (st w : str * Q) : (snd st <= snd (keep_better st w))%Q.
Proof.
  unfold keep_better. pose proof eps_pos. set (eps := 1e-6%Q) in *.
  destruct (Qltb _ _) eqn:E; [|lra].
  apply Qltb_true in E. lra.
Qed.

(** What the scan leaves: a score no lower than the start, within
    [1e-6] of every window it met, and a pair that is the start or one
    of the windows. *)
Lemma fold_keep_better_inv (ws : list (str * Q)) : forall st : str * Q,
  (snd st <= snd (fold_left keep_better ws st))%Q
  /\ (forall w, In w ws -> (snd w <= snd (fold_left keep_better ws st) + 1e-6)%Q)
  /\ (fold_left keep_better ws st = st \/ In (fold_left keep_better ws st) ws).
Proof.
  pose proof eps_pos. set (eps := 1e-6%Q) in *.
  induction ws as [|w ws IH]; intros st; simpl.
  - split; [lra|]. split; [by intros w []|by left].
  - destruct (IH (keep_better st w)) as (Hmono & Hall & Hres).
    pose proof (keep_better_mono st w) as Hst.
    split; [lra|]. split.
    + intros w' [<-|Hw']; [|by apply Hall].
      assert (snd w <= snd (keep_better st w) + eps)%Q; [|lra].
      unfold keep_better. change (1e-6)%Q with eps. destruct (Qltb _ _) eqn:E; [lra|].
      apply Qltb_false in E. lra.
    + destruct Hres as [Hres|Hres]; [|by right; right].
      rewrite Hres. unfold keep_better. destruct (Qltb _ _); [right; by left|by left].
Qed.

Lemma fold_keep_better_fixed (ws : list (str * Q)) (st : str * Q) :
  (forall w, In w ws -> (snd w <= snd st + 1e-6)%Q) ->
  fold_left keep_better ws st = st.
Proof.
  induction ws as [|w ws IH]; intros Hall; simpl; [done|].
  assert (E : keep_better st w = st).
  { unfold keep_better. specialize (Hall w (or_introl eq_refl)).
    apply Qltb_false in Hall. by rewrite Hall. }
  rewrite E. apply IH. intros w' Hw'. apply Hall. by right.
Qed.

Lemma in_window_pairs (n win_len i : nat) :
  1 <= n ->
  In (win_len, i) (window_pairs n) <->
  (if 12 <=? n then 12 else n) <= win_len <= Nat.min 18 n /\ i + win_len <= n.
Proof.
  intros Hn. unfold window_pairs. rewrite in_flat_map. split.
  - intros (wl & Hwl & Hin). apply in_map_iff in Hin as (i' & [= <- <-] & Hi).
    apply in_seq in Hwl. apply in_seq in Hi.
    destruct (12 <=? n) eqn:E; [apply Nat.leb_le in E|apply Nat.leb_gt in E]; lia.
  - intros [Hwl Hi]. exists win_len. split.
    + apply in_seq. destruct (12 <=? n) eqn:E; lia.
    + apply in_map_iff. exists i. split; [done|]. apply in_seq. lia.
Qed.

Lemma window_of_window (text : str) (i win_len i' win_len' : nat) :
  i' + win_len' <= win_len ->
  take win_len' (drop i' (take win_len (drop i text)))
  = take win_len' (drop (i + i') text).
Proof.
  intros H. rewrite skipn_firstn_comm, take_take, drop_drop. f_equal. lia.
Qed.

Lemma forallb_allowed_window (text : str) (i win_len : nat) :
  forallb allowed text = true -> forallb allowed (take win_len (drop i text)) = true.
Proof.
  rewrite !forallb_forall. intros H c Hc. apply H.
  apply list_elem_of_In. apply list_elem_of_In in Hc.
  eapply subseteq_drop, subseteq_take, Hc.
Qed.

(** On a sanitized, non-empty text the scan returns a sanitized,
    non-empty text that the scan maps to itself. *)
Lemma scan_windows_fixed (text : str) :
  text <> [] -> forallb allowed text = true ->
  fst (scan_windows text) <> []
  /\ forallb allowed (fst (scan_windows text)) = true
  /\ fst (scan_windows (fst (scan_windows text))) = fst (scan_windows text).
Proof.
  intros Hne Hal.
  assert (Hn : 1 <= length text) by (destruct text; [done|simpl; lia]).
  destruct (fold_keep_better_inv (map (window_at text) (window_pairs (length text)))
              (text, window_score text (length text))) as (_ & Hall & Hres).
  fold (scan_windows text) in Hall, Hres.
  destruct Hres as [Hres|Hres].
  { rewrite Hres. cbn [fst]. rewrite Hres. done. }
  apply in_map_iff in Hres as ([wl i] & Hw & Hin).
  apply in_window_pairs in Hin as [Hwl Hi]; [|done].
  unfold window_at in Hw. cbn [fst snd] in Hw.
  set (sub := take wl (drop i text)) in *.
  assert (Hlen : length sub = wl).
  { unfold sub. rewrite length_take, length_drop. lia. }
  assert (Hwl1 : 1 <= wl) by (destruct (12 <=? length text); lia).
  rewrite <- Hw in *. cbn [fst snd] in *.
  split; [destruct sub; [simpl in Hlen; lia|done]|].
  split; [by apply forallb_allowed_window|].
  unfold scan_windows at 1. rewrite Hlen.
  rewrite fold_keep_better_fixed; [done|].
  intros w Hw'. apply in_map_iff in Hw' as ([wl' i'] & <- & Hin').
  apply in_window_pairs in Hin' as [Hwl' Hi']; [|done].
  cbn [snd]. apply Hall. apply in_map_iff. exists (wl', i + i'). split.
  - unfold window_at. cbn [fst snd]. unfold sub.
    by rewrite window_of_window.
  - apply in_window_pairs; [done|].
    destruct (12 <=? length text) eqn:E1, (12 <=? wl) eqn:E2;
      try apply Nat.leb_le in E1; try apply Nat.leb_le in E2;
      try apply Nat.leb_gt in E1; try apply Nat.leb_gt in E2; lia.
Qed.

(** C5. [best_text_window] is idempotent: for every string [s],
    [best_text_window (best_text_window s) = best_text_window s]. *)
Theorem best_text_window_idempotent (s : str) :
  best_text_window (best_text_window s) = best_text_window s.
Proof.
  rewrite (best_text_window_scan s).
  pose proof (sanitize_text_allowed s) as Hal.
  destruct (sanitize_text s) as [|c t] eqn:E; [done|]. rewrite <- E in *.
  destruct (scan_windows_fixed (sanitize_text s)) as (Hne & Hal' & Hfix);
    [by rewrite E | done |].
  rewrite best_text_window_scan, (sanitize_text_fixed _ Hal').
  destruct (fst (scan_windows (sanitize_text s))) eqn:Er; [done|]. exact Hfix.
Qed.

(** ** The emission of a unit's result (C3) *)

Section FrameDriverProps.
Variable format_conf : Q -> str.

Lemma py_max_by_Some {A K : Type} (ltb : K -> K -> bool) (key : A -> K) (xs : list A) :
  xs <> [] -> exists x, py_max_by ltb key xs = Some x.
Proof. destruct xs as [|x xs]; [done|]. intros _. by eexists. Qed.

(** C3. For a unit whose image decoded, with the candidates the
    passes gathered (the driver always has at least one): the final
    token and the confidence are defined, and to the output are
    appended the line [FINAL<TAB>conf<TAB>token] exactly when the
    token is not empty, and then, in every case, one blank line. The
    confidence written is the computed one, times 0.70 when the ROI
    was marked clipped. *)
Theorem frame_unit_output (candidates : list candidate) (roi_clipped : bool)
    (out : list str) :
  candidates <> [] ->
  exists (combined : str) (conf : Q) (written : list str),
    final_token candidates = Some combined
    /\ final_confidence candidates = Some conf
    /\ frame_unit format_conf (Some (candidates, roi_clipped)) out
       = Some (out ++ written ++ [[NL]])
    /\ (combined <> [] ->
        written =
        [lit "FINAL" ++ [TAB]
         ++ format_conf (if roi_clipped then (conf * 0.70)%Q else conf)
         ++ [TAB] ++ combined ++ [NL]])
    /\ (combined = [] -> written = []).
Proof.
  intros Hne. unfold frame_unit, emit_result, final_token, final_confidence.
  destruct (py_max_by_Some Qltb candidate_score candidates Hne) as [[results c0] ->].
  destruct (select_consensus_candidate candidates) as [consensus_text consensus_conf].
  remember (match match consensus_text with [] => c0 | _ :: _ => consensus_text end with
            | [] => match consensus_text with [] => c0 | _ :: _ => consensus_text end
            | _ :: _ =>
                normalize_ocr_text
                  (best_text_window
                     match consensus_text with [] => c0 | _ :: _ => consensus_text end)
            end) as combined eqn:Ec.
  clear Ec.
  remember (match consensus_text with
            | [] => candidate_confidence results
            | _ :: _ => consensus_conf
            end) as conf eqn:Ef.
  clear Ef. exists combined, conf.
  destruct combined as [|ch rest].
  - exists []. by repeat split.
  - eexists [_]. split; [done|]. split; [done|]. split.
    + unfold write, final_line. by rewrite <- !app_assoc.
    + split; [|done]. intros _. reflexivity.
Qed.
End FrameDriverProps.

Lemma frame_unit_output_witness :
  frame_unit format_4f (Some ([reading [] token], true)) []
  = Some [lit "FINAL" ++ [TAB] ++ lit "0.5600" ++ [TAB] ++ token ++ [NL]; [NL]].
Proof.
  destruct (frame_unit_output format_4f [reading [] token] true [])
    as (combined & conf & written & Htok & Hconf & Hout & Hline & _); [discriminate|].
  rewrite Hout. vm_compute in Htok, Hconf.
  injection Htok as <-. injection Hconf as <-.
  rewrite Hline by discriminate. vm_compute. reflexivity.
Defined.

(** * Properties of the rest of the pipeline *)

(** ** [roi_iou] *)

Lemma inject_Z_pos (q : Z) : (0 < q)%Z -> (0 < inject_Z q)%Q.
Proof. intros H. unfold Qlt, inject_Z. simpl. lia. Qed.

Lemma Qdiv_unit_interval (p q : Z) :
  (0 <= p)%Z -> (p <= q)%Z -> (0 < q)%Z ->
  (0 <= inject_Z p / inject_Z q)%Q /\ (inject_Z p / inject_Z q <= 1)%Q.
Proof.
  intros Hp Hpq Hq. pose proof (inject_Z_pos q Hq) as Hq'.
  split.
  - apply Qle_shift_div_l; [done|]. rewrite Qmult_0_l.
    unfold Qle, inject_Z. simpl. lia.
  - apply Qle_shift_div_r; [done|]. rewrite Qmult_1_l.
    unfold Qle, inject_Z. simpl. lia.
Qed.

(** X23. The overlap ratio of two boxes lies between 0 and 1. *)
Theorem roi_iou_unit_interval (a b : roi) :
  (0 <= roi_iou a b)%Q /\ (roi_iou a b <= 1)%Q.
Proof.
  destruct a as [[[ax0 ay0] ax1] ay1], b as [[[bx0 by0] bx1] by1].
  unfold roi_iou.
  set (iw := Z.max 0 (Z.min ax1 bx1 - Z.max ax0 bx0)).
  set (ih := Z.max 0 (Z.min ay1 by1 - Z.max ay0 by0)).
  destruct (Z.leb_spec (iw * ih) 0) as [Hle|Hgt]; [split; lra|].
  assert (Hiw : (0 < iw)%Z) by nia.
  assert (Hih : (0 < ih)%Z) by nia.
  assert (Ha : (iw * ih <= (ax1 - ax0) * (ay1 - ay0))%Z).
  { apply Z.mul_le_mono_nonneg; lia. }
  assert (Hb : (iw * ih <= (bx1 - bx0) * (by1 - by0))%Z).
  { apply Z.mul_le_mono_nonneg; lia. }
  apply Qdiv_unit_interval; lia.
Qed.

(** X24. The overlap ratio does not depend on the order of the two boxes. *)
Theorem roi_iou_sym (a b : roi) : roi_iou a b = roi_iou b a.
Proof.
  destruct a as [[[ax0 ay0] ax1] ay1], b as [[[bx0 by0] bx1] by1].
  unfold roi_iou.
  rewrite (Z.max_comm bx0 ax0), (Z.max_comm by0 ay0), (Z.min_comm bx1 ax1),
    (Z.min_comm by1 ay1).
  destruct (_ <=? 0)%Z; [done|].
  do 3 f_equal. lia.
Qed.

Lemma roi_iou_self_box (x0 y0 x1 y1 : Z) :
  (x0 < x1)%Z -> (y0 < y1)%Z -> (roi_iou (x0, y0, x1, y1) (x0, y0, x1, y1) == 1)%Q.
Proof.
  intros Hw Hh.
  unfold roi_iou. rewrite !Z.max_id, !Z.min_id.
  assert (Hpos : (0 < (x1 - x0) * (y1 - y0))%Z) by nia.
  replace (Z.max 0 (x1 - x0)) with (x1 - x0)%Z by lia.
  replace (Z.max 0 (y1 - y0)) with (y1 - y0)%Z by lia.
  destruct (Z.leb_spec ((x1 - x0) * (y1 - y0)) 0) as [Hle|_]; [lia|].
  set (s := ((x1 - x0) * (y1 - y0))%Z) in *.
  replace (Z.max 1 (Z.max 1 s + Z.max 1 s - s)) with s by lia.
  apply Qmult_inv_r. unfold Qeq, inject_Z. simpl. lia.
Qed.

(** X25. A box of positive width and height overlaps itself entirely. *)
Theorem roi_iou_self (r : roi) :
  (0 < roi_width r)%Z -> (0 < roi_height r)%Z -> (roi_iou r r == 1)%Q.
Proof.
  destruct r as [[[x0 y0] x1] y1]. unfold roi_width, roi_height. intros Hw Hh.
  apply roi_iou_self_box; lia.
Qed.

Lemma roi_iou_self_witness : (roi_iou (0, 0, 8, 8)%Z (0, 0, 8, 8)%Z == 1)%Q.
Proof. apply (roi_iou_self (0, 0, 8, 8)%Z); reflexivity. Defined.

(** ** [dedupe_rois] *)

Lemma spread_out_nil (thr : Q) : spread_out thr [].
Proof. split; [constructor|]. intros i j ri rj _ H. by rewrite lookup_nil in H. Qed.

Lemma spread_out_snoc (thr : Q) (K : list roi) (r : roi) :
  spread_out thr K -> roi_big_enough r ->
  Forall (fun k => (roi_iou r k < thr)%Q) K ->
  spread_out thr (K ++ [r]).
Proof.
  intros [Hbig Hpair] Hr Hall. split.
  - apply Forall_app. split; [done|by constructor].
  - intros i j ri rj Hij Hi Hj.
    pose proof (lookup_lt_Some _ _ _ Hj) as Hjlen.
    rewrite length_app in Hjlen. simpl in Hjlen.
    rewrite lookup_app_l in Hi by lia.
    destruct (decide (j = length K)) as [->|Hne].
    + rewrite list_lookup_middle in Hj by done. injection Hj as <-.
      rewrite Forall_forall in Hall. apply Hall. apply (list_elem_of_lookup_2 _ _ _ Hi).
    + rewrite lookup_app_l in Hj by lia. by apply (Hpair i j ri rj).
Qed.

Lemma spread_out_middle (thr : Q) (P S : list roi) (r : roi) :
  spread_out thr (P ++ r :: S) ->
  roi_big_enough r /\ Forall (fun k => (roi_iou r k < thr)%Q) P.
Proof.
  intros [Hbig Hpair]. split.
  - apply Forall_app in Hbig as [_ Hbig]. by inversion Hbig.
  - apply Forall_forall. intros k Hk.
    apply list_elem_of_lookup in Hk as [i Hi].
    pose proof (lookup_lt_Some _ _ _ Hi) as Hlt.
    apply (Hpair i (length P) k r); [done| |by apply list_lookup_middle].
    by rewrite lookup_app_l.
Qed.

Lemma dedupe_test_false (thr : Q) (r : roi) (kept : list roi) :
  existsb (fun k => Qleb thr (roi_iou r k)) kept = false ->
  Forall (fun k => (roi_iou r k < thr)%Q) kept.
Proof.
  intros H. apply Forall_forall. intros k Hk. apply list_elem_of_In in Hk.
  apply Qleb_false. destruct (Qleb thr (roi_iou r k)) eqn:E; [|done].
  assert (existsb (fun k => Qleb thr (roi_iou r k)) kept = true); [|congruence].
  apply existsb_exists. by exists k.
Qed.

Lemma dedupe_test_true (thr : Q) (r : roi) (kept : list roi) :
  Forall (fun k => (roi_iou r k < thr)%Q) kept ->
  existsb (fun k => Qleb thr (roi_iou r k)) kept = false.
Proof.
  intros H. destruct (existsb _ kept) eqn:E; [|done].
  apply existsb_exists in E as (k & Hk & Hle).
  rewrite Forall_forall in H. apply list_elem_of_In in Hk. specialize (H k Hk).
  apply Qleb_true in Hle. lra.
Qed.

Lemma roi_size_test (x0 y0 x1 y1 : Z) :
  (x1 - x0 <? 8)%Z || (y1 - y0 <? 8)%Z = false <-> roi_big_enough (x0, y0, x1, y1).
Proof. unfold roi_big_enough. rewrite orb_false_iff, !Z.ltb_ge. done. Qed.

Lemma dedupe_loop_inv (thr : Q) (m : Z) (rois : list roi) : forall kept,
  spread_out thr kept ->
  exists added,
    dedupe_loop thr m kept rois = kept ++ added
    /\ sublist added rois
    /\ spread_out thr (kept ++ added)
    /\ (Z.of_nat (length (kept ++ added)) <= Z.max (Z.of_nat (length kept) + 1) m)%Z.
Proof.
  induction rois as [|r rois IH]; intros kept Hk.
  - exists []. rewrite app_nil_r. simpl. repeat split; [done|apply Hk..|lia].
  - destruct r as [[[x0 y0] x1] y1]. cbn [dedupe_loop].
    destruct ((x1 - x0 <? 8)%Z || (y1 - y0 <? 8)%Z) eqn:Es.
    { destruct (IH kept Hk) as (added & -> & Hsub & Hsp & Hlen).
      exists added. repeat split; [by apply sublist_cons|apply Hsp..|done]. }
    destruct (existsb _ kept) eqn:Et.
    { destruct (IH kept Hk) as (added & -> & Hsub & Hsp & Hlen).
      exists added. repeat split; [by apply sublist_cons|apply Hsp..|done]. }
    apply roi_size_test in Es. apply dedupe_test_false in Et.
    pose proof (spread_out_snoc thr kept _ Hk Es Et) as Hk'.
    destruct (m <=? _)%Z eqn:Hm; [apply Z.leb_le in Hm|apply Z.leb_gt in Hm].
    + exists [(x0, y0, x1, y1)]. repeat split;
        [apply sublist_skip, sublist_nil_l|apply Hk'..|].
      rewrite length_app in *. simpl in *. lia.
    + destruct (IH _ Hk') as (added & -> & Hsub & Hsp & Hlen).
      exists ((x0, y0, x1, y1) :: added). rewrite <- app_assoc in *. simpl in *.
      repeat split; [by apply sublist_skip|apply Hsp..|].
      rewrite !length_app in *. simpl in *. lia.
Qed.

(** X26. What [dedupe_rois] keeps is a sublist of its input (same order), of
    boxes at least 8 wide and 8 high, any later one overlapping any
    earlier one by less than the threshold, and no more of them than
    [max_rois] (one when [max_rois] is below 1). *)
Theorem dedupe_rois_kept (rois : list roi) (thr : Q) (max_rois : Z) :
  sublist (dedupe_rois rois thr max_rois) rois
  /\ Forall roi_big_enough (dedupe_rois rois thr max_rois)
  /\ (forall i j ri rj, i < j ->
        dedupe_rois rois thr max_rois !! i = Some ri ->
        dedupe_rois rois thr max_rois !! j = Some rj ->
        (roi_iou rj ri < thr)%Q)
  /\ (Z.of_nat (length (dedupe_rois rois thr max_rois)) <= Z.max 1 max_rois)%Z.
Proof.
  unfold dedupe_rois.
  destruct (dedupe_loop_inv thr max_rois rois [] (spread_out_nil thr))
    as (added & -> & Hsub & [Hbig Hpair] & Hlen).
  cbn [app length] in *. repeat split; [done..|lia].
Qed.

Lemma dedupe_loop_fixed (thr : Q) (m : Z) (S : list roi) : forall P,
  spread_out thr (P ++ S) ->
  (Z.of_nat (length (P ++ S)) <= Z.max 1 m)%Z ->
  dedupe_loop thr m P S = P ++ S.
Proof.
  induction S as [|r S IH]; intros P Hsp Hlen; [by rewrite app_nil_r|].
  destruct (spread_out_middle thr P S r Hsp) as [Hr Hall].
  rewrite cons_middle, app_assoc in Hsp, Hlen |- *.
  destruct r as [[[x0 y0] x1] y1]. cbn [dedupe_loop].
  rewrite (proj2 (roi_size_test x0 y0 x1 y1) Hr), (dedupe_test_true _ _ _ Hall).
  destruct (m <=? _)%Z eqn:Hm; [apply Z.leb_le in Hm|apply Z.leb_gt in Hm].
  - rewrite !length_app in *. simpl in *.
    destruct S; [by rewrite ?app_nil_r|simpl in *; lia].
  - by apply IH.
Qed.

(** X27. Deduplicating twice changes nothing. *)
Theorem dedupe_rois_idempotent (rois : list roi) (thr : Q) (max_rois : Z) :
  dedupe_rois (dedupe_rois rois thr max_rois) thr max_rois
  = dedupe_rois rois thr max_rois.
Proof.
  unfold dedupe_rois.
  destruct (dedupe_loop_inv thr max_rois rois [] (spread_out_nil thr))
    as (added & -> & Hsub & Hsp & Hlen).
  cbn [app length] in *. apply (dedupe_loop_fixed thr max_rois added []); [done|].
  cbn [app]. lia.
Qed.

(** ** [expand_roi], [quad_to_bbox] and [scale_quad] *)

Lemma inject_Z_le (a b : Z) : (inject_Z a <= inject_Z b)%Q <-> (a <= b)%Z.
Proof. unfold Qle, inject_Z. simpl. lia. Qed.

Lemma inject_Z_lt (a b : Z) : (inject_Z a < inject_Z b)%Q <-> (a < b)%Z.
Proof. unfold Qlt, inject_Z. simpl. lia. Qed.

Lemma Qfloor_below (v : Q) (z : Z) : (v <= inject_Z z)%Q -> (Qfloor v <= z)%Z.
Proof.
  intros H. apply inject_Z_le. exact (Qle_trans _ _ _ (Qfloor_le v) H).
Qed.

Lemma Qfloor_above (v : Q) (z : Z) : (inject_Z z <= v)%Q -> (z <= Qfloor v)%Z.
Proof.
  intros H. pose proof (Qle_lt_trans _ _ _ H (Qlt_floor v)) as Hlt.
  apply (proj1 (inject_Z_lt _ _)) in Hlt. lia.
Qed.

Lemma Qceiling_above (v : Q) (z : Z) : (inject_Z z <= v)%Q -> (z <= Qceiling v)%Z.
Proof.
  intros H. apply inject_Z_le. exact (Qle_trans _ _ _ H (Qle_ceiling v)).
Qed.

Lemma Qceiling_below (v : Q) (z : Z) : (v <= inject_Z z)%Q -> (Qceiling v <= z)%Z.
Proof.
  intros H. pose proof (Qlt_le_trans _ _ _ (Qceiling_lt v) H) as Hlt.
  apply (proj1 (inject_Z_lt _ _)) in Hlt. lia.
Qed.

(** [int(v)] stays on the same side of an integer as [v], on the side of 0. *)
Lemma py_int_below (v : Q) (z : Z) :
  (0 <= z)%Z -> (v <= inject_Z z)%Q -> (py_int v <= z)%Z.
Proof.
  intros Hz Hv. unfold py_int. destruct (Qltb v 0) eqn:E.
  - apply Qltb_true in E. assert (Qceiling v <= 0)%Z; [|lia].
    apply Qceiling_below. change (inject_Z 0) with 0%Q. lra.
  - by apply Qfloor_below.
Qed.

Lemma py_int_above (v : Q) (z : Z) :
  (0 <= v)%Q -> (inject_Z z <= v)%Q -> (z <= py_int v)%Z.
Proof.
  intros Hv Hz. unfold py_int.
  assert (E : Qltb v 0 = false) by (by apply Qltb_false).
  rewrite E. by apply Qfloor_above.
Qed.

(** X22. An ROI inside the image, expanded by factors of at least 1, covers
    the ROI and stays inside the image. *)
Theorem expand_roi_covers (x0 y0 x1 y1 h w : Z) (scale_x scale_y : Q) :
  (0 <= x0 <= x1)%Z -> (x1 <= w)%Z -> (0 <= y0 <= y1)%Z -> (y1 <= h)%Z ->
  (1 <= scale_x)%Q -> (1 <= scale_y)%Q ->
  exists nx0 ny0 nx1 ny1,
    expand_roi (x0, y0, x1, y1) (h, w) scale_x scale_y = (nx0, ny0, nx1, ny1)
    /\ (0 <= nx0 <= x0)%Z /\ (x1 <= nx1 <= w)%Z
    /\ (0 <= ny0 <= y0)%Z /\ (y1 <= ny1 <= h)%Z.
Proof.
  intros Hx Hxw Hy Hyh Hsx Hsy. unfold expand_roi. eexists _, _, _, _.
  split; [reflexivity|].
  assert (Hx0 : (0 <= inject_Z x0)%Q) by (apply (inject_Z_le 0); lia).
  assert (Hy0 : (0 <= inject_Z y0)%Q) by (apply (inject_Z_le 0); lia).
  assert (Hxx : (inject_Z x0 <= inject_Z x1)%Q) by (apply inject_Z_le; lia).
  assert (Hyy : (inject_Z y0 <= inject_Z y1)%Q) by (apply inject_Z_le; lia).
  assert (Ex : (inject_Z (x0 + x1) == inject_Z x0 + inject_Z x1)%Q)
    by (rewrite inject_Z_plus; reflexivity).
  assert (Ey : (inject_Z (y0 + y1) == inject_Z y0 + inject_Z y1)%Q)
    by (rewrite inject_Z_plus; reflexivity).
  assert (Edx : (inject_Z (x1 - x0) == inject_Z x1 - inject_Z x0)%Q).
  { unfold Z.sub. rewrite inject_Z_plus, inject_Z_opp. reflexivity. }
  assert (Edy : (inject_Z (y1 - y0) == inject_Z y1 - inject_Z y0)%Q).
  { unfold Z.sub. rewrite inject_Z_plus, inject_Z_opp. reflexivity. }
  set (X0 := inject_Z x0) in *. set (X1 := inject_Z x1) in *.
  set (Y0 := inject_Z y0) in *. set (Y1 := inject_Z y1) in *.
  set (SX := inject_Z (x0 + x1)) in *. set (SY := inject_Z (y0 + y1)) in *.
  set (DX := inject_Z (x1 - x0)) in *. set (DY := inject_Z (y1 - y0)) in *.
  assert (Hdx : (DX <= DX * scale_x)%Q) by nra.
  assert (Hdy : (DY <= DY * scale_y)%Q) by nra.
  assert (A : (py_int (SX * 0.5 - DX * scale_x * 0.5) <= x0)%Z).
  { apply py_int_below; [lia|]. fold X0. lra. }
  assert (B : (x1 <= py_int (SX * 0.5 + DX * scale_x * 0.5))%Z).
  { apply py_int_above; fold X1; lra. }
  assert (C : (py_int (SY * 0.5 - DY * scale_y * 0.5) <= y0)%Z).
  { apply py_int_below; [lia|]. fold Y0. lra. }
  assert (D : (y1 <= py_int (SY * 0.5 + DY * scale_y * 0.5))%Z).
  { apply py_int_above; fold Y1; lra. }
  lia.
Qed.

Lemma Qmin2_le (x y : Q) : (Qmin2 x y <= x)%Q /\ (Qmin2 x y <= y)%Q.
Proof.
  unfold Qmin2. destruct (Qltb y x) eqn:E.
  - apply Qltb_true in E. lra.
  - apply Qltb_false in E. lra.
Qed.

Lemma Qmax2_ge (x y : Q) : (x <= Qmax2 x y)%Q /\ (y <= Qmax2 x y)%Q.
Proof.
  unfold Qmax2. destruct (Qltb x y) eqn:E.
  - apply Qltb_true in E. lra.
  - apply Qltb_false in E. lra.
Qed.

Lemma Qlist_min_le (xs : list Q) : forall x,
  (Qlist_min x xs <= x)%Q /\ forall y, In y xs -> (Qlist_min x xs <= y)%Q.
Proof.
  unfold Qlist_min. induction xs as [|z xs IH]; intros x; simpl.
  - split; [lra|by intros y []].
  - destruct (IH (Qmin2 x z)) as [H1 H2]. pose proof (Qmin2_le x z).
    split; [lra|]. intros y [<-|Hy]; [lra|by apply H2].
Qed.

Lemma Qlist_max_ge (xs : list Q) : forall x,
  (x <= Qlist_max x xs)%Q /\ forall y, In y xs -> (y <= Qlist_max x xs)%Q.
Proof.
  unfold Qlist_max. induction xs as [|z xs IH]; intros x; simpl.
  - split; [lra|by intros y []].
  - destruct (IH (Qmax2 x z)) as [H1 H2]. pose proof (Qmax2_ge x z).
    split; [lra|]. intros y [<-|Hy]; [lra|by apply H2].
Qed.

(** X5. The box of a quadrilateral lies inside the image and holds every
    corner that is inside the image. *)
Theorem quad_to_bbox_covers (quad : list point) (img_w img_h : Z) :
  quad <> [] ->
  exists x0 y0 x1 y1,
    quad_to_bbox quad img_w img_h = Some (x0, y0, x1, y1)
    /\ (0 <= x0)%Z /\ (0 <= y0)%Z /\ (x1 <= img_w)%Z /\ (y1 <= img_h)%Z
    /\ forall px py, In (px, py) quad ->
         ((0 <= px)%Q -> (px < inject_Z img_w)%Q ->
          (inject_Z x0 <= px)%Q /\ (px < inject_Z x1)%Q)
         /\ ((0 <= py)%Q -> (py < inject_Z img_h)%Q ->
             (inject_Z y0 <= py)%Q /\ (py < inject_Z y1)%Q).
Proof.
  intros Hne. destruct quad as [|[qx qy] quad]; [done|]. unfold quad_to_bbox.
  cbn [map fst snd]. eexists _, _, _, _. split; [reflexivity|].
  do 4 (split; [lia|]).
  intros px py Hin.
  assert (Hx : In px (qx :: map fst quad)).
  { destruct Hin as [[= -> ->]|Hin]; [by left|right].
    apply in_map_iff. by exists (px, py). }
  assert (Hy : In py (qy :: map snd quad)).
  { destruct Hin as [[= -> ->]|Hin]; [by left|right].
    apply in_map_iff. by exists (px, py). }
  assert (Hbox : forall (v q0 : Q) (qs : list Q) (lim : Z),
    In v (q0 :: qs) -> (0 <= v)%Q -> (v < inject_Z lim)%Q ->
    (inject_Z (Z.max 0 (Qfloor (Qlist_min q0 qs))) <= v)%Q
    /\ (v < inject_Z (Z.min lim (Qceiling (Qlist_max q0 qs) + 1)))%Q).
  { intros v q0 qs lim Hv H0 Hlim.
    assert (Hmin : (Qlist_min q0 qs <= v)%Q).
    { destruct (Qlist_min_le qs q0) as [H1 H2]. destruct Hv as [<-|Hv]; auto. }
    assert (Hmax : (v <= Qlist_max q0 qs)%Q).
    { destruct (Qlist_max_ge qs q0) as [H1 H2]. destruct Hv as [<-|Hv]; auto. }
    pose proof (Qfloor_le (Qlist_min q0 qs)) as Hf.
    pose proof (Qle_ceiling (Qlist_max q0 qs)) as Hc.
    split.
    - destruct (Z.max_spec 0 (Qfloor (Qlist_min q0 qs))) as [[_ ->]|[_ ->]];
        [lra|change (inject_Z 0) with 0%Q; lra].
    - destruct (Z.min_spec lim (Qceiling (Qlist_max q0 qs) + 1)) as [[_ ->]|[_ ->]];
        [done|]. rewrite inject_Z_plus. change (inject_Z 1) with 1%Q. lra. }
  split; intros; by apply Hbox.
Qed.

Lemma expand_roi_covers_witness :
  exists nx0 ny0 nx1 ny1,
    expand_roi (100, 40, 200, 60)%Z (480, 640)%Z 1.7 1.9 = (nx0, ny0, nx1, ny1)
    /\ (0 <= nx0 <= 100)%Z /\ (200 <= nx1 <= 640)%Z
    /\ (0 <= ny0 <= 40)%Z /\ (60 <= ny1 <= 480)%Z.
Proof.
  apply (expand_roi_covers 100 40 200 60 480 640 1.7 1.9); try lia; lra.
Defined.

Lemma quad_to_bbox_covers_witness :
  exists x0 y0 x1 y1,
    quad_to_bbox [(1.5, 2.5); (7.25, 2); (8, 6.5); (2, 7)]%Q 10 10
    = Some (x0, y0, x1, y1)
    /\ (0 <= x0)%Z /\ (0 <= y0)%Z /\ (x1 <= 10)%Z /\ (y1 <= 10)%Z
    /\ forall px py, In (px, py) [(1.5, 2.5); (7.25, 2); (8, 6.5); (2, 7)]%Q ->
         ((0 <= px)%Q -> (px < inject_Z 10)%Q ->
          (inject_Z x0 <= px)%Q /\ (px < inject_Z x1)%Q)
         /\ ((0 <= py)%Q -> (py < inject_Z 10)%Q ->
             (inject_Z y0 <= py)%Q /\ (py < inject_Z y1)%Q).
Proof.
  apply (quad_to_bbox_covers [(1.5, 2.5); (7.25, 2); (8, 6.5); (2, 7)]%Q 10 10).
  discriminate.
Defined.

Lemma Qclip_bounds (x lo hi : Q) :
  (lo <= hi)%Q -> (lo <= Qclip x lo hi)%Q /\ (Qclip x lo hi <= hi)%Q.
Proof.
  intros H. unfold Qclip, Qmin2, Qmax2.
  destruct (Qltb x lo) eqn:E1; [apply Qltb_true in E1|apply Qltb_false in E1];
    destruct (Qltb hi _) eqn:E2; [apply Qltb_true in E2|apply Qltb_false in E2
                                 |apply Qltb_true in E2|apply Qltb_false in E2];
    lra.
Qed.


Lemma quad_to_bbox_in_image (quad : list point) (img_w img_h : Z) :
  quad <> [] -> (1 <= img_w)%Z -> (1 <= img_h)%Z ->
  Forall (in_image img_w img_h) quad ->
  exists x0 y0 x1 y1,
    quad_to_bbox quad img_w img_h = Some (x0, y0, x1, y1)
    /\ (0 <= x0 < x1)%Z /\ (x1 <= img_w)%Z /\ (0 <= y0 < y1)%Z /\ (y1 <= img_h)%Z.
Proof.
  intros Hne Hw Hh Hall. destruct quad as [|[qx qy] quad]; [done|].
  unfold quad_to_bbox. cbn [map fst snd]. eexists _, _, _, _.
  split; [reflexivity|].
  apply Forall_cons in Hall as [(Hx0 & Hx1 & Hy0 & Hy1) _]. cbn [fst snd] in *.
  assert (Hbox : forall (q0 : Q) (qs : list Q) (lim : Z),
    (1 <= lim)%Z -> (0 <= q0)%Q -> (q0 <= inject_Z (Z.max 0 (lim - 1)))%Q ->
    (0 <= Z.max 0 (Qfloor (Qlist_min q0 qs))
       < Z.min lim (Qceiling (Qlist_max q0 qs) + 1))%Z
    /\ (Z.min lim (Qceiling (Qlist_max q0 qs) + 1) <= lim)%Z).
  { intros q0 qs lim Hlim H0 H1.
    destruct (Qlist_min_le qs q0) as [Hmin _].
    destruct (Qlist_max_ge qs q0) as [Hmax _].
    assert (A : (Qfloor (Qlist_min q0 qs) <= lim - 1)%Z).
    { apply Qfloor_below. replace (lim - 1)%Z with (Z.max 0 (lim - 1)) by lia. lra. }
    assert (B : (0 <= Qceiling (Qlist_max q0 qs))%Z).
    { apply Qceiling_above. change (inject_Z 0) with 0%Q. lra. }
    assert (C : (Qfloor (Qlist_min q0 qs) <= Qceiling (Qlist_max q0 qs))%Z).
    { apply Qceiling_above.
      pose proof (Qfloor_le (Qlist_min q0 qs)). lra. }
    lia. }
  destruct (Hbox qx (map fst quad) img_w) as [? ?]; [done..|].
  destruct (Hbox qy (map snd quad) img_h) as [? ?]; [done..|].
  done.
Qed.

(** X6. The screen detector scales the quadrilateral and takes its box: for
    an image of at least one pixel and a scale that is not 1, the box is
    inside the image and has positive width and height. *)
Theorem scale_quad_bbox_in_image (quad : list point) (scale : Q) (img_w img_h : Z) :
  length quad = 4 -> (1e-6 <= Qabs (scale - 1.0))%Q ->
  (1 <= img_w)%Z -> (1 <= img_h)%Z ->
  exists scaled x0 y0 x1 y1,
    scale_quad quad scale img_w img_h = Some scaled
    /\ quad_to_bbox scaled img_w img_h = Some (x0, y0, x1, y1)
    /\ (0 <= x0 < x1)%Z /\ (x1 <= img_w)%Z /\ (0 <= y0 < y1)%Z /\ (y1 <= img_h)%Z.
Proof.
  intros Hlen Hs Hw Hh.
  unfold scale_quad. rewrite Hlen. cbn [Nat.eqb].
  assert (E : Qltb (Qabs (scale - 1.0)) 1e-6 = false) by (by apply Qltb_false).
  rewrite E. eexists. 
  match goal with |- exists _ _ _ _, Some ?s = _ /\ _ => set (scaled := s) end.
  assert (Hall : Forall (in_image img_w img_h) scaled).
  { apply Forall_forall. intros p Hp.
    apply list_elem_of_In, in_map_iff in Hp as ([x y] & <- & _).
    assert (Hw' : (0 <= inject_Z (Z.max 0 (img_w - 1)))%Q)
      by (apply (inject_Z_le 0); lia).
    assert (Hh' : (0 <= inject_Z (Z.max 0 (img_h - 1)))%Q)
      by (apply (inject_Z_le 0); lia).
    unfold in_image. cbn [fst snd].
    split; [|split; [|split]]; by apply Qclip_bounds. }
  assert (Hne : scaled <> []).
  { unfold scaled. by destruct quad. }
  destruct (quad_to_bbox_in_image scaled img_w img_h Hne Hw Hh Hall)
    as (x0 & y0 & x1 & y1 & Hb & Hr).
  exists x0, y0, x1, y1. split; [done|]. split; done.
Qed.


Lemma scale_quad_bbox_in_image_witness :
  exists scaled x0 y0 x1 y1,
    scale_quad [(10, 10); (630, 12); (635, 470); (8, 475)]%Q 1.03 640 480 = Some scaled
    /\ quad_to_bbox scaled 640 480 = Some (x0, y0, x1, y1)
    /\ (0 <= x0 < x1)%Z /\ (x1 <= 640)%Z /\ (0 <= y0 < y1)%Z /\ (y1 <= 480)%Z.
Proof.
  apply (scale_quad_bbox_in_image
           [(10, 10); (630, 12); (635, 470); (8, 475)]%Q 1.03 640 480);
    [reflexivity|vm_compute; discriminate|lia|lia].
Defined.

Lemma roi_eqb_false (r1 r2 : roi) : roi_eqb r1 r2 = false <-> r1 <> r2.
Proof.
  rewrite <- roi_eqb_eq. destruct (roi_eqb r1 r2); split; congruence.
Qed.

Lemma filter_other_In (w r : roi) (l : list roi) :
  In r (List.filter (fun r => negb (roi_eqb r w)) l) <-> In r l /\ r <> w.
Proof.
  rewrite filter_In, negb_true_iff, roi_eqb_false. done.
Qed.

Lemma filter_other_absent (w : roi) (l : list roi) :
  w ∉ l -> List.filter (fun r => negb (roi_eqb r w)) l = l.
Proof.
  induction l as [|a l IH]; intros Hw; [done|].
  apply not_elem_of_cons in Hw as [Hne Hw]. cbn [List.filter].
  rewrite (proj2 (roi_eqb_false a w)) by done. cbn [negb]. by rewrite IH.
Qed.

Lemma filter_other_perm (w : roi) (l : list roi) :
  NoDup l -> w ∈ l ->
  Permutation (w :: List.filter (fun r => negb (roi_eqb r w)) l) l.
Proof.
  induction l as [|a l IH]; intros Hnd Hw; [by apply elem_of_nil in Hw|].
  apply NoDup_cons in Hnd as [Ha Hnd]. cbn [List.filter].
  destruct (roi_eqb a w) eqn:E; cbn [negb].
  - apply roi_eqb_eq in E as ->. by rewrite filter_other_absent.
  - apply roi_eqb_false in E. apply elem_of_cons in Hw as [->|Hw]; [done|].
    rewrite perm_swap. constructor. by apply IH.
Qed.

Lemma filter_other_length (w : roi) (l : list roi) :
  In w l -> S (length (List.filter (fun r => negb (roi_eqb r w)) l)) <= length l.
Proof.
  induction l as [|a l IH]; intros Hin; [done|]. cbn [List.filter].
  destruct (roi_eqb a w) eqn:E; cbn [negb length].
  - pose proof (filter_length_le (fun r => negb (roi_eqb r w)) l). lia.
  - apply roi_eqb_false in E. destruct Hin as [->|Hin]; [done|].
    specialize (IH Hin). lia.
Qed.

(** X28. [prioritize_rois] returns the boxes it was given: every box of the
    input is in the result and the other way round, and the result is no
    longer than the input. *)
Theorem prioritize_rois_same_boxes (rois : list roi) (img_shape : Z * Z) :
  (forall r, In r (prioritize_rois rois img_shape) <-> In r rois)
  /\ length (prioritize_rois rois img_shape) <= length rois.
Proof.
  unfold prioritize_rois. destruct rois as [|r0 rois0] eqn:Er; [done|].
  rewrite <- Er. clear Er.
  pose proof (sorted_desc_perm (fun r => roi_priority_score r img_shape) rois) as Hp.
  destruct (sorted_desc _ rois) as [|first rest]; [|].
  { apply Permutation_nil in Hp. subst. done. }
  destruct (max_from_Z roi_width rest first) as [Hin _].
  set (widest := max_from Zkey_ltb roi_width first rest) in *.
  destruct (roi_eqb first widest) eqn:E; cbn [negb].
  { split; [|by rewrite (Permutation_length Hp)].
    intros r. split; apply Permutation_in; [done|by symmetry]. }
  apply roi_eqb_false in E. destruct Hin as [Hin|Hin]; [done|].
  split.
  - intros r. rewrite <- (Permutation_in' (eq_refl r) Hp).
    cbn [app In]. rewrite filter_other_In.
    destruct (decide (r = widest)) as [->|Hne]; [tauto|]. intuition congruence.
  - rewrite <- (Permutation_length Hp). cbn [app length].
    pose proof (filter_other_length widest rest Hin). lia.
Qed.

Lemma prioritize_rois_perm (rois : list roi) (img_shape : Z * Z) :
  NoDup rois -> Permutation (prioritize_rois rois img_shape) rois.
Proof.
  intros Hnd. unfold prioritize_rois. destruct rois as [|r0 rois0] eqn:Er; [done|].
  rewrite <- Er in *. clear Er.
  pose proof (sorted_desc_perm (fun r => roi_priority_score r img_shape) rois) as Hp.
  set (ordered := sorted_desc _ rois) in *.
  assert (Hnd' : NoDup ordered) by (by rewrite Hp).
  transitivity ordered; [|done]. clear Hp Hnd. clearbody ordered.
  destruct ordered as [|first rest]; [done|]. rename Hnd' into Hnd.
  destruct (max_from_Z roi_width rest first) as [Hin _].
  set (widest := max_from Zkey_ltb roi_width first rest) in *.
  destruct (roi_eqb first widest) eqn:E; cbn [negb]; [done|].
  apply roi_eqb_false in E. destruct Hin as [Hin|Hin]; [done|].
  apply NoDup_cons in Hnd as [_ Hnd]. cbn [app]. constructor.
  apply filter_other_perm; [done|by apply list_elem_of_In].
Qed.

Lemma spread_out_NoDup (thr : Q) (K : list roi) :
  (thr <= 1)%Q -> spread_out thr K -> NoDup K.
Proof.
  intros Hthr [Hbig Hpair]. apply NoDup_alt. intros i j r Hi Hj.
  assert (Hself : (roi_iou r r == 1)%Q).
  { rewrite Forall_forall in Hbig.
    specialize (Hbig r (list_elem_of_lookup_2 _ _ _ Hi)).
    destruct r as [[[x0 y0] x1] y1]. unfold roi_big_enough in Hbig.
    apply roi_iou_self_box; lia. }
  destruct (Nat.lt_trichotomy i j) as [Hlt|[->|Hlt]]; [|done|].
  - pose proof (Hpair i j r r Hlt Hi Hj). lra.
  - pose proof (Hpair j i r r Hlt Hj Hi). lra.
Qed.

(** X29. The frame driver deduplicates the proposals and then ranks them:
    with a threshold of at most 1 the kept boxes are pairwise different
    and the ranking only reorders them. *)
Theorem prioritize_dedupe_permutation (rois : list roi) (thr : Q) (max_rois : Z)
    (img_shape : Z * Z) :
  (thr <= 1)%Q ->
  NoDup (dedupe_rois rois thr max_rois)
  /\ Permutation (prioritize_rois (dedupe_rois rois thr max_rois) img_shape)
       (dedupe_rois rois thr max_rois).
Proof.
  intros Hthr.
  assert (Hnd : NoDup (dedupe_rois rois thr max_rois)).
  { unfold dedupe_rois.
    destruct (dedupe_loop_inv thr max_rois rois [] (spread_out_nil thr))
      as (added & -> & _ & Hsp & _).
    by apply (spread_out_NoDup thr). }
  split; [done|]. by apply prioritize_rois_perm.
Qed.

Lemma prioritize_dedupe_permutation_witness :
  NoDup (dedupe_rois [(0, 0, 10, 10); (0, 0, 10, 10); (20, 0, 60, 10)]%Z 0.62 6)
  /\ Permutation
       (prioritize_rois
          (dedupe_rois [(0, 0, 10, 10); (0, 0, 10, 10); (20, 0, 60, 10)]%Z 0.62 6)
          (100, 100)%Z)
       (dedupe_rois [(0, 0, 10, 10); (0, 0, 10, 10); (20, 0, 60, 10)]%Z 0.62 6).
Proof.
  apply (prioritize_dedupe_permutation
           [(0, 0, 10, 10); (0, 0, 10, 10); (20, 0, 60, 10)]%Z 0.62 6 (100, 100)%Z).
  vm_compute. discriminate.
Defined.

(** ** The environment helpers *)

(** X1. An unset variable and a value that is no integer give the default
    as it is, also when it lies outside the bounds; an integer is
    clamped into [[min_val, max_val]] and is returned unchanged when it
    lies inside. *)
Theorem env_int_or_default_clamped (parse_int : str -> option Z)
    (env : gmap string str) (key : string) (default min_val max_val : Z) :
  (env !! key = None ->
   env_int_or_default parse_int env key default min_val max_val = default)
  /\ (forall raw, env !! key = Some raw -> parse_int (strip raw) = None ->
      env_int_or_default parse_int env key default min_val max_val = default)
  /\ (forall raw v, env !! key = Some raw -> parse_int (strip raw) = Some v ->
      (min_val <= max_val)%Z ->
      (min_val <= env_int_or_default parse_int env key default min_val max_val
         <= max_val)%Z
      /\ ((min_val <= v <= max_val)%Z ->
          env_int_or_default parse_int env key default min_val max_val = v)).
Proof.
  unfold env_int_or_default. split; [|split].
  - by intros ->.
  - by intros raw -> ->.
  - intros raw v -> -> Hle. cbv zeta.
    destruct (Z.ltb_spec v min_val);
      repeat match goal with
             | |- context [(?a <? ?b)%Z] => destruct (Z.ltb_spec a b)
             end; lia.
Qed.

(** A variable set to 4000 under the bounds 480 and 1920. *)
Lemma env_int_or_default_clamped_witness :
  (480 <= env_int_or_default (fun _ => Some 4000%Z)
            {[ "TESS_OCR_MAX_SIDE"%string := lit "4000" ]}
            "TESS_OCR_MAX_SIDE" 1280 480 1920 <= 1920)%Z.
Proof.
  apply (proj2 (proj2 (env_int_or_default_clamped (fun _ => Some 4000%Z)
           {[ "TESS_OCR_MAX_SIDE"%string := lit "4000" ]}
           "TESS_OCR_MAX_SIDE" 1280 480 1920)) (lit "4000") 4000%Z);
    [reflexivity|reflexivity|lia].
Defined.

(** X2. With neither [TESS_OCR_FORCE_GPU] nor [TESS_OCR_BACKEND] set the
    CPU is chosen whatever the CUDA probe says; and in every
    environment the probe decides the backend only under the label
    ["auto"]: under the three other labels the choice is the same with
    and without CUDA. *)
Theorem choose_gpu_mode_probe (env : gmap string str) :
  (env !! "TESS_OCR_FORCE_GPU"%string = None ->
   env !! "TESS_OCR_BACKEND"%string = None ->
   forall cuda, choose_gpu_mode env cuda = (false, lit "cpu"))
  /\ ((forall cuda, choose_gpu_mode env cuda = (cuda, lit "auto"))
      \/ (forall cuda, choose_gpu_mode env cuda = (true, lit "gpu (forced)"))
      \/ (forall cuda, choose_gpu_mode env cuda = (true, lit "gpu"))
      \/ (forall cuda, choose_gpu_mode env cuda = (false, lit "cpu"))).
Proof.
  split.
  - intros Hf Hb cuda. unfold choose_gpu_mode, env_flag_enabled.
    rewrite Hf, Hb. reflexivity.
  - unfold choose_gpu_mode.
    destruct (env_flag_enabled env "TESS_OCR_FORCE_GPU"); [by right; left|].
    cbv zeta. destruct (existsb _ _); [by right; right; left|].
    destruct (str_eqb _ _); [by left|by right; right; right].
Qed.

Lemma choose_gpu_mode_probe_witness :
  choose_gpu_mode ∅ true = (false, lit "cpu").
Proof.
  apply (proj1 (choose_gpu_mode_probe ∅)); apply lookup_empty.
Defined.

(** ** The rounding to the nearest float *)

Lemma round_half_even_near (x : Q) :
  (inject_Z (round_half_even x) - (1 # 2) <= x)%Q
  /\ (x <= inject_Z (round_half_even x) + (1 # 2))%Q.
Proof.
  unfold round_half_even.
  pose proof (Qfloor_le x) as Hlo. pose proof (Qlt_floor x) as Hhi.
  rewrite inject_Z_plus in Hhi. change (inject_Z 1) with 1%Q in Hhi.
  set (f := Qfloor x) in *.
  destruct (Qltb (x - inject_Z f) 0.5) eqn:E1.
  { apply Qltb_true in E1. split; lra. }
  apply Qltb_false in E1.
  destruct (Qltb 0.5 (x - inject_Z f)) eqn:E2.
  { rewrite inject_Z_plus. change (inject_Z 1) with 1%Q. split; lra. }
  apply Qltb_false in E2.
  destruct (Z.even f); [split; lra|].
  rewrite inject_Z_plus. change (inject_Z 1) with 1%Q. split; lra.
Qed.

Lemma Qltb_comp (x x' y y' : Q) : (x == x')%Q -> (y == y')%Q -> Qltb x y = Qltb x' y'.
Proof.
  intros Hx Hy. destruct (Qltb x' y') eqn:E.
  - apply Qltb_true. apply Qltb_true in E. lra.
  - apply Qltb_false. apply Qltb_false in E. lra.
Qed.

Lemma round_half_even_comp (x y : Q) :
  (x == y)%Q -> round_half_even x = round_half_even y.
Proof.
  intros H. unfold round_half_even. rewrite (Qfloor_comp x y H).
  assert (E : (x - inject_Z (Qfloor y) == y - inject_Z (Qfloor y))%Q) by lra.
  by rewrite (Qltb_comp _ _ _ _ E (Qeq_refl 0.5)),
    (Qltb_comp _ _ _ _ (Qeq_refl 0.5) E).
Qed.

Lemma round_half_even_inject (n : Z) : round_half_even (inject_Z n) = n.
Proof.
  pose proof (round_half_even_near (inject_Z n)) as [H1 H2].
  assert (A : (inject_Z (round_half_even (inject_Z n) - n) <= 1 # 2)%Q).
  { unfold Z.sub. rewrite inject_Z_plus, inject_Z_opp. lra. }
  assert (B : (- (1 # 2) <= inject_Z (round_half_even (inject_Z n) - n))%Q).
  { unfold Z.sub. rewrite inject_Z_plus, inject_Z_opp. lra. }
  set (k := (round_half_even (inject_Z n) - n)%Z) in *.
  assert (k = 0)%Z; [|lia].
  unfold Qle, inject_Z in A, B. simpl in A, B. lia.
Qed.

Lemma round_half_even_mono (x y : Q) :
  (x <= y)%Q -> (round_half_even x <= round_half_even y)%Z.
Proof.
  intros H. destruct (Z_le_gt_dec (round_half_even x) (round_half_even y)) as [|Hgt];
    [done|exfalso].
  pose proof (round_half_even_near x) as [Hx _].
  pose proof (round_half_even_near y) as [_ Hy].
  assert (Hz : (inject_Z (round_half_even y) + 1 <= inject_Z (round_half_even x))%Q).
  { rewrite <- (inject_Z_plus _ 1). apply inject_Z_le. lia. }
  assert (E : (x == y)%Q) by lra.
  apply round_half_even_comp in E. lia.
Qed.

Lemma pow2_pos (e : Z) : (0 < 2 ^ e)%Q.
Proof. by apply Qpower_0_lt. Qed.

Lemma pow2_succ (e : Z) : (2 ^ (e + 1) == 2 * 2 ^ e)%Q.
Proof. rewrite Qpower_plus by done. change (2 ^ 1)%Q with 2%Q. ring. Qed.

Lemma pow2_le (a b : Z) : (a <= b)%Z -> (2 ^ a <= 2 ^ b)%Q.
Proof. intros H. by apply Qpower_le_compat_l. Qed.

Lemma pow2_lt (a b : Z) : (a < b)%Z -> (2 ^ a < 2 ^ b)%Q.
Proof. intros H. by apply Qpower_lt_compat_l. Qed.

Lemma pow2_inject (k : Z) : (0 <= k)%Z -> (2 ^ k == inject_Z (2 ^ k))%Q.
Proof. intros H. by rewrite Zpower_Qpower. Qed.

Lemma Zlog2_Q (n : Z) :
  (0 < n)%Z ->
  (2 ^ Z.log2 n <= inject_Z n)%Q /\ (inject_Z n < 2 * 2 ^ Z.log2 n)%Q.
Proof.
  intros Hn. destruct (Z.log2_spec n Hn) as [H1 H2].
  pose proof (Z.log2_nonneg n) as H0.
  rewrite <- pow2_succ, !pow2_inject by lia. split.
  - by apply inject_Z_le.
  - apply inject_Z_lt. by rewrite <- Z.add_1_r in H2.
Qed.

Lemma Qlog2_spec (x : Q) :
  ~ (x == 0)%Q ->
  (2 ^ Qlog2 x <= Qabs x)%Q /\ (Qabs x < 2 ^ (Qlog2 x + 1))%Q.
Proof.
  intros Hx. unfold Qlog2. destruct x as [n d]. cbn [Qnum Qden].
  assert (Hn : (0 < Z.abs n)%Z).
  { assert (n <> 0)%Z; [|lia]. intros ->. by apply Hx. }
  destruct (Zlog2_Q (Z.abs n) Hn) as [A1 A2].
  destruct (Zlog2_Q (Zpos d) eq_refl) as [B1 B2].
  set (a := Z.log2 (Z.abs n)) in *. set (b := Z.log2 (Z.pos d)) in *.
  pose proof (pow2_pos a) as Ha. pose proof (pow2_pos b) as Hb.
  assert (HV : (Qabs (n # d) * inject_Z (Z.pos d) == inject_Z (Z.abs n))%Q).
  { change (Qabs (n # d)) with (Z.abs n # d). rewrite (Qmake_Qdiv (Z.abs n) d).
    field. intros H. by apply (inject_Z_injective (Z.pos d) 0) in H. }
  assert (HT : (2 ^ (a - b) * 2 ^ b == 2 ^ a)%Q).
  { rewrite <- Qpower_plus by done. by replace (a - b + b)%Z with a by lia. }
  set (V := Qabs (n # d)) in *. set (T := (2 ^ (a - b))%Q) in *.
  set (PA := (2 ^ a)%Q) in *. set (PB := (2 ^ b)%Q) in *.
  set (N := inject_Z (Z.abs n)) in *. set (D := inject_Z (Z.pos d)) in *.
  assert (HT0 : (0 < T)%Q) by apply pow2_pos.
  destruct (Qltb V T) eqn:E.
  - apply Qltb_true in E. replace (a - b - 1 + 1)%Z with (a - b)%Z by lia.
    fold T. split; [|done].
    assert (H2 : (2 * 2 ^ (a - b - 1) == T)%Q).
    { rewrite <- pow2_succ. by replace (a - b - 1 + 1)%Z with (a - b)%Z by lia. }
    assert (H3 : (T < 2 * V)%Q) by nra.
    lra.
  - apply Qltb_false in E. fold T. split; [done|].
    rewrite pow2_succ. fold T. nra.
Qed.

Lemma Qlog2_unique (x : Q) (e : Z) :
  (2 ^ e <= Qabs x)%Q -> (Qabs x < 2 ^ (e + 1))%Q -> Qlog2 x = e.
Proof.
  intros H1 H2.
  assert (Hx : ~ (x == 0)%Q).
  { intros H. rewrite H in H1. pose proof (pow2_pos e). change (Qabs 0) with 0%Q in H1. lra. }
  destruct (Qlog2_spec x Hx) as [H3 H4].
  assert (Qlog2 x < e + 1)%Z.
  { apply (Qpower_lt_compat_l_inv 2); [lra|done]. }
  assert (e < Qlog2 x + 1)%Z.
  { apply (Qpower_lt_compat_l_inv 2); [lra|done]. }
  lia.
Qed.

Lemma Qlog2_mono (x y : Q) :
  ~ (x == 0)%Q -> (Qabs x <= Qabs y)%Q -> (Qlog2 x <= Qlog2 y)%Z.
Proof.
  intros Hx Hxy.
  destruct (Qlog2_spec x Hx) as [H1 _]. pose proof (pow2_pos (Qlog2 x)) as Hp.
  assert (Hy : ~ (y == 0)%Q).
  { intros H. rewrite H in Hxy. change (Qabs 0) with 0%Q in Hxy. lra. }
  destruct (Qlog2_spec y Hy) as [_ H2].
  assert (Qlog2 x < Qlog2 y + 1)%Z; [|lia].
  apply (Qpower_lt_compat_l_inv 2); [lra|done].
Qed.

Lemma round_scaled_le (x u : Q) (n : Z) :
  (0 < u)%Q -> (x <= inject_Z n * u)%Q ->
  (inject_Z (round_half_even (x / u)) * u <= inject_Z n * u)%Q.
Proof.
  intros Hu Hx.
  assert (H : (x / u <= inject_Z n)%Q) by (by apply Qle_shift_div_r).
  apply round_half_even_mono in H. rewrite round_half_even_inject in H.
  apply (proj2 (inject_Z_le _ _)) in H. nra.
Qed.

Lemma round_scaled_ge (x u : Q) (n : Z) :
  (0 < u)%Q -> (inject_Z n * u <= x)%Q ->
  (inject_Z n * u <= inject_Z (round_half_even (x / u)) * u)%Q.
Proof.
  intros Hu Hx.
  assert (H : (inject_Z n <= x / u)%Q) by (by apply Qle_shift_div_l).
  apply round_half_even_mono in H. rewrite round_half_even_inject in H.
  apply (proj2 (inject_Z_le _ _)) in H. nra.
Qed.

Section RoundBinary.
Variable prec emin : Z.
Hypothesis prec_pos : (1 <= prec)%Z.

Lemma round_binary_zero (x : Q) : (x == 0)%Q -> round_binary prec emin x = 0%Q.
Proof. intros H. unfold round_binary. apply Qeq_bool_iff in H. by rewrite H. Qed.

Lemma round_binary_nonzero (x : Q) :
  ~ (x == 0)%Q ->
  (round_binary prec emin x
   == inject_Z (round_half_even (x / float_ulp prec emin x)) * float_ulp prec emin x)%Q.
Proof.
  intros H. unfold round_binary.
  destruct (Qeq_bool x 0) eqn:E; [by apply Qeq_bool_iff in E|].
  cbv zeta. apply Qred_correct.
Qed.

Lemma float_ulp_pos (x : Q) : (0 < float_ulp prec emin x)%Q.
Proof. apply pow2_pos. Qed.

(** [2^prec] and [2^(prec-1)] units in the last place are the two
    powers of 2 around the number. *)
Lemma float_ulp_top (x : Q) :
  (inject_Z (2 ^ prec) * float_ulp prec emin x == 2 ^ (float_exp emin x + 1))%Q.
Proof.
  unfold float_ulp. rewrite <- pow2_inject by lia. rewrite <- Qpower_plus by done.
  by replace (prec + (float_exp emin x - (prec - 1)))%Z with (float_exp emin x + 1)%Z
    by lia.
Qed.

Lemma float_ulp_bottom (x : Q) :
  (inject_Z (2 ^ (prec - 1)) * float_ulp prec emin x == 2 ^ float_exp emin x)%Q.
Proof.
  unfold float_ulp. rewrite <- pow2_inject by lia. rewrite <- Qpower_plus by done.
  by replace (prec - 1 + (float_exp emin x - (prec - 1)))%Z with (float_exp emin x)
    by lia.
Qed.

Lemma float_exp_ge (x : Q) : (emin <= float_exp emin x)%Z /\ (Qlog2 x <= float_exp emin x)%Z.
Proof. unfold float_exp. lia. Qed.

Lemma round_binary_pos (x : Q) :
  (0 < x)%Q ->
  (0 <= round_binary prec emin x)%Q
  /\ (round_binary prec emin x <= 2 ^ (float_exp emin x + 1))%Q
  /\ ((emin <= Qlog2 x)%Z -> (2 ^ float_exp emin x <= round_binary prec emin x)%Q).
Proof.
  intros Hx. assert (Hnz : ~ (x == 0)%Q) by lra.
  rewrite (round_binary_nonzero x Hnz).
  pose proof (float_ulp_pos x) as Hu.
  destruct (Qlog2_spec x Hnz) as [H1 H2]. rewrite (Qabs_pos x) in H1, H2 by lra.
  destruct (float_exp_ge x) as [He1 He2].
  assert (Hp : (2 ^ (Qlog2 x + 1) <= 2 ^ (float_exp emin x + 1))%Q)
    by (apply pow2_le; lia).
  split; [|split].
  - pose proof (round_scaled_ge x (float_ulp prec emin x) 0 Hu) as H.
    change (inject_Z 0) with 0%Q in H. lra.
  - rewrite <- float_ulp_top. apply round_scaled_le; [done|].
    rewrite float_ulp_top. lra.
  - intros Hl. rewrite <- float_ulp_bottom. apply round_scaled_ge; [done|].
    rewrite float_ulp_bottom. unfold float_exp. rewrite Z.max_r by done. done.
Qed.

Lemma round_binary_neg (x : Q) :
  (x < 0)%Q ->
  (round_binary prec emin x <= 0)%Q
  /\ (- 2 ^ (float_exp emin x + 1) <= round_binary prec emin x)%Q
  /\ ((emin <= Qlog2 x)%Z -> (round_binary prec emin x <= - 2 ^ float_exp emin x)%Q).
Proof.
  intros Hx. assert (Hnz : ~ (x == 0)%Q) by lra.
  rewrite (round_binary_nonzero x Hnz).
  pose proof (float_ulp_pos x) as Hu.
  destruct (Qlog2_spec x Hnz) as [H1 H2]. rewrite (Qabs_neg x) in H1, H2 by lra.
  destruct (float_exp_ge x) as [He1 He2].
  assert (Hp : (2 ^ (Qlog2 x + 1) <= 2 ^ (float_exp emin x + 1))%Q)
    by (apply pow2_le; lia).
  split; [|split].
  - pose proof (round_scaled_le x (float_ulp prec emin x) 0 Hu) as H.
    change (inject_Z 0) with 0%Q in H. lra.
  - pose proof (round_scaled_ge x (float_ulp prec emin x) (- 2 ^ prec) Hu) as H.
    assert (A : (inject_Z (- 2 ^ prec) * float_ulp prec emin x
                 == - 2 ^ (float_exp emin x + 1))%Q)
      by (rewrite inject_Z_opp, <- float_ulp_top; ring).
    rewrite A in H. apply H. lra.
  - intros Hl.
    pose proof (round_scaled_le x (float_ulp prec emin x) (- 2 ^ (prec - 1)) Hu) as H.
    assert (A : (inject_Z (- 2 ^ (prec - 1)) * float_ulp prec emin x
                 == - 2 ^ float_exp emin x)%Q)
      by (rewrite inject_Z_opp, <- float_ulp_bottom; ring).
    rewrite A in H. apply H. unfold float_exp. rewrite Z.max_r by done. lra.
Qed.
End RoundBinary.

Section RoundBinaryOrder.
Variable prec emin : Z.
Hypothesis prec_pos : (1 <= prec)%Z.

Lemma float_exp_mono (x y : Q) :
  ~ (x == 0)%Q -> (Qabs x <= Qabs y)%Q -> (float_exp emin x <= float_exp emin y)%Z.
Proof.
  intros Hx Hxy. pose proof (Qlog2_mono x y Hx Hxy). unfold float_exp. lia.
Qed.

Lemma float_exp_above (x : Q) (e : Z) :
  (e < float_exp emin x)%Z -> (emin <= e)%Z -> (emin <= Qlog2 x)%Z.
Proof. unfold float_exp. lia. Qed.

Lemma round_binary_same_exp (x y : Q) :
  ~ (x == 0)%Q -> ~ (y == 0)%Q -> float_exp emin x = float_exp emin y ->
  (x <= y)%Q -> (round_binary prec emin x <= round_binary prec emin y)%Q.
Proof.
  intros Hx Hy He Hxy.
  rewrite (round_binary_nonzero prec emin x Hx), (round_binary_nonzero prec emin y Hy).
  unfold float_ulp. rewrite He.
  pose proof (pow2_pos (float_exp emin y - (prec - 1))) as Hu.
  set (u := (2 ^ (float_exp emin y - (prec - 1)))%Q) in *.
  assert (H : (x / u <= y / u)%Q).
  { apply Qle_shift_div_l; [done|]. unfold Qdiv. rewrite <- Qmult_assoc.
    rewrite (Qmult_comm (/ u)), Qmult_inv_r by lra. lra. }
  apply round_half_even_mono in H. apply (proj2 (inject_Z_le _ _)) in H. nra.
Qed.

(** The rounding keeps the order. *)
Lemma round_binary_mono (x y : Q) :
  (x <= y)%Q -> (round_binary prec emin x <= round_binary prec emin y)%Q.
Proof.
  intros Hxy.
  destruct (Q_dec x 0) as [[Hx|Hx]|Hx], (Q_dec y 0) as [[Hy|Hy]|Hy]; try lra.
  - (* both negative *)
    assert (Hnx : ~ (x == 0)%Q) by lra. assert (Hny : ~ (y == 0)%Q) by lra.
    assert (He : (float_exp emin y <= float_exp emin x)%Z).
    { apply float_exp_mono; [done|]. rewrite !Qabs_neg by lra. lra. }
    destruct (Z.eq_dec (float_exp emin x) (float_exp emin y)) as [Heq|Hne].
    { by apply round_binary_same_exp. }
    destruct (round_binary_neg prec emin prec_pos x Hx) as (_ & _ & Hx3).
    destruct (round_binary_neg prec emin prec_pos y Hy) as (_ & Hy2 & _).
    assert (Hl : (emin <= Qlog2 x)%Z).
    { apply (float_exp_above x (float_exp emin y)); [lia|]. unfold float_exp. lia. }
    specialize (Hx3 Hl).
    assert (Hp : (2 ^ (float_exp emin y + 1) <= 2 ^ float_exp emin x)%Q)
      by (apply pow2_le; lia).
    lra.
  - destruct (round_binary_neg prec emin prec_pos x Hx) as (? & _ & _).
    destruct (round_binary_pos prec emin prec_pos y Hy) as (? & _ & _). lra.
  - rewrite (round_binary_zero prec emin y Hy).
    by destruct (round_binary_neg prec emin prec_pos x Hx) as (? & _ & _).
  - (* both positive *)
    assert (Hnx : ~ (x == 0)%Q) by lra. assert (Hny : ~ (y == 0)%Q) by lra.
    assert (He : (float_exp emin x <= float_exp emin y)%Z).
    { apply float_exp_mono; [done|]. rewrite !Qabs_pos by lra. lra. }
    destruct (Z.eq_dec (float_exp emin x) (float_exp emin y)) as [Heq|Hne].
    { by apply round_binary_same_exp. }
    destruct (round_binary_pos prec emin prec_pos x Hx) as (_ & Hx2 & _).
    destruct (round_binary_pos prec emin prec_pos y Hy) as (_ & _ & Hy3).
    assert (Hl : (emin <= Qlog2 y)%Z).
    { apply (float_exp_above y (float_exp emin x)); [lia|]. unfold float_exp. lia. }
    specialize (Hy3 Hl).
    assert (Hp : (2 ^ (float_exp emin x + 1) <= 2 ^ float_exp emin y)%Q)
      by (apply pow2_le; lia).
    lra.
  - rewrite (round_binary_zero prec emin x Hx).
    by destruct (round_binary_pos prec emin prec_pos y Hy) as (? & _ & _).
  - by rewrite (round_binary_zero prec emin x Hx), (round_binary_zero prec emin y Hy).
Qed.

(** A multiple of the unit in the last place of its own exponent is a
    float. *)
Lemma round_binary_fixed (r : Q) (j : Z) :
  ~ (r == 0)%Q -> (r == inject_Z j * float_ulp prec emin r)%Q ->
  (round_binary prec emin r == r)%Q.
Proof.
  intros Hr Hj. rewrite (round_binary_nonzero prec emin r Hr).
  pose proof (float_ulp_pos prec emin r) as Hu.
  assert (E : (r / float_ulp prec emin r == inject_Z j)%Q).
  { rewrite Hj at 1. field. lra. }
  rewrite (round_half_even_comp _ _ E), round_half_even_inject. by rewrite <- Hj.
Qed.

(** The result of a rounding, when not 0, is a multiple of its own unit
    in the last place. *)
Lemma round_binary_multiple (x : Q) :
  ~ (x == 0)%Q -> ~ (round_binary prec emin x == 0)%Q ->
  exists j, (round_binary prec emin x
             == inject_Z j * float_ulp prec emin (round_binary prec emin x))%Q.
Proof.
  intros Hx Hr.
  assert (Hm : exists m, (round_binary prec emin x
                          == inject_Z m * 2 ^ (float_exp emin x - (prec - 1)))%Q)
    by (eexists; by apply round_binary_nonzero).
  destruct Hm as [m Hm].
  assert (Habs : (Qabs (round_binary prec emin x) <= 2 ^ (float_exp emin x + 1))%Q).
  { pose proof (pow2_pos (float_exp emin x + 1)) as Hp.
    destruct (Q_dec x 0) as [[Hx0|Hx0]|Hx0]; [| |done].
    - destruct (round_binary_neg prec emin prec_pos x Hx0) as (H1 & H2 & _).
      apply Qabs_case; intros; lra.
    - destruct (round_binary_pos prec emin prec_pos x Hx0) as (H1 & H2 & _).
      apply Qabs_case; intros; lra. }
  assert (HE : (emin <= float_exp emin x)%Z) by (unfold float_exp; lia).
  revert Hr Hm Habs HE.
  generalize (round_binary prec emin x) as r.
  generalize (float_exp emin x) as E.
  intros E r Hr Hm Habs HE.
  destruct (Qlog2_spec r Hr) as [L1 L2].
  assert (Hlog : (Qlog2 r <= E + 1)%Z).
  { assert (Qlog2 r < E + 1 + 1)%Z; [|lia].
    apply (Qpower_lt_compat_l_inv 2); [|done].
    assert (2 ^ (E + 1) < 2 ^ (E + 1 + 1))%Q by (apply pow2_lt; lia). lra. }
  destruct (Z_le_gt_dec (float_exp emin r) E) as [Hle|Hgt].
  - (* the exponent has not grown *)
    exists (m * 2 ^ (E - float_exp emin r))%Z.
    etransitivity; [exact Hm|].
    rewrite inject_Z_mult, <- pow2_inject by lia.
    unfold float_ulp. rewrite <- Qmult_assoc, <- Qpower_plus by done.
    by replace (E - float_exp emin r + (float_exp emin r - (prec - 1)))%Z
      with (E - (prec - 1))%Z by lia.
  - (* the result is the next power of 2 *)
    assert (Hl : Qlog2 r = (E + 1)%Z) by (unfold float_exp in Hgt; lia).
    assert (He : float_exp emin r = (E + 1)%Z) by (unfold float_exp; lia).
    rewrite Hl in L1.
    assert (Hpow : (2 ^ (E + 1) == inject_Z (2 ^ (prec - 1)) * float_ulp prec emin r)%Q).
    { unfold float_ulp. rewrite He, <- pow2_inject by lia.
      rewrite <- Qpower_plus by done.
      by replace (prec - 1 + (E + 1 - (prec - 1)))%Z with (E + 1)%Z by lia. }
    destruct (Q_dec r 0) as [[Hr0|Hr0]|Hr0]; [| |done].
    + exists (- 2 ^ (prec - 1))%Z. rewrite Qabs_neg in L1, Habs by lra.
      rewrite inject_Z_opp.
      assert (H : (r == - 2 ^ (E + 1))%Q) by lra.
      etransitivity; [exact H|]. rewrite Hpow. ring.
    + exists (2 ^ (prec - 1))%Z. rewrite Qabs_pos in L1, Habs by lra.
      assert (H : (r == 2 ^ (E + 1))%Q) by lra.
      etransitivity; [exact H|]. by rewrite Hpow.
Qed.

(** Rounding a float leaves it as it is. *)
Lemma round_binary_idem (x : Q) :
  (round_binary prec emin (round_binary prec emin x) == round_binary prec emin x)%Q.
Proof.
  destruct (Qeq_dec x 0) as [Hx|Hx].
  { rewrite (round_binary_zero prec emin x Hx).
    by rewrite (round_binary_zero prec emin 0). }
  destruct (Qeq_dec (round_binary prec emin x) 0) as [Hr|Hr].
  { by rewrite (round_binary_zero prec emin _ Hr). }
  destruct (round_binary_multiple x Hx Hr) as [j Hj].
  by apply (round_binary_fixed _ j).
Qed.
End RoundBinaryOrder.

Lemma round_f64_mono (x y : Q) : (x <= y)%Q -> (round_f64 x <= round_f64 y)%Q.
Proof. by apply round_binary_mono. Qed.

Lemma round_f64_idem (x : Q) : (round_f64 (round_f64 x) == round_f64 x)%Q.
Proof. by apply round_binary_idem. Qed.

(** ** [candidate_confidence] *)

Lemma Qnat_pos (n : nat) : 1 <= n -> (0 < Qnat n)%Q.
Proof. intros H. unfold Qnat, Qlt, inject_Z. simpl. lia. Qed.

Lemma Qnat_nonneg (n : nat) : (0 <= Qnat n)%Q.
Proof. unfold Qnat, Qle, inject_Z. simpl. lia. Qed.

Lemma candidate_confidence_fl_exact (results : list detection) :
  candidate_confidence_fl (fun x => x) results = candidate_confidence results.
Proof. reflexivity. Qed.

Section FloatConfidenceProps.
Variable fl : Q -> Q.
(** What the proof uses of the rounding: it keeps the order, leaves a
    float as it is, and 0 and 1 are floats. *)
Hypothesis fl_mono : forall x y : Q, (x <= y)%Q -> (fl x <= fl y)%Q.
Hypothesis fl_idem : forall x : Q, (fl (fl x) == fl x)%Q.
Hypothesis fl_0 : (fl 0 == 0)%Q.
Hypothesis fl_1 : (fl 1 == 1)%Q.

Lemma fl_unit (x : Q) : (0 <= x)%Q -> (x <= 1)%Q -> (0 <= fl x)%Q /\ (fl x <= 1)%Q.
Proof.
  intros H0 H1. pose proof (fl_mono 0 x H0). pose proof (fl_mono x 1 H1).
  split; lra.
Qed.

Lemma candidate_confidence_fl_fold (results : list detection) :
  Forall (fun d => (0 <= det_conf d)%Q /\ (det_conf d <= 1)%Q) results ->
  forall weighted total_w : Q,
  (0 <= weighted)%Q -> (weighted <= total_w)%Q ->
  let '(weighted', total_w') :=
    fold_left
      (fun '(weighted, total_w) '(_, text, conf) =>
         let t := strip text in
         match t with
         | [] => (weighted, total_w)
         | _ =>
             let w := fl (Qnat (Nat.max 1 (length t))) in
             (fl (weighted + fl (fl conf * w)), fl (total_w + w))
         end)
      results (weighted, total_w) in
  (0 <= weighted')%Q /\ (weighted' <= total_w')%Q.
Proof.
  induction 1 as [|[[bbox text] conf] results [Hlo Hhi] _ IH];
    intros weighted total_w H0 H1; [done|].
  cbn [fold_left]. unfold det_conf in Hlo, Hhi. cbn [snd] in Hlo, Hhi.
  destruct (strip text) as [|c t] eqn:E; [by apply IH|]. rewrite <- E. cbv zeta.
  set (n := Qnat (Nat.max 1 (length (strip text)))).
  assert (Hn : (1 <= n)%Q).
  { unfold n, Qnat, Qle, inject_Z. simpl. lia. }
  assert (Hw : (1 <= fl n)%Q) by (pose proof (fl_mono 1 n Hn); lra).
  destruct (fl_unit conf Hlo Hhi) as [Hc0 Hc1].
  assert (Hp0 : (0 <= fl (fl conf * fl n))%Q).
  { assert (A : (0 <= fl conf * fl n)%Q) by nra.
    apply fl_mono in A. lra. }
  assert (Hp1 : (fl (fl conf * fl n) <= fl n)%Q).
  { assert (B : (fl conf * fl n <= fl n)%Q) by nra.
    apply fl_mono in B. pose proof (fl_idem n). lra. }
  apply IH.
  - assert (A : (0 <= weighted + fl (fl conf * fl n))%Q) by lra.
    apply fl_mono in A. lra.
  - apply fl_mono. lra.
Qed.

(** X8. In float arithmetic, for every rounding that keeps the order,
    leaves a float as it is and has 0 and 1 among the floats: when
    every detection has a confidence between 0 and 1, the confidence of
    the candidate lies between 0 and 1. *)
Theorem candidate_confidence_range (results : list detection) :
  Forall (fun d => (0 <= det_conf d)%Q /\ (det_conf d <= 1)%Q) results ->
  (0 <= candidate_confidence_fl fl results)%Q
  /\ (candidate_confidence_fl fl results <= 1)%Q.
Proof.
  intros Hall. unfold candidate_confidence_fl.
  pose proof (candidate_confidence_fl_fold results Hall 0 0) as H.
  destruct (fold_left _ results _) as [weighted total_w].
  destruct H as (H0 & H1); [lra..|].
  destruct (Qleb total_w 0) eqn:E; [split; lra|].
  apply Qleb_false in E. apply fl_unit.
  - apply Qle_shift_div_l; [done|lra].
  - apply Qle_shift_div_r; [done|lra].
Qed.
End FloatConfidenceProps.

(** The theorem for the arithmetic of doubles. *)
Lemma candidate_confidence_range_witness :
  (0 <= candidate_confidence_fl round_f64
          [([], lit "abc", 0.1%Q); ([], lit "cd", 0.7%Q)])%Q
  /\ (candidate_confidence_fl round_f64
        [([], lit "abc", 0.1%Q); ([], lit "cd", 0.7%Q)] <= 1)%Q.
Proof.
  apply (candidate_confidence_range round_f64).
  - exact round_f64_mono.
  - exact round_f64_idem.
  - vm_compute. reflexivity.
  - vm_compute. reflexivity.
  - repeat constructor; vm_compute; discriminate.
Defined.

(** The bounds 0 and 1 are floats; a bound that is not need not hold.
    In doubles, one detection of ["abc"] with the confidence 0.1 gives
    [0.1 * 3.0 / 3.0], which is above the double 0.1. *)
Lemma candidate_confidence_fl_above :
  (round_f64 0.1 < candidate_confidence_fl round_f64 [([], lit "abc", 0.1%Q)])%Q.
Proof. vm_compute. reflexivity. Qed.

(** ** [pattern_score] *)

(** X15. No string scores higher than the canonical token, which earns
    every bonus: 11.2 is the greatest value of [pattern_score]. *)
Theorem pattern_score_max (text : str) :
  (pattern_score text <= pattern_score token)%Q.
Proof.
  rewrite pattern_score_token. unfold pattern_score.
  destruct text as [|c0 t0]; [done|]. cbv beta iota zeta.
  set (t := c0 :: t0).
  pose proof (Qnat_nonneg (length t - 18)) as H18.
  pose proof (Qnat_nonneg (8 - length t)) as H8.
  set (q18 := Qnat (length t - 18)) in *. set (q8 := Qnat (8 - length t)) in *.
  repeat match goal with |- context [if ?b then _ else _] => destruct b end; lra.
Qed.

(** ** [best_text_window] *)

(** What the scan of a non-empty text returns: the text itself, or one
    of the windows it visited, scored with its own length; and no
    visited window scores more than [1e-6] above it. *)
Lemma scan_windows_result (text : str) :
  text <> [] ->
  (fst (scan_windows text) = text
   \/ exists i len, 12 <= len <= 18 /\ i + len <= length text
        /\ fst (scan_windows text) = take len (drop i text))
  /\ snd (scan_windows text)
     = window_score (fst (scan_windows text)) (length (fst (scan_windows text)))
  /\ forall i len, In (len, i) (window_pairs (length text)) ->
       (window_score (take len (drop i text)) len <= snd (scan_windows text) + 1e-6)%Q.
Proof.
  intros Hne.
  assert (Hn : 1 <= length text) by (destruct text; [done|simpl; lia]).
  destruct (fold_keep_better_inv (map (window_at text) (window_pairs (length text)))
              (text, window_score text (length text))) as (_ & Hall & Hres).
  fold (scan_windows text) in Hall, Hres.
  split; [|split].
  - destruct Hres as [->|Hres]; [by left|].
    apply in_map_iff in Hres as ([wl i] & <- & Hin).
    apply in_window_pairs in Hin as [Hwl Hi]; [|done].
    unfold window_at. cbn [fst snd].
    destruct (12 <=? length text) eqn:E;
      [apply Nat.leb_le in E|apply Nat.leb_gt in E].
    + right. exists i, wl. repeat split; [lia..|done].
    + left. assert (wl = length text) as -> by lia.
      assert (i = 0) as -> by lia. by rewrite drop_0, firstn_all.
  - destruct Hres as [->|Hres]; [done|].
    apply in_map_iff in Hres as ([wl i] & <- & Hin).
    apply in_window_pairs in Hin as [Hwl Hi]; [|done].
    unfold window_at. cbn [fst snd]. rewrite length_take, length_drop.
    f_equal. lia.
  - intros i len Hin.
    apply (Hall (window_at text (len, i))), in_map_iff. by exists (len, i).
Qed.

(** X16. The result is the sanitized text or a contiguous window of 12 to 18
    characters of it; a sanitized text of at most 12 characters is
    returned whole. *)
Theorem best_text_window_window (s : str) :
  (best_text_window s = sanitize_text s
   \/ exists i len, 12 <= len <= 18 /\ i + len <= length (sanitize_text s)
        /\ best_text_window s = take len (drop i (sanitize_text s)))
  /\ (length (sanitize_text s) <= 12 -> best_text_window s = sanitize_text s).
Proof.
  rewrite best_text_window_scan.
  destruct (sanitize_text s) as [|c t] eqn:E; [split; [by left|done]|].
  rewrite <- E. assert (Hne : sanitize_text s <> []) by (by rewrite E).
  destruct (scan_windows_result _ Hne) as (Hres & _ & _).
  split; [done|]. intros Hlen.
  destruct Hres as [Hres|(i & len & Hl & Hi & Hres)]; [done|].
  rewrite Hres. assert (len = length (sanitize_text s)) as -> by lia.
  assert (i = 0) as -> by lia. by rewrite drop_0, firstn_all.
Qed.

(** X17. No window of 12 to 18 characters of the sanitized text scores more
    than [1e-6] above the returned text. *)
Theorem best_text_window_best (s : str) (i len : nat) :
  12 <= len <= 18 -> i + len <= length (sanitize_text s) ->
  (window_score (take len (drop i (sanitize_text s))) len
   <= window_score (best_text_window s) (length (best_text_window s)) + 1e-6)%Q.
Proof.
  intros Hl Hi. rewrite best_text_window_scan.
  destruct (sanitize_text s) as [|c t] eqn:E; [simpl in Hi; lia|].
  rewrite <- E in *. assert (Hne : sanitize_text s <> []) by (by rewrite E).
  destruct (scan_windows_result _ Hne) as (_ & Hsc & Hall).
  rewrite <- Hsc. apply Hall. apply in_window_pairs; [lia|].
  destruct (12 <=? length (sanitize_text s)) eqn:E'; [|apply Nat.leb_gt in E']; lia.
Qed.

Lemma best_text_window_best_witness :
  (window_score (take 12 (drop 1 (sanitize_text (lit "xT3*1-B?+AcJ3@_9L")))) 12
   <= window_score (best_text_window (lit "xT3*1-B?+AcJ3@_9L"))
        (length (best_text_window (lit "xT3*1-B?+AcJ3@_9L"))) + 1e-6)%Q.
Proof.
  apply (best_text_window_best (lit "xT3*1-B?+AcJ3@_9L") 1 12); vm_compute; lia.
Defined.

(** ** [normalize_ocr_text] *)

Lemma sanitize_text_sublist (s : str) : sublist (sanitize_text s) s.
Proof.
  rewrite sanitize_text_filter. induction s as [|c s IH]; simpl; [done|].
  destruct (allowed c); [by apply sublist_skip|by apply sublist_cons].
Qed.

Lemma replace_double_underscore_sublist (s : str) :
  sublist (replace_double_underscore s) s.
Proof.
  induction s as [|c|c1 c2 s IH1 IH2] using str_pair_ind; [done..|].
  rewrite replace_double_underscore_cons2.
  destruct (Ascii.eqb c1 "_" && Ascii.eqb c2 "_") eqn:E.
  - apply andb_true_iff in E as [->%Ascii.eqb_eq _].
    by apply sublist_skip, sublist_cons.
  - by apply sublist_skip.
Qed.

Lemma collapse_underscores_sublist (fuel : nat) (s : str) :
  sublist (collapse_underscores fuel s) s.
Proof.
  revert s. induction fuel as [|fuel IH]; intros s; simpl; [done|].
  destruct (has_double_underscore s); [|done].
  etrans; [apply IH|apply replace_double_underscore_sublist].
Qed.

(** X10. The normalized text holds only characters of the allowlist and no
    ["__"], and it is made by deleting characters of the text: its
    characters are characters of the text, in the same order. *)
Theorem normalize_ocr_text_clean (s : str) :
  forallb allowed (normalize_ocr_text s) = true
  /\ has_double_underscore (normalize_ocr_text s) = false
  /\ sublist (normalize_ocr_text s) s.
Proof.
  split; [apply normalize_ocr_text_allowed|].
  split; [apply normalize_ocr_text_no_double|].
  unfold normalize_ocr_text.
  pose proof (sanitize_text_sublist s) as Hs.
  destruct (sanitize_text s) as [|c t] eqn:E; [done|]. rewrite <- E in *.
  etrans; [apply collapse_underscores_sublist|done].
Qed.

Lemma normalize_ocr_text_fixed (s : str) :
  forallb allowed s = true -> has_double_underscore s = false ->
  normalize_ocr_text s = s.
Proof.
  intros Hal Hdu. unfold normalize_ocr_text.
  rewrite (sanitize_text_fixed s Hal).
  destruct s eqn:E; [done|]. rewrite <- E in *.
  by apply collapse_underscores_fixed.
Qed.

(** X11. The texts that normalization leaves as they are are exactly the
    texts over the allowlist that hold no ["__"]. *)
Theorem normalize_ocr_text_fixed_points (s : str) :
  normalize_ocr_text s = s
  <-> forallb allowed s = true /\ has_double_underscore s = false.
Proof.
  split.
  - intros <-. split; [apply normalize_ocr_text_allowed|apply normalize_ocr_text_no_double].
  - intros [Hal Hdu]. by apply normalize_ocr_text_fixed.
Qed.

(** ** The gamma cache *)

Section GammaTables.
Variable image : Type.
Variable mean_luminance : image -> Q.
Variable float_pow : Q -> Q -> Q.
Variable cv_LUT : image -> list Z -> image.

Abbreviation apply_gamma' := (apply_gamma_correction image mean_luminance float_pow cv_LUT).
Abbreviation calls' := (gamma_calls image mean_luminance float_pow cv_LUT).

Lemma choose_gamma_same_key (m1 m2 : Q) (g1 g2 : Q) :
  choose_gamma m1 = Some g1 -> choose_gamma m2 = Some g2 ->
  Q2Qc g1 = Q2Qc g2 -> g1 = g2.
Proof.
  unfold choose_gamma. intros H1 H2 Hk. apply (f_equal this) in Hk. revert H1 H2 Hk.
  repeat match goal with |- context [if ?b then _ else _] => destruct b end;
    intros [= <-] [= <-]; try done; vm_compute; discriminate.
Qed.

Lemma apply_gamma_correction_sound (cache : gmap Qc (list Z)) (crop : image) :
  tables_sound float_pow cache ->
  tables_sound float_pow (apply_gamma' cache crop).1
  /\ cache ⊆ (apply_gamma' cache crop).1
  /\ (apply_gamma' cache crop).2
     = match choose_gamma (mean_luminance crop) with
       | None => crop
       | Some gamma => cv_LUT crop (gamma_lut float_pow gamma)
       end.
Proof.
  intros Hs. unfold apply_gamma_correction.
  destruct (choose_gamma (mean_luminance crop)) as [gamma|] eqn:E; cbn [fst snd];
    [|done].
  destruct (cache !! Q2Qc gamma) as [t|] eqn:Ec; cbn [fst snd].
  - split; [done|]. split; [done|]. f_equal.
    rewrite (lookup_total_correct _ _ _ Ec). by apply (Hs (mean_luminance crop)).
  - split; [|split].
    + intros m g t Hg Ht.
      destruct (decide (Q2Qc gamma = Q2Qc g)) as [Hk|Hk].
      * rewrite <- Hk, lookup_insert_eq in Ht. injection Ht as <-.
        by rewrite (choose_gamma_same_key _ _ _ _ E Hg Hk).
      * rewrite lookup_insert_ne in Ht by done. by apply (Hs m).
    + by apply insert_subseteq.
    + by rewrite lookup_total_insert_eq.
Qed.

Lemma gamma_calls_sound (crops : list image) : forall cache : gmap Qc (list Z),
  tables_sound float_pow cache -> tables_sound float_pow (calls' crops cache).
Proof.
  induction crops as [|crop crops IH]; intros cache Hs; simpl; [done|].
  apply IH. by apply apply_gamma_correction_sound.
Qed.

(** X7. The cache cannot be seen from outside: after any sequence of calls
    from the empty cache, a call returns the crop mapped through the
    table of its gamma, computed afresh, or the crop itself when no
    gamma applies; and a call never removes or replaces a table of the
    cache. *)
Theorem gamma_cache_transparent (crops : list image) (crop : image) :
  (apply_gamma' (calls' crops ∅) crop).2
  = match choose_gamma (mean_luminance crop) with
    | None => crop
    | Some gamma => cv_LUT crop (gamma_lut float_pow gamma)
    end
  /\ forall cache : gmap Qc (list Z), cache ⊆ (apply_gamma' cache crop).1.
Proof.
  split.
  - apply apply_gamma_correction_sound, gamma_calls_sound.
    intros m g t _ Ht. by rewrite lookup_empty in Ht.
  - intros cache. unfold apply_gamma_correction.
    destruct (choose_gamma (mean_luminance crop)) as [gamma|]; cbn [fst]; [|done].
    destruct (cache !! Q2Qc gamma) eqn:Ec; [done|]. by apply insert_subseteq.
Qed.
End GammaTables.

(** ** [combine_tokens] *)

Lemma max_from_In {A K : Type} (ltb : K -> K -> bool) (key : A -> K) (xs : list A) :
  forall x, In (max_from ltb key x xs) (x :: xs).
Proof.
  unfold max_from. induction xs as [|y xs IH]; intros x; [by left|].
  cbn [fold_left]. destruct (ltb (key x) (key y)).
  - right. apply IH.
  - destruct (IH x) as [H|H]; [by left|by right; right].
Qed.

Lemma py_max_by_In {A K : Type} (ltb : K -> K -> bool) (key : A -> K) (xs : list A)
    (x : A) :
  py_max_by ltb key xs = Some x -> In x xs.
Proof. destruct xs as [|y xs]; [done|]. intros [= <-]. apply max_from_In. Qed.

Lemma insert_asc_perm {A : Type} (key : A -> Q) (x : A) (l : list A) :
  Permutation (insert_asc key x l) (x :: l).
Proof.
  induction l as [|y l IH]; simpl; [done|].
  destruct (Qltb (key y) (key x)); [|done].
  rewrite IH. apply perm_swap.
Qed.

Lemma sorted_asc_perm {A : Type} (key : A -> Q) (l : list A) :
  Permutation (sorted_asc key l) l.
Proof.
  induction l as [|x l IH]; simpl; [done|].
  rewrite insert_asc_perm. by constructor.
Qed.

Lemma token_of_skipped (d : detection) : token_of d = Some None <-> skipped d.
Proof.
  destruct d as [[bbox text] conf]. unfold token_of, skipped.
  destruct (strip text) as [|c t]; [by split; [left|]|].
  destruct (Qltb conf 0.2) eqn:E.
  - apply Qltb_true in E. split; [by right|done].
  - apply Qltb_false in E. split.
    + by destruct (map fst bbox), (map snd bbox).
    + intros [?|?]; [done|lra].
Qed.

Lemma token_of_text (d : detection) (tok : text_token) :
  token_of d = Some (Some tok) -> tok_text tok <> [].
Proof.
  destruct d as [[bbox text] conf]. unfold token_of.
  destruct (strip text) as [|c t]; [done|].
  destruct (Qltb conf 0.2); [done|].
  destruct (map fst bbox), (map snd bbox); try done.
  by intros [= <-].
Qed.

Lemma collect_tokens_spec (results : list detection) (toks : list text_token) :
  collect_tokens results = Some toks ->
  Forall (fun tok => tok_text tok <> []) toks
  /\ (toks = [] <-> Forall skipped results).
Proof.
  revert toks. induction results as [|d results IH]; intros toks.
  - intros [= <-]. by repeat split.
  - cbn [collect_tokens]. destruct (token_of d) as [[tok|]|] eqn:E; [| |done].
    + destruct (collect_tokens results) as [toks'|]; [|done]. intros [= <-].
      destruct (IH toks' eq_refl) as [Hall _]. split.
      * constructor; [by apply (token_of_text d)|done].
      * split; [done|]. intros [Hd _]%Forall_cons.
        apply token_of_skipped in Hd. congruence.
    + intros H. destruct (IH toks H) as [Hall Hiff]. split; [done|].
      rewrite Forall_cons, <- Hiff. apply token_of_skipped in E. tauto.
Qed.

Lemma add_to_rows_full (row_tol : Q) (rows : list (list text_token)) (tok : text_token) :
  tok_text tok <> [] -> rows_full rows ->
  rows_full (add_to_rows row_tol rows tok) /\ add_to_rows row_tol rows tok <> [].
Proof.
  intros Htok Hrows. unfold add_to_rows.
  assert (Hnew : rows_full [[tok]]) by (by repeat constructor).
  destruct (rev rows) as [|last_row before] eqn:Er; [done|].
  assert (Hrows' : rows = rev before ++ [last_row]).
  { by rewrite <- (rev_involutive rows), Er. }
  assert (Happ : rows_full (rows ++ [[tok]]) /\ rows ++ [[tok]] <> []).
  { split; [by apply Forall_app|]. by destruct rows. }
  destruct (last last_row); [|done].
  destruct (Qleb _ row_tol); [|done].
  rewrite Hrows' in Hrows. apply Forall_app in Hrows as [Hb Hl].
  apply Forall_cons in Hl as [[_ Hl] _]. split.
  - apply Forall_app. split; [done|]. constructor; [|done]. split.
    + by destruct last_row.
    + apply Forall_app. split; [done|by constructor].
  - by destruct (rev before).
Qed.

Lemma fold_add_to_rows_full (row_tol : Q) (toks : list text_token) :
  forall rows : list (list text_token),
  Forall (fun tok => tok_text tok <> []) toks -> rows_full rows ->
  rows_full (fold_left (add_to_rows row_tol) toks rows)
  /\ (toks <> [] \/ rows <> [] -> fold_left (add_to_rows row_tol) toks rows <> []).
Proof.
  induction toks as [|tok toks IH]; intros rows Htoks Hrows.
  - split; [done|]. by intros [?|?].
  - apply Forall_cons in Htoks as [Htok Htoks]. cbn [fold_left].
    destruct (add_to_rows_full row_tol rows tok Htok Hrows) as [Hfull Hne].
    destruct (IH _ Htoks Hfull) as [H1 H2]. split; [done|].
    intros _. apply H2. by right.
Qed.

Lemma combine_tokens_nil_iff (results : list detection) :
  combine_tokens results = Some [] <-> Forall skipped results.
Proof.
  unfold combine_tokens.
  destruct (collect_tokens results) as [toks|] eqn:E.
  - destruct (collect_tokens_spec results toks E) as [Htoks Hiff].
    destruct toks as [|tok0 toks0]; [by rewrite <- Hiff|].
    rewrite <- Hiff. split; [|done]. intros H. exfalso.
    apply (inj Some) in H. revert H. cbv zeta.
    set (tokens := sorted_asc tok_cy (tok0 :: toks0)).
    assert (Htokens : Forall (fun tok => tok_text tok <> []) tokens).
    { unfold tokens. by rewrite sorted_asc_perm. }
    assert (Hne : tokens <> []).
    { intros H. pose proof (sorted_asc_perm tok_cy (tok0 :: toks0)) as Hp.
      fold tokens in Hp. rewrite H in Hp. by apply Permutation_nil in Hp. }
    set (row_tol := Qmax2 _ _).
    destruct (fold_add_to_rows_full row_tol tokens [] Htokens) as [Hfull Hrows];
      [constructor|].
    specialize (Hrows (or_introl Hne)).
    set (rows := fold_left (add_to_rows row_tol) tokens []) in *.
    destruct (py_max_by row_key_ltb row_key rows) as [best_row|] eqn:Eb;
      [|by destruct rows].
    apply py_max_by_In in Eb. unfold rows_full in Hfull.
    rewrite Forall_forall in Hfull.
    destruct (Hfull best_row) as [Hb Hall]; [by apply list_elem_of_In|].
    cbn [default from_option]. unfold id.
    pose proof (sorted_asc_perm tok_x0 best_row) as Hp.
    destruct (sorted_asc tok_x0 best_row) as [|tok row] eqn:Es.
    { by apply Permutation_nil in Hp. }
    rewrite <- Hp in Hall. apply Forall_cons in Hall as [Htok _].
    cbn [map concat]. intros H. by apply app_eq_nil in H as [H _].
  - split; [done|]. intros Hall. exfalso. revert E. clear -Hall.
    induction Hall as [|d results Hd _ IH]; [done|].
    cbn [collect_tokens]. apply token_of_skipped in Hd. by rewrite Hd.
Qed.

Lemma token_of_defined (d : detection) :
  token_of d <> None <-> skipped d \/ boxed d.
Proof.
  destruct d as [[bbox text] conf]. unfold token_of, skipped, boxed. cbn [fst].
  destruct (strip text) as [|c t]; [split; [by left; left|done]|].
  destruct (Qltb conf 0.2) eqn:E.
  - apply Qltb_true in E. split; [by left; right|done].
  - apply Qltb_false in E. destruct bbox as [|p bbox]; cbn [map].
    + split; [done|]. intros [[?|?]|?]; [done|lra|done].
    + split; [by right|done].
Qed.

Lemma collect_tokens_defined (results : list detection) :
  (exists toks, collect_tokens results = Some toks)
  <-> Forall (fun d => skipped d \/ boxed d) results.
Proof.
  induction results as [|d results IH].
  - split; [by constructor|by exists []].
  - rewrite Forall_cons, <- IH, <- token_of_defined. cbn [collect_tokens].
    destruct (token_of d) as [[tok|]|].
    + destruct (collect_tokens results) as [toks|]; cbn.
      * split; [by split; [|exists toks]|by eexists].
      * split; [by intros [? ?]|by intros [_ [? ?]]].
    + split; [by split|by intros [_ ?]].
    + split; [by intros [? ?]|by intros [? _]].
Qed.

(** X9. [combine_tokens] returns a string, and raises no error,
    exactly when every detection that its first loop does not skip
    (the loop skips a blank text and a confidence below 0.2) has a
    point in its box; and the string it returns is empty exactly when
    the loop skips every detection. So one detection that is not
    skipped, with no empty box among those kept, gives a string that is
    not empty. *)
Theorem combine_tokens_empty (results : list detection) :
  ((exists s, combine_tokens results = Some s)
   <-> Forall (fun d => skipped d \/ boxed d) results)
  /\ (forall s, combine_tokens results = Some s ->
      (s = [] <-> Forall skipped results))
  /\ (Forall (fun d => skipped d \/ boxed d) results ->
      ~ Forall skipped results ->
      exists s, combine_tokens results = Some s /\ s <> []).
Proof.
  assert (Hdef : (exists s, combine_tokens results = Some s)
                 <-> Forall (fun d => skipped d \/ boxed d) results).
  { rewrite <- collect_tokens_defined. unfold combine_tokens.
    destruct (collect_tokens results) as [[|tok0 toks0]|].
    - split; by eexists.
    - split; by eexists.
    - split; by intros [? ?]. }
  assert (Hnil : forall s, combine_tokens results = Some s ->
                 (s = [] <-> Forall skipped results)).
  { intros s Hs. rewrite <- combine_tokens_nil_iff, Hs.
    split; [by intros ->|by intros [= ->]]. }
  split; [done|]. split; [done|].
  intros Hall Hsome. apply Hdef in Hall as [s Hs]. exists s. split; [done|].
  intros ->. by apply Hsome, (Hnil []).
Qed.

(** One detection that is kept, and one that is skipped for its
    confidence. *)
Lemma combine_tokens_empty_witness :
  exists s,
    combine_tokens [([(0, 0); (9, 0); (9, 5); (0, 5)], lit " T3*1 ", 0.9);
                    ([], lit "x", 0.1)]%Q = Some s
    /\ s <> [].
Proof.
  apply (proj2 (proj2 (combine_tokens_empty
           [([(0, 0); (9, 0); (9, 5); (0, 5)], lit " T3*1 ", 0.9);
            ([], lit "x", 0.1)]%Q))).
  - constructor; [right; discriminate|].
    constructor; [left; right; reflexivity|constructor].
  - intros [H _]%Forall_cons. destruct H as [H|H]; [discriminate H|].
    vm_compute in H. discriminate H.
Defined.

(** ** [align_to_reference] *)

(** The walk over the back pointers only writes characters of [text]
    into [aligned], and keeps its length. *)
Lemma align_walk_inv (text : str) (back : table) (fuel : nat) :
  forall (aligned : list (option ascii)) (i j : nat),
  j <= length text ->
  length (align_walk fuel text back aligned i j) = length aligned
  /\ forall k ch, align_walk fuel text back aligned i j !! k = Some (Some ch) ->
       aligned !! k = Some (Some ch) \/ In ch text.
Proof.
  induction fuel as [|fuel IH]; intros aligned i j Hj; cbn [align_walk]; [by split; [|left]|].
  destruct ((0 <? i) || (0 <? j)); [|by split; [|left]].
  destruct (i =? 0); [apply IH; lia|].
  destruct (j =? 0) eqn:Ej; [apply IH; lia|]. apply Nat.eqb_neq in Ej.
  destruct (get2 back i j =? 0); [|destruct (get2 back i j =? 1); apply IH; lia].
  destruct (IH (<[i - 1 := Some (text !!! (j - 1))]> aligned) (i - 1) (j - 1))
    as [Hlen Hch]; [lia|].
  rewrite length_insert in Hlen. split; [done|].
  intros k ch Hk. destruct (Hch k ch Hk) as [Hins|Hin]; [|by right].
  destruct (decide (k = i - 1)) as [->|Hne].
  - apply list_lookup_insert_Some in Hins as [(_ & [= <-] & _)|[? _]]; [|done].
    right. apply list_elem_of_In, list_elem_of_lookup_total_2. lia.
  - rewrite list_lookup_insert_ne in Hins by done. by left.
Qed.

(** X12. The alignment has one entry for every character of the reference,
    and an entry that is not [None] is a character of the text. *)
Theorem align_to_reference_shape (reference text : str) :
  length (align_to_reference reference text) = length reference
  /\ forall k ch, align_to_reference reference text !! k = Some (Some ch) -> In ch text.
Proof.
  unfold align_to_reference.
  destruct (length reference =? 0) eqn:Em.
  { apply Nat.eqb_eq in Em. rewrite Em. split; [done|]. by intros k ch. }
  destruct (length text =? 0) eqn:En.
  { rewrite length_replicate. split; [done|]. intros k ch Hk.
    apply lookup_replicate in Hk as [? _]. done. }
  cbv zeta.
  repeat match goal with
         | |- context [let '(_, _) := ?p in _] => destruct p
         end.
  match goal with
  | |- context [align_walk ?f ?t ?b ?a ?i ?j] =>
      destruct (align_walk_inv t b f a i j) as [Hlen Hch]; [done|]
  end.
  rewrite length_replicate in Hlen. split; [done|].
  intros k ch Hk. destruct (Hch k ch Hk) as [Hrep|Hin]; [|done].
  apply lookup_replicate in Hrep as [? _]. done.
Qed.

Lemma get2_set2_eq (m n : nat) (t : table) (i j v : nat) :
  table_sized m n t -> i <= m -> j <= n -> get2 (set2 t i j v) i j = v.
Proof.
  intros [Hlen Hrow] Hi Hj. unfold table_sized, get2, set2, table in *.
  rewrite list_lookup_total_insert_eq by lia.
  apply list_lookup_total_insert_eq. rewrite Hrow by done. lia.
Qed.

Lemma get2_set2_ne (t : table) (i j v i' j' : nat) :
  (i, j) <> (i', j') -> get2 (set2 t i j v) i' j' = get2 t i' j'.
Proof.
  intros Hne. unfold get2, set2, table in *.
  destruct (decide (i = i')) as [<-|Hi].
  - destruct (decide (i < length t)) as [Hlt|Hge].
    + rewrite list_lookup_total_insert_eq by done.
      apply list_lookup_total_insert_ne. congruence.
    + by rewrite list_insert_ge by lia.
  - by rewrite list_lookup_total_insert_ne.
Qed.

Lemma set2_sized (m n : nat) (t : table) (i j v : nat) :
  table_sized m n t -> table_sized m n (set2 t i j v).
Proof.
  intros [Hlen Hrow]. unfold table_sized, set2, table in *. split; [by rewrite length_insert|].
  intros i' Hi'. destruct (decide (i = i')) as [<-|Hne].
  - rewrite list_lookup_total_insert_eq by lia. rewrite length_insert. by apply Hrow.
  - rewrite list_lookup_total_insert_ne by done. by apply Hrow.
Qed.

Lemma replicate_sized (m n : nat) : table_sized m n (replicate (m + 1) (replicate (n + 1) 0)).
Proof.
  unfold table_sized, table. split; [by rewrite length_replicate|]. intros i Hi.
  rewrite lookup_total_replicate_2 by lia. by rewrite length_replicate.
Qed.

Lemma fold_left_preserves {A B : Type} (P : A -> Prop) (f : A -> B -> A) (l : list B) :
  forall a : A,
  (forall a' x, In x l -> P a' -> P (f a' x)) -> P a -> P (fold_left f l a).
Proof.
  induction l as [|x l IH]; intros a Hf Ha; [done|]. cbn [fold_left].
  apply IH; [intros a' y Hy; apply Hf; by right|]. apply Hf; [by left|done].
Qed.

Lemma init_ok_set2 (m n : nat) (dp back : table) (i j v w : nat) :
  (i, j) <> (0, 0) -> init_ok m n (dp, back) ->
  init_ok m n (set2 dp i j v, set2 back i j w).
Proof.
  intros Hne (Hdp & Hback & Hd). split; [by apply set2_sized|].
  split; [by apply set2_sized|]. split; cbn [fst snd]; [|lia].
  rewrite get2_set2_ne by done. apply Hd.
Qed.

Section SelfAlignment.
Variable s : str.
Variable m : nat.
Hypothesis Hm : m = length s.

(** One cell of the fill, on the tables of [s] against itself. *)
Lemma align_cell_diag (i j : nat) (st : table * table) :
  1 <= i <= m -> 1 <= j <= m ->
  table_sized m m (fst st) -> table_sized m m (snd st) ->
  diag_ok (i - 1) st ->
  table_sized m m (fst (align_cell s s i st j))
  /\ table_sized m m (snd (align_cell s s i st j))
  /\ (forall d, (d, d) <> (i, j) -> diag_ok d st -> diag_ok d (align_cell s s i st j))
  /\ (i = j -> diag_ok i (align_cell s s i st j)).
Proof.
  intros Hi Hj Hdp Hback Hd. destruct st as [dp back]. unfold align_cell.
  cbv zeta. cbn [fst snd] in *.
  repeat match goal with
         | |- context [let '(_, _) := ?p in _] =>
             let b := fresh "best" in let o := fresh "op" in
             let E := fresh "E" in destruct p as [b o] eqn:E
         end.
  cbn [fst snd]. split; [by apply set2_sized|]. split; [by apply set2_sized|]. split.
  - intros d Hne [H1 H2]. split; cbn [fst snd] in *.
    + by rewrite get2_set2_ne by congruence.
    + intros Hd1. rewrite get2_set2_ne by congruence. by apply H2.
  - intros <-. destruct Hd as [Hd _]. cbn [fst] in Hd. rewrite Hd in *.
    rewrite Ascii.eqb_refl in *. cbn [Nat.add] in *.
    assert (best = 0 /\ op = 0) as [-> ->].
    { rewrite (proj2 (Nat.ltb_ge _ 0)) in E by lia. split; congruence. }
    assert (best0 = 0 /\ op0 = 0) as [-> ->].
    { rewrite (proj2 (Nat.ltb_ge _ 0)) in E0 by lia. split; congruence. }
    split; cbn [fst snd]; [|intros _]; apply (get2_set2_eq m m); (done || lia).
Qed.

(** One row of the fill. *)
Lemma align_row_diag (i : nat) (cols : nat) : forall st : table * table,
  1 <= i <= m -> cols <= m ->
  table_sized m m (fst st) -> table_sized m m (snd st) ->
  (forall d, d < i -> diag_ok d st) ->
  let st' := fold_left (align_cell s s i) (seq 1 cols) st in
  table_sized m m (fst st') /\ table_sized m m (snd st')
  /\ (forall d, d < i -> diag_ok d st')
  /\ (i <= cols -> diag_ok i st').
Proof.
  induction cols as [|cols IH]; intros st Hi Hc Hdp Hback Hd.
  - cbn [seq fold_left]. split; [done|]. split; [done|]. split; [done|lia].
  - rewrite seq_S, fold_left_app. cbn [fold_left Nat.add].
    destruct (IH st) as (Hdp' & Hback' & Hd' & Hdi); [done|lia|done..|].
    set (st1 := fold_left (align_cell s s i) (seq 1 cols) st) in *.
    destruct (align_cell_diag i (S cols) st1) as (H1 & H2 & H3 & H4);
      [done|lia|done|done|apply Hd'; lia|].
    split; [done|]. split; [done|]. split.
    + intros d Hlt. apply H3; [intros [= ]; lia|by apply Hd'].
    + intros Hle. destruct (decide (i = S cols)) as [->|Hne]; [by apply H4|].
      apply H3; [intros [= ]; lia|apply Hdi; lia].
Qed.

(** All the rows of the fill. *)
Lemma align_rows_diag (rows : nat) : forall st : table * table,
  rows <= m ->
  table_sized m m (fst st) -> table_sized m m (snd st) -> diag_ok 0 st ->
  let st' :=
    fold_left (fun st i => fold_left (align_cell s s i) (seq 1 m) st) (seq 1 rows) st in
  table_sized m m (fst st') /\ table_sized m m (snd st')
  /\ forall d, d <= rows -> diag_ok d st'.
Proof.
  induction rows as [|rows IH]; intros st Hr Hdp Hback Hd.
  - cbn [seq fold_left]. split; [done|]. split; [done|].
    intros d Hd0. by assert (d = 0) as -> by lia.
  - rewrite seq_S, fold_left_app. cbn [fold_left Nat.add].
    destruct (IH st) as (Hdp' & Hback' & Hd'); [lia|done..|].
    set (st1 := fold_left _ (seq 1 rows) st) in *.
    destruct (align_row_diag (S rows) m st1) as (H1 & H2 & H3 & H4);
      [lia|done|done|done|intros d Hlt; apply Hd'; lia|].
    split; [done|]. split; [done|].
    intros d Hle. destruct (decide (d = S rows)) as [->|Hne]; [apply H4; lia|].
    apply H3. lia.
Qed.

(** The walk down the diagonal. *)
Lemma align_walk_diag (back : table) (k : nat) : forall (fuel : nat) (aligned : list (option ascii)),
  (forall d, 1 <= d <= k -> get2 back d d = 0) ->
  k <= fuel -> k <= m -> length aligned = m ->
  align_walk fuel s back aligned k k
  = map Some (take k s) ++ drop k aligned.
Proof.
  induction k as [|k IH]; intros fuel aligned Hback Hfuel Hk Hlen.
  - rewrite take_0, drop_0. by destruct fuel.
  - destruct fuel as [|fuel]; [lia|]. cbn [align_walk].
    replace (0 <? S k) with true by (symmetry; apply Nat.ltb_lt; lia).
    cbn [orb Nat.eqb]. rewrite Hback by lia. cbn [Nat.eqb].
    replace (S k - 1) with k by lia.
    rewrite IH; [|intros d Hd; apply Hback; lia|lia|lia|by rewrite length_insert].
    rewrite (take_S_r s k (s !!! k)).
    2:{ apply list_lookup_lookup_total_lt. lia. }
    rewrite map_app, <- app_assoc. f_equal. cbn [map app].
    rewrite (drop_S (<[k:=Some (s !!! k)]> aligned) (Some (s !!! k)) k).
    2:{ apply list_lookup_insert_eq. lia. }
    f_equal. by rewrite drop_insert_lt by lia.
Qed.

Lemma align_to_reference_diag : align_to_reference s s = map Some s.
Proof.
  unfold align_to_reference. rewrite <- Hm.
  destruct (m =? 0) eqn:Em.
  { apply Nat.eqb_eq in Em. rewrite Em in Hm. by destruct s. }
  apply Nat.eqb_neq in Em. cbv zeta.
  pose proof (replicate_sized m m) as Hsz.
  set (t0 := replicate (m + 1) (replicate (m + 1) 0)) in *.
  assert (Hd0 : diag_ok 0 (t0, t0)).
  { split; [|lia]. cbn [fst]. unfold get2, t0, table.
    rewrite lookup_total_replicate_2 by lia. by rewrite lookup_total_replicate_2 by lia. }
  assert (H0 : init_ok m m (t0, t0)) by done.
  match goal with
  | |- context [fold_left ?f (seq 1 m) (t0, t0)] =>
      assert (H1 : init_ok m m (fold_left f (seq 1 m) (t0, t0)));
        [|destruct (fold_left f (seq 1 m) (t0, t0)) as [dp1 back1]]
  end.
  { apply fold_left_preserves; [|done]. intros [dp back] i Hi%in_seq Hok.
    apply init_ok_set2; [intros [= ]; lia|done]. }
  match goal with
  | |- context [fold_left ?f (seq 1 m) (dp1, back1)] =>
      assert (H2 : init_ok m m (fold_left f (seq 1 m) (dp1, back1)));
        [|destruct (fold_left f (seq 1 m) (dp1, back1)) as [dp2 back2]]
  end.
  { apply fold_left_preserves; [|done]. intros [dp back] i Hi%in_seq Hok.
    apply init_ok_set2; [intros [= ]; lia|done]. }
  destruct H2 as (Hdp2 & Hback2 & Hd2).
  match goal with
  | |- context [fold_left ?f (seq 1 m) (dp2, back2)] =>
      assert (H3 : forall d, d <= m -> diag_ok d (fold_left f (seq 1 m) (dp2, back2)));
        [|destruct (fold_left f (seq 1 m) (dp2, back2)) as [dp3 back3]]
  end.
  { by apply (align_rows_diag m (dp2, back2)). }
  rewrite align_walk_diag;
    [|intros d Hd; destruct (H3 d) as [_ H]; [lia|apply H; lia]
     |lia|done|by rewrite length_replicate].
  rewrite drop_ge by (rewrite length_replicate; lia).
  rewrite app_nil_r. by rewrite take_ge by lia.
Qed.
End SelfAlignment.

(** X13. Aligning a string with itself pairs every character with itself:
    no character is left unmatched. *)
Theorem align_to_reference_self (s : str) : align_to_reference s s = map Some s.
Proof.
  destruct s as [|c s'] eqn:E; [reflexivity|]. rewrite <- E.
  apply (align_to_reference_diag s (length s)). reflexivity.
Qed.

(** ** [position_vote] *)

(** Votes that all go to one key leave a dict with that key alone. *)
Lemma fold_dict_add_one_key {K X : Type} (eqb : K -> K -> bool) (k : K)
    (step : list (K * Q) -> X -> list (K * Q)) (xs : list X) :
  eqb k k = true ->
  (forall acc x, In x xs -> exists w, step acc x = dict_add eqb k w acc) ->
  forall acc,
    (acc = [] \/ exists v, acc = [(k, v)]) ->
    (xs = [] /\ fold_left step xs acc = acc)
    \/ exists v, fold_left step xs acc = [(k, v)].
Proof.
  intros Hk. induction xs as [|x xs IH]; intros Hstep acc Hacc; [by left|].
  right. cbn [fold_left].
  destruct (Hstep acc x) as [w Hw]; [by left|].
  assert (Hone : exists v, step acc x = [(k, v)]).
  { rewrite Hw. destruct Hacc as [->|[v ->]]; cbn [dict_add]; [by eexists|].
    rewrite Hk. by eexists. }
  destruct (IH (fun acc y Hy => Hstep acc y (or_intror Hy)) (step acc x))
    as [[_ ->]|?]; [by right|done..].
Qed.

Lemma map_lookup_total_seq (s : str) : map (fun i => s !!! i) (seq 0 (length s)) = s.
Proof.
  apply list_eq. intros i. rewrite list_lookup_fmap.
  destruct (decide (i < length s)) as [Hlt|Hge].
  - rewrite lookup_seq_lt by done. cbn. symmetry.
    by apply list_lookup_lookup_total_lt.
  - rewrite lookup_seq_ge by lia. symmetry. apply lookup_ge_None. lia.
Qed.

(** X14. Readings that all agree vote for themselves: whatever the weights,
    the vote over one or more copies of a text is that text. *)
Theorem position_vote_unanimous (s : str) (variants : list (str * Q)) :
  variants <> [] -> Forall (fun v => fst v = s) variants ->
  position_vote variants = s.
Proof.
  intros Hne Hall. unfold position_vote.
  destruct variants as [|v0 [|v1 vs]]; [done|by apply Forall_cons in Hall as [? _]|].
  set (V := v0 :: v1 :: vs) in *. cbv zeta.
  assert (Hin : forall v, In v V -> fst v = s).
  { intros v Hv. rewrite Forall_forall in Hall. by apply Hall, list_elem_of_In. }
  (* the length every reading has *)
  match goal with
  | |- context [fold_left ?f V []] =>
      destruct (fold_dict_add_one_key Nat.eqb (length s) f V (Nat.eqb_refl _))
        with (acc := @nil (nat * Q)) as [[? _]|[w ->]]; [|by left|done|]
  end.
  { intros acc [t q] Hv. exists (Qmax2 0.01 q).
    apply Hin in Hv. cbn [fst] in Hv. by rewrite Hv. }
  cbn [py_max_by max_from fold_left fmap option_fmap option_map default from_option
       id fst].
  (* the reference *)
  match goal with
  | |- context [py_max_by ref_key_ltb ?k V] =>
      destruct (py_max_by ref_key_ltb k V) as [r|] eqn:Er; [|done]
  end.
  apply py_max_by_In, Hin in Er. cbn [fmap option_fmap option_map default from_option id].
  pose proof (Hin v0 (or_introl eq_refl)) as E0.
  destruct r as [rt rq], v0 as [t0 q0]. cbn [fst] in *. subst rt t0.
  replace (match s with [] => s | _ :: _ => s end) with s by (by destruct s).
  transitivity (map (fun i => s !!! i) (seq 0 (length s)));
    [|apply map_lookup_total_seq].
  apply map_ext_in. intros i Hi%in_seq.
  unfold position_votes.
  match goal with
  | |- context [fold_left ?f V []] =>
      destruct (fold_dict_add_one_key Ascii.eqb (s !!! i) f V (Ascii.eqb_refl _))
        with (acc := @nil (ascii * Q)) as [[? _]|[w' ->]]; [|by left|done|done]
  end.
  intros acc [t q] Hv. apply Hin in Hv. cbn [fst] in Hv. subst t.
  destruct s as [|c s'] eqn:Es; [simpl in Hi; lia|]. rewrite <- Es in *.
  rewrite (align_to_reference_diag s (length s) eq_refl), list_lookup_fmap.
  rewrite (list_lookup_lookup_total_lt s i) by lia. cbn [fmap option_fmap option_map].
  by eexists.
Qed.

Lemma position_vote_unanimous_witness :
  position_vote [(lit "T3*1-B", 0.9%Q); (lit "T3*1-B", 0.4%Q); (lit "T3*1-B", 2%Q)]
  = lit "T3*1-B".
Proof.
  apply position_vote_unanimous; [discriminate|by repeat constructor].
Defined.

(** ** [select_consensus_candidate] *)

Lemma fold_left_preserves_In {A B : Type} (P : A -> Prop) (Q : B -> Prop)
    (f : A -> B -> A) (l : list B) :
  (forall a x, Q x -> P a -> P (f a x)) ->
  Forall Q l -> forall a : A, P a -> P (fold_left f l a).
Proof.
  intros Hf. induction 1 as [|x l Hx _ IH]; intros a Ha; [done|].
  cbn [fold_left]. by apply IH, Hf.
Qed.

Lemma normalize_ocr_text_twice (s : str) :
  normalize_ocr_text (normalize_ocr_text s) = normalize_ocr_text s.
Proof.
  apply normalize_ocr_text_fixed;
    [apply normalize_ocr_text_allowed|apply normalize_ocr_text_no_double].
Qed.

Lemma consensus_entries_spec (all candidates : list candidate) :
  forall acc : list entry,
  incl candidates all -> Forall (entry_ok all) acc ->
  let entries :=
    fold_left
      (fun entries '(results, combined) =>
         let text := normalize_ocr_text (best_text_window combined) in
         match text with
         | [] => entries
         | _ =>
             let conf := candidate_confidence results in
             let base := score_result results text in
             entries ++ [(text, conf, base)]
         end)
      candidates acc in
  Forall (entry_ok all) entries
  /\ (entries = [] <-> acc = [] /\ Forall (fun c => cleaned c = []) candidates).
Proof.
  induction candidates as [|[results combined] candidates IH]; intros acc Hincl Hacc.
  - cbn [fold_left]. split; [done|]. split; [by intros ->|by intros [-> _]].
  - cbn [fold_left]. cbv zeta.
    assert (Hincl' : incl candidates all) by (intros c Hc; apply Hincl; by right).
    destruct (normalize_ocr_text (best_text_window combined)) as [|ch t] eqn:E.
    + destruct (IH acc Hincl' Hacc) as [H1 H2]. split; [done|].
      rewrite H2, Forall_cons. unfold cleaned at 2. cbn [snd]. rewrite E. tauto.
    + rewrite <- E.
      destruct (IH (acc ++ [(normalize_ocr_text (best_text_window combined),
                             candidate_confidence results,
                             score_result results
                               (normalize_ocr_text (best_text_window combined)))]))
        as [H1 H2]; [done| |].
      { apply Forall_app. split; [done|]. constructor; [|done].
        unfold entry_ok, from_candidates. cbn [fst snd].
        split; [by rewrite E|]. split; [apply normalize_ocr_text_twice|].
        exists (results, combined). split; [apply Hincl; by left|done]. }
      split; [done|]. rewrite H2, Forall_cons. unfold cleaned at 2. cbn [snd].
      rewrite E. split; [intros [H _]; by destruct acc|intros [_ [? _]]; done].
Qed.

Lemma place_entry_ok (candidates : list candidate) (e : entry) (max_dist : nat)
    (clusters : list cluster) :
  entry_ok candidates e -> Forall (cluster_ok candidates) clusters ->
  forall clusters', place_entry e max_dist clusters = Some clusters' ->
  Forall (cluster_ok candidates) clusters'.
Proof.
  intros He. destruct e as [[text conf] base].
  induction clusters as [|c clusters IH]; intros Hcs clusters'; [done|].
  apply Forall_cons in Hcs as [[Hne Hc] Hcs]. cbn [place_entry].
  assert (Hrest : forall cs', cons c <$> place_entry (text, conf, base) max_dist clusters
                              = Some cs' -> Forall (cluster_ok candidates) cs').
  { intros cs' H. destruct (place_entry _ max_dist clusters) as [cs''|]; [|done].
    injection H as <-. constructor; [done|by apply IH]. }
  destruct (max_dist <? _); [apply Hrest|].
  destruct (_ <=? max_dist); [|apply Hrest].
  intros [= <-]. constructor; [|done].
  assert (Hvs : variants c ++ [(text, conf, base)] <> []) by (by destruct (variants c)).
  assert (Hall : Forall (entry_ok candidates) (variants c ++ [(text, conf, base)])).
  { apply Forall_app. split; [done|by constructor]. }
  by destruct (Qltb (best_base c) base).
Qed.

Lemma add_to_clusters_ok (candidates : list candidate) (clusters : list cluster)
    (e : entry) :
  entry_ok candidates e -> Forall (cluster_ok candidates) clusters ->
  Forall (cluster_ok candidates) (add_to_clusters clusters e).
Proof.
  intros He Hcs. unfold add_to_clusters. destruct e as [[text conf] base] eqn:Ee.
  rewrite <- Ee in *.
  destruct (place_entry e _ clusters) as [clusters'|] eqn:Ep.
  - exact (place_entry_ok candidates e _ clusters He Hcs clusters' Ep).
  - apply Forall_app. split; [done|]. constructor; [|done].
    split; cbn [variants]; [done|by constructor].
Qed.

Lemma score_cluster_ok (candidates : list candidate) (target_len : nat)
    (st : str * Q * Q) (c : cluster) :
  cluster_ok candidates c -> best_ok candidates st ->
  best_ok candidates (score_cluster target_len st c).
Proof.
  intros [Hne Hvs] Hst. unfold score_cluster. destruct st as [[best_text best_conf] best_score].
  cbv zeta.
  match goal with
  | |- context [normalize_ocr_text (best_text_window ?v)] =>
      set (voted := normalize_ocr_text (best_text_window v))
  end.
  destruct voted as [|ch t] eqn:Ev; [done|].
  destruct (Qltb best_score _); [|done].
  right. unfold from_candidates. cbn [fst snd]. split; [done|]. split.
  { rewrite <- Ev. apply normalize_ocr_text_twice. }
  destruct (py_max_by Qltb id (map (fun v => snd (fst v)) (variants c)))
    as [q|] eqn:Eq; [|by destruct (variants c)].
  apply py_max_by_In, in_map_iff in Eq as (e & <- & He). cbn [default from_option id].
  rewrite Forall_forall in Hvs. destruct (Hvs e) as (_ & _ & Hc); [by apply list_elem_of_In|].
  exact Hc.
Qed.

Lemma select_consensus_candidate_cases (candidates : list candidate) :
  (Forall (fun c => cleaned c = []) candidates
   /\ select_consensus_candidate candidates = ([], 0.0%Q))
  \/ (~ Forall (fun c => cleaned c = []) candidates
      /\ from_candidates candidates
           (fst (select_consensus_candidate candidates))
           (snd (select_consensus_candidate candidates))).
Proof.
  unfold select_consensus_candidate. cbv zeta.
  match goal with
  | |- context [fold_left ?f candidates []] =>
      assert (Hent : Forall (entry_ok candidates) (fold_left f candidates [])
                     /\ (fold_left f candidates [] = []
                         <-> [] = [] /\ Forall (fun c => cleaned c = []) candidates))
        by exact (consensus_entries_spec candidates candidates [] (incl_refl _)
                    (Forall_nil_2 _));
      revert Hent; generalize (fold_left f candidates [])
  end.
  intros entries [Hok Hnil].
  destruct entries as [|e0 entries'].
  { left. split; [apply (proj1 Hnil eq_refl)|done]. }
  assert (Hsome : ~ Forall (fun c => cleaned c = []) candidates).
  { intros H. destruct Hnil as [_ Hnil]. by specialize (Hnil (conj eq_refl H)). }
  clear Hnil. assert (Ee : e0 :: entries' <> []) by done.
  set (entries := e0 :: entries') in *. clearbody entries.
  match goal with
  | |- context [fold_left (score_cluster ?tl) ?cs ?st0] =>
      assert (Hbest : best_ok candidates (fold_left (score_cluster tl) cs st0));
        [|destruct (fold_left (score_cluster tl) cs st0)
            as [[best_text best_conf] best_score]]
  end.
  { apply (fold_left_preserves_In (best_ok candidates) (cluster_ok candidates)).
    - intros st c Hc Hst. by apply score_cluster_ok.
    - apply (fold_left_preserves_In (Forall (cluster_ok candidates))
               (entry_ok candidates)).
      + intros cs e He Hcs. by apply add_to_clusters_ok.
      + apply Forall_forall. intros e He. rewrite Forall_forall in Hok. apply Hok.
        apply list_elem_of_In. apply list_elem_of_In in He.
        by apply (Permutation_in _ (sorted_desc_perm entry_base entries)).
      + constructor.
    - by left. }
  assert (Hres : from_candidates candidates
            (fst match best_text with
                 | [] =>
                     let '(text, conf, _) :=
                       default e0 (py_max_by Qltb entry_base entries) in (text, conf)
                 | _ :: _ => (best_text, best_conf)
                 end)
            (snd match best_text with
                 | [] =>
                     let '(text, conf, _) :=
                       default e0 (py_max_by Qltb entry_base entries) in (text, conf)
                 | _ :: _ => (best_text, best_conf)
                 end)).
  { destruct best_text as [|ch t] eqn:Eb.
    - destruct (py_max_by Qltb entry_base entries) as [e|] eqn:Em;
        [|by destruct entries].
      apply py_max_by_In in Em. cbn [default from_option id].
      rewrite Forall_forall in Hok. specialize (Hok e).
      destruct e as [[text conf] base]. cbn [fst snd]. apply Hok.
      by apply list_elem_of_In.
    - destruct Hbest as [?|Hbest]; [done|]. exact Hbest. }
  by right.
Qed.

(** X20. The consensus has a text exactly when some candidate is left with
    one after cleaning; the text is then a normalized one and the
    confidence is the confidence of one of the candidates. With no text
    the confidence is [0.0]. *)
Theorem select_consensus_candidate_sound (candidates : list candidate) :
  (fst (select_consensus_candidate candidates) = []
   <-> Forall (fun c => cleaned c = []) candidates)
  /\ (fst (select_consensus_candidate candidates) = [] ->
      select_consensus_candidate candidates = ([], 0.0%Q))
  /\ (fst (select_consensus_candidate candidates) <> [] ->
      normalize_ocr_text (fst (select_consensus_candidate candidates))
      = fst (select_consensus_candidate candidates)
      /\ exists c, In c candidates
           /\ snd (select_consensus_candidate candidates)
              = candidate_confidence (fst c)).
Proof.
  destruct (select_consensus_candidate_cases candidates)
    as [[Hall ->]|[Hsome (Hne & Hnorm & Hc)]]; cbn [fst snd].
  - split; [done|]. split; [done|]. by intros ?.
  - split; [split; [by intros ?|by intros ?]|]. split; [by intros ?|].
    intros _. by split.
Qed.

(** ** The final token *)

Lemma replace_double_underscore_nonempty (s : str) :
  s <> [] -> replace_double_underscore s <> [].
Proof.
  destruct s as [|c1 [|c2 s]]; [done..|]. intros _.
  rewrite replace_double_underscore_cons2. by destruct (_ && _).
Qed.

Lemma collapse_underscores_nonempty (fuel : nat) (s : str) :
  s <> [] -> collapse_underscores fuel s <> [].
Proof.
  revert s. induction fuel as [|fuel IH]; intros s Hs; simpl; [done|].
  destruct (has_double_underscore s); [|done].
  by apply IH, replace_double_underscore_nonempty.
Qed.

(** Cleaning a non-empty text over the allowlist leaves a text. *)
Lemma cleaned_nonempty (t : str) :
  t <> [] -> forallb allowed t = true ->
  normalize_ocr_text (best_text_window t) <> [].
Proof.
  intros Hne Hal. rewrite best_text_window_scan, (sanitize_text_fixed t Hal).
  destruct t as [|c t'] eqn:E; [done|]. rewrite <- E in *.
  destruct (scan_windows_fixed t Hne Hal) as (Hw & Hwal & _).
  unfold normalize_ocr_text. rewrite (sanitize_text_fixed _ Hwal).
  destruct (fst (scan_windows t)) as [|c' w] eqn:Ew; [done|]. rewrite <- Ew in *.
  by apply collapse_underscores_nonempty.
Qed.

(** X21. The token of a unit is defined as soon as there is a
    candidate; it holds only characters of the allowlist, so that a
    character the allowlist does not have (the tab and the line feed,
    unless the allowlist is made to hold them) never occurs in it, and
    no ["__"]; and it is empty exactly when cleaning leaves no text of
    any candidate. *)
Theorem final_token_clean (candidates : list candidate) :
  candidates <> [] ->
  exists t,
    final_token candidates = Some t
    /\ forallb allowed t = true /\ has_double_underscore t = false
    /\ (forall ch, allowed ch = false -> ~ In ch t)
    /\ (t = [] <-> Forall (fun c => cleaned c = []) candidates).
Proof.
  intros Hne. unfold final_token.
  destruct (py_max_by Qltb candidate_score candidates) as [[results combined]|] eqn:Em;
    [|by destruct candidates].
  apply py_max_by_In in Em.
  assert (Hcases :
    (Forall (fun c => cleaned c = []) candidates
     /\ fst (select_consensus_candidate candidates) = [])
    \/ (~ Forall (fun c => cleaned c = []) candidates
        /\ fst (select_consensus_candidate candidates) <> []
        /\ forallb allowed (fst (select_consensus_candidate candidates)) = true)).
  { destruct (select_consensus_candidate_cases candidates)
      as [[Hall ->]|[Hsome (Hn & Hnorm & _)]]; [by left|right].
    split; [done|]. split; [done|]. rewrite <- Hnorm.
    apply normalize_ocr_text_allowed. }
  destruct (select_consensus_candidate candidates) as [consensus_text consensus_conf].
  cbn [fst snd] in *. eexists. split; [reflexivity|].
  set (t := match match consensus_text with [] => combined | _ :: _ => consensus_text end
            with
            | [] => match consensus_text with [] => combined | _ :: _ => consensus_text end
            | _ :: _ =>
                normalize_ocr_text
                  (best_text_window
                     match consensus_text with [] => combined | _ :: _ => consensus_text end)
            end).
  assert (Hclean : forallb allowed t = true /\ has_double_underscore t = false).
  { unfold t. destruct (match consensus_text with [] => combined | _ => _ end);
      [done|]. split; [apply normalize_ocr_text_allowed|apply normalize_ocr_text_no_double]. }
  destruct Hclean as [Hal Hdu]. split; [done|]. split; [done|].
  assert (Hnot : forall ch, allowed ch = false -> ~ In ch t).
  { intros ch Hch Hin. rewrite forallb_forall in Hal. specialize (Hal ch Hin). congruence. }
  split; [done|].
  unfold t. destruct Hcases as [[Hall ->]|(Hsome & Hn & Hcal)].
  - split; [done|]. intros _.
    destruct combined as [|c0 comb] eqn:Eb; [done|]. rewrite <- Eb in *.
    rewrite Forall_forall in Hall.
    apply (Hall (results, combined)). by apply list_elem_of_In.
  - destruct consensus_text as [|ch ct] eqn:Ec; [done|]. rewrite <- Ec in *.
    split; [|done]. intros H. by apply (cleaned_nonempty consensus_text) in H.
Qed.

(** Under the default allowlist, which has no tab and no line feed. *)
Lemma final_token_clean_witness :
  exists t,
    final_token [reading [] token] = Some t
    /\ forallb allowed t = true /\ has_double_underscore t = false
    /\ (In TAB t -> False) /\ (In NL t -> False).
Proof.
  destruct (final_token_clean [reading [] token])
    as (t & Ht & Hal & Hdu & Hnot & _); [discriminate|].
  exists t. split; [exact Ht|]. split; [exact Hal|]. split; [exact Hdu|].
  split; apply Hnot; reflexivity.
Defined.

(** ** [order_quad_points]: the corners are extremes *)

Section arg_scan_bound.
Variable better : Q -> Q -> bool.
Variable le : Q -> Q -> Prop.
Hypothesis le_refl : forall u, le u u.
Hypothesis le_trans : forall u v w, le u v -> le v w -> le u w.
Hypothesis better_true : forall u v, better u v = true -> le u v.
Hypothesis better_false : forall u v, better u v = false -> le v u.
Variable d : Q.

Lemma arg_scan_bound (l : list Q) : forall (pre : list Q) (bi : nat),
  bi < length pre ->
  (forall v, In v pre -> le (nth bi pre d) v) ->
  arg_scan better bi (nth bi pre d) (length pre) l < length (pre ++ l)
  /\ forall v, In v (pre ++ l) ->
       le (nth (arg_scan better bi (nth bi pre d) (length pre) l) (pre ++ l) d) v.
Proof.
  induction l as [|x l IH]; intros pre bi Hbi Hpre.
  - cbn [arg_scan]. rewrite app_nil_r. by split.
  - cbn [arg_scan].
    replace (pre ++ x :: l) with ((pre ++ [x]) ++ l) by (by rewrite <- app_assoc).
    replace (S (length pre)) with (length (pre ++ [x]))
      by (rewrite length_app; simpl; lia).
    destruct (better x (nth bi pre d)) eqn:E.
    + pose proof (IH (pre ++ [x]) (length pre)) as IH'.
      rewrite nth_middle in IH'.
      apply IH'; [rewrite length_app; simpl; lia|].
      intros v [Hv|[<-|[]]]%in_app_or; [|done].
      apply (le_trans _ (nth bi pre d)); [by apply better_true|by apply Hpre].
    + pose proof (IH (pre ++ [x]) bi) as IH'.
      rewrite app_nth1 in IH' by done.
      apply IH'; [rewrite length_app; simpl; lia|].
      intros v [Hv|[<-|[]]]%in_app_or; [by apply Hpre|].
      by apply better_false.
Qed.
End arg_scan_bound.

Lemma argmin_least (f : point -> Q) (pts : list point) :
  pts <> [] ->
  In (nth (argmin (map f pts)) pts origin) pts
  /\ forall p, In p pts -> (f (nth (argmin (map f pts)) pts origin) <= f p)%Q.
Proof.
  destruct pts as [|p0 pts]; [done|]. intros _. cbn [map argmin].
  destruct (arg_scan_bound Qltb Qle Qle_refl Qle_trans) with
    (d := f origin) (l := map f pts) (pre := [f p0]) (bi := 0) as [Hlt Hmin].
  - intros u v H%Qltb_true. by apply Qlt_le_weak.
  - intros u v H%Qltb_false. done.
  - simpl. lia.
  - intros v [<-|[]]. apply Qle_refl.
  - cbn [length app] in *. rewrite length_map in Hlt.
    change (nth 0 [f p0] (f origin)) with (f p0) in *.
    set (r := arg_scan Qltb 0 (f p0) 1 (map f pts)) in *.
    change (f p0 :: map f pts) with (map f (p0 :: pts)) in Hmin.
    rewrite map_nth in Hmin. split.
    + apply nth_In. simpl. lia.
    + intros p Hp. apply (Hmin (f p)). by apply in_map.
Qed.

Lemma argmax_greatest (f : point -> Q) (pts : list point) :
  pts <> [] ->
  In (nth (argmax (map f pts)) pts origin) pts
  /\ forall p, In p pts -> (f p <= f (nth (argmax (map f pts)) pts origin))%Q.
Proof.
  destruct pts as [|p0 pts]; [done|]. intros _. cbn [map argmax].
  destruct (arg_scan_bound (fun x y => Qltb y x) (fun u v => Qle v u)) with
    (d := f origin) (l := map f pts) (pre := [f p0]) (bi := 0) as [Hlt Hmin].
  - intros u. apply Qle_refl.
  - intros u v w H1 H2. by apply (Qle_trans _ v).
  - intros u v H%Qltb_true. by apply Qlt_le_weak.
  - intros u v H%Qltb_false. done.
  - simpl. lia.
  - intros v [<-|[]]. apply Qle_refl.
  - cbn [length app] in *. rewrite length_map in Hlt.
    change (nth 0 [f p0] (f origin)) with (f p0) in *.
    set (r := arg_scan (fun x y => Qltb y x) 0 (f p0) 1 (map f pts)) in *.
    change (f p0 :: map f pts) with (map f (p0 :: pts)) in Hmin.
    rewrite map_nth in Hmin. split.
    + apply nth_In. simpl. lia.
    + intros p Hp. apply (Hmin (f p)). by apply in_map.
Qed.

(** X3. Whatever the rounding to float32 is: anything but four points
    is an error, and of four points the corners returned are rows of
    the float32 array; among the rows the first corner has the least
    sum [x + y] and the third the greatest, the second the least
    difference [y - x] and the fourth the greatest, for the sums and
    differences as the code computes them in float32. *)
Theorem order_quad_points_corners (f32 : Q -> Q) (pts : list point) :
  (length pts <> 4 -> order_quad_points f32 pts = None)
  /\ (length pts = 4 ->
      exists tl tr br bl,
        order_quad_points f32 pts = Some [tl; tr; br; bl]
        /\ In tl (map (to_float32 f32) pts) /\ In tr (map (to_float32 f32) pts)
        /\ In br (map (to_float32 f32) pts) /\ In bl (map (to_float32 f32) pts)
        /\ forall p, In p (map (to_float32 f32) pts) ->
             (sum32 f32 tl <= sum32 f32 p)%Q /\ (sum32 f32 p <= sum32 f32 br)%Q
             /\ (diff32 f32 tr <= diff32 f32 p)%Q
             /\ (diff32 f32 p <= diff32 f32 bl)%Q).
Proof.
  unfold order_quad_points. split.
  - intros H. apply Nat.eqb_neq in H. by rewrite H.
  - intros H. rewrite H. change (4 =? 4) with true. cbv beta iota zeta.
    set (pts32 := map (to_float32 f32) pts).
    assert (Hne : pts32 <> []) by (by destruct pts).
    destruct (argmin_least (sum32 f32) pts32 Hne) as [H1 H1'].
    destruct (argmax_greatest (sum32 f32) pts32 Hne) as [H2 H2'].
    destruct (argmin_least (diff32 f32) pts32 Hne) as [H3 H3'].
    destruct (argmax_greatest (diff32 f32) pts32 Hne) as [H4 H4'].
    eexists _, _, _, _. split; [reflexivity|]. do 4 (split; [done|]).
    intros p Hp. auto.
Qed.

(** The theorem for the rounding to float32 itself, on two points that
    tie in float32 only. *)
Lemma order_quad_points_corners_witness :
  exists tl tr br bl,
    order_quad_points round_f32
      [(0, 0); (1000, 24); (1000, 12582913 # 524288); (0, 500)]%Q
    = Some [tl; tr; br; bl]
    /\ In tl (map (to_float32 round_f32)
                [(0, 0); (1000, 24); (1000, 12582913 # 524288); (0, 500)]%Q)
    /\ In tr (map (to_float32 round_f32)
                [(0, 0); (1000, 24); (1000, 12582913 # 524288); (0, 500)]%Q)
    /\ In br (map (to_float32 round_f32)
                [(0, 0); (1000, 24); (1000, 12582913 # 524288); (0, 500)]%Q)
    /\ In bl (map (to_float32 round_f32)
                [(0, 0); (1000, 24); (1000, 12582913 # 524288); (0, 500)]%Q)
    /\ forall p,
         In p (map (to_float32 round_f32)
                 [(0, 0); (1000, 24); (1000, 12582913 # 524288); (0, 500)]%Q) ->
         (sum32 round_f32 tl <= sum32 round_f32 p)%Q
         /\ (sum32 round_f32 p <= sum32 round_f32 br)%Q
         /\ (diff32 round_f32 tr <= diff32 round_f32 p)%Q
         /\ (diff32 round_f32 p <= diff32 round_f32 bl)%Q.
Proof.
  apply (proj2 (order_quad_points_corners round_f32
                  [(0, 0); (1000, 24); (1000, 12582913 # 524288); (0, 500)]%Q)).
  reflexivity.
Defined.

(** ** The clusters of [select_consensus_candidate] *)

Lemma place_entry_perm (e : entry) (max_dist : nat) (clusters : list cluster) :
  forall clusters', place_entry e max_dist clusters = Some clusters' ->
  Permutation (concat (map variants clusters')) (e :: concat (map variants clusters)).
Proof.
  destruct e as [[text conf] base].
  induction clusters as [|c clusters IH]; intros clusters'; [done|].
  cbn [place_entry].
  assert (Hrest : forall cs', cons c <$> place_entry (text, conf, base) max_dist clusters
                              = Some cs' ->
            Permutation (concat (map variants cs'))
              ((text, conf, base) :: concat (map variants (c :: clusters)))).
  { intros cs' H. destruct (place_entry _ max_dist clusters) as [cs''|]; [|done].
    injection H as <-. cbn [map concat]. rewrite (IH cs'' eq_refl).
    by rewrite Permutation_middle. }
  destruct (max_dist <? _); [apply Hrest|].
  destruct (_ <=? max_dist); [|apply Hrest].
  intros [= <-]. cbn [map concat].
  assert (Hv : forall c', variants c' = variants c ++ [(text, conf, base)] ->
            Permutation (variants c' ++ concat (map variants clusters))
              ((text, conf, base) :: variants c ++ concat (map variants clusters))).
  { intros c' ->. rewrite <- app_assoc. cbn [app].
    by rewrite <- Permutation_middle. }
  by destruct (Qltb (best_base c) base); apply Hv.
Qed.

Lemma add_to_clusters_perm (clusters : list cluster) (e : entry) :
  Permutation (concat (map variants (add_to_clusters clusters e)))
    (e :: concat (map variants clusters)).
Proof.
  unfold add_to_clusters. destruct e as [[text conf] base].
  destruct (place_entry _ _ clusters) as [clusters'|] eqn:Ep.
  - by apply (place_entry_perm _ _ _ _ Ep).
  - rewrite map_app, concat_app. cbn [map concat variants].
    rewrite app_nil_r. by rewrite <- Permutation_cons_append.
Qed.

Lemma fold_add_to_clusters_perm (es : list entry) : forall clusters : list cluster,
  Permutation (concat (map variants (fold_left add_to_clusters es clusters)))
    (concat (map variants clusters) ++ es).
Proof.
  induction es as [|e es IH]; intros clusters; cbn [fold_left].
  - by rewrite app_nil_r.
  - rewrite IH, add_to_clusters_perm. by rewrite <- Permutation_middle.
Qed.

(** X18. Every entry is put into exactly one cluster: the variants of the
    clusters, taken together, are the entries. *)
Theorem clusters_partition (es : list entry) :
  Permutation (concat (map variants (clusters_of es))) es.
Proof. unfold clusters_of. by rewrite fold_add_to_clusters_perm. Qed.

(** *** The seed of a cluster *)

Lemma insert_desc_sorted {A : Type} (key : A -> Q) (x : A) (l : list A) :
  StronglySorted (fun a b => (key b <= key a)%Q) l ->
  StronglySorted (fun a b => (key b <= key a)%Q) (insert_desc key x l).
Proof.
  induction 1 as [|y l Hl IH Hy]; cbn [insert_desc].
  - repeat constructor.
  - destruct (Qltb (key x) (key y)) eqn:E.
    + apply Qltb_true in E. constructor; [done|].
      rewrite Forall_forall in Hy |- *. intros z Hz.
      apply list_elem_of_In in Hz.
      apply (Permutation_in _ (insert_desc_perm key x l)) in Hz as [<-|Hz].
      * by apply Qlt_le_weak.
      * by apply Hy, list_elem_of_In.
    + apply Qltb_false in E. constructor; [by constructor|].
      constructor; [done|]. rewrite Forall_forall in Hy |- *. intros z Hz.
      apply (Qle_trans _ (key y)); [by apply Hy|done].
Qed.

Lemma sorted_desc_sorted {A : Type} (key : A -> Q) (l : list A) :
  StronglySorted (fun a b => (key b <= key a)%Q) (sorted_desc key l).
Proof.
  induction l as [|x l IH]; cbn [sorted_desc]; [constructor|].
  by apply insert_desc_sorted.
Qed.

Lemma place_entry_leads (bound : Q -> Prop) (e : entry) (max_dist : nat)
    (clusters : list cluster) :
  (forall b, bound b -> (entry_base e <= b)%Q) ->
  Forall (cluster_leads bound) clusters ->
  forall clusters', place_entry e max_dist clusters = Some clusters' ->
  Forall (cluster_leads bound) clusters'.
Proof.
  intros Hb. destruct e as [[text conf] base]. unfold entry_base in Hb. cbn [snd] in Hb.
  induction clusters as [|c clusters IH]; intros Hcs clusters'; [done|].
  apply Forall_cons in Hcs as [[Hseed Hc] Hcs]. cbn [place_entry].
  assert (Hrest : forall cs', cons c <$> place_entry (text, conf, base) max_dist clusters
                              = Some cs' -> Forall (cluster_leads bound) cs').
  { intros cs' H. destruct (place_entry _ max_dist clusters) as [cs''|]; [|done].
    injection H as <-. constructor; [done|by apply IH]. }
  destruct (max_dist <? _); [apply Hrest|].
  destruct (_ <=? max_dist); [|apply Hrest].
  intros [= <-]. constructor; [|done].
  assert (E : Qltb (best_base c) base = false) by (by apply Qltb_false, Hb).
  rewrite E. split; [|done].
  destruct Hseed as (t0 & c0 & b0 & rest & Hv & Hs & Hbb).
  exists t0, c0, b0, (rest ++ [(text, conf, base)]). cbn [variants seed best_base].
  by rewrite Hv.
Qed.

Lemma fold_add_to_clusters_leads (es : list entry) :
  StronglySorted (fun a b => (entry_base b <= entry_base a)%Q) es ->
  forall clusters : list cluster,
  Forall (cluster_leads (fun b => Forall (fun e => (entry_base e <= b)%Q) es)) clusters ->
  Forall seeded_by_first (fold_left add_to_clusters es clusters).
Proof.
  induction 1 as [|e es Hes IH He]; intros clusters Hcs; cbn [fold_left].
  - apply (Forall_impl _ _ _ Hcs). by intros c [? _].
  - apply IH. unfold add_to_clusters. destruct e as [[text conf] base] eqn:Ee.
    rewrite <- Ee in *.
    assert (Hweak : forall cs,
      Forall (cluster_leads (fun b => Forall (fun e => (entry_base e <= b)%Q) (e :: es))) cs ->
      Forall (cluster_leads (fun b => Forall (fun e => (entry_base e <= b)%Q) es)) cs).
    { intros cs H. apply (Forall_impl _ _ _ H). intros c [Hs Hb]. split; [done|].
      by apply Forall_cons in Hb as [_ Hb]. }
    destruct (place_entry e _ clusters) as [clusters'|] eqn:Ep.
    + apply Hweak.
      eapply place_entry_leads; [|exact Hcs|exact Ep].
      intros b Hb. by apply Forall_cons in Hb as [Hb _].
    + apply Forall_app. split; [by apply Hweak|]. constructor; [|done]. split.
      * exists text, conf, base, []. by rewrite Ee.
      * cbn [best_base]. replace base with (entry_base e) by (by rewrite Ee). done.
Qed.

(** X19. The entries are clustered in descending order of their base, so
    the test [base > cluster["best_base"]] never succeeds: the seed and
    the best base of every cluster stay those of its first variant. *)
Theorem clusters_seed_is_first (entries : list entry) :
  Forall seeded_by_first (clusters_of (sorted_desc entry_base entries)).
Proof.
  unfold clusters_of. apply fold_add_to_clusters_leads; [|constructor].
  apply sorted_desc_sorted.
Qed.
